(** * Pharmacy_Refusals: travel-time matrices and their population-weighted
      symmetrization

    A shallow embedding of

    - [Modular_Code/compute_t_matrices_1.py]
      ([compute_dtilde_matrix], [compute_d_matrix], [process_files],
      [batch_process_all], [load_labeled_matrix]),
    - [Modular_Code/raw_walk_and_drive_times1.py] ([compute_matrices], the
      pairwise strategy), and
    - [Modular_Code/raw_walk_and_drive_times_test_2.py]
      ([compute_full_drive_matrix], [compute_full_walk_matrix],
      [compute_matrices_dijkstra], the per-source strategy),

    together with the properties the specification states about them.

    Numbers.  The Python code computes with numpy [float64].  The embedding
    is written once, over the operations a cell of an array supports
    ([Cell]), and read in two models of them:

    - [binary64]: IEEE-754 double precision, as specified by the Standard
      Library's [SpecFloat], with rounding to nearest even, overflow,
      signed zeros, infinities and nan: the arithmetic the code runs;
    - [xrat]: exact rationals with the three special values [+inf], [-inf]
      and [nan], that is, the same arithmetic without rounding.

    What depends only on how zeros, nan and the order of operands are
    treated is proved for every model that obeys [CellLaws], so for both.
    What depends on the value of a quotient is proved in [binary64]: a
    double stands for a rational ([b64_value]), and a result that neither
    overflowed nor underflowed is within one unit in the last place of the
    exact one. *)

From Stdlib Require Import ZArith QArith Qpower Qminmax Qcanon Lqa.
From Corelib Require Import SpecFloat.
From stdpp Require Import base list strings.

Close Scope Q_scope.
Close Scope Qc_scope.
Local Open Scope string_scope.
Local Open Scope nat_scope.

(** ** Python exceptions and the error monad *)

Inductive exn :=
  | ValueError (msg : string)
  | IndexError
  | ZeroDivisionError
  | NetworkXNoPath.

Inductive res (A : Type) :=
  | Ok (a : A)
  | Raise (e : exn).
Arguments Ok {A} a.
Arguments Raise {A} e.

#[global] Instance res_bind : MBind res := λ A B k m,
  match m with
  | Ok a => k a
  | Raise e => Raise e
  end.

(** [for x in xs: s = body(x, s)], stopping at the first exception. *)
Fixpoint for_each {X S} (xs : list X) (body : X → S → res S) (s : S) : res S :=
  match xs with
  | [] => Ok s
  | x :: xs' => s' ← body x s; for_each xs' body s'
  end.

(** [[f(x) for x in xs]] (also [pool.map(f, xs)]: the results come back in
    the order of [xs], and an exception of any call is raised again). *)
Fixpoint map_res {A B} (f : A → res B) (xs : list A) : res (list B) :=
  match xs with
  | [] => Ok []
  | x :: xs' => y ← f x; ys ← map_res f xs'; Ok (y :: ys)
  end.

(** [enumerate(xs)] *)
Definition enumerate {X} (xs : list X) : list (nat * X) := imap pair xs.

(** [xs[i]] on a vector or a list. *)
Definition getitem1 {X} (xs : list X) (i : nat) : res X :=
  match xs !! i with
  | Some x => Ok x
  | None => Raise IndexError
  end.

(** ** The cells of an array *)

(** What the code does with a [float64]: the constants [0] and [np.nan],
    [+], [*], [/] (of numpy, which never raises), [np.isnan], the test
    [x == 0], and decimal literals. *)
Class Cell (C : Type) := {
  czero : C;
  cnan : C;
  cadd : C → C → C;
  cmul : C → C → C;
  cdiv : C → C → C;
  isnan : C → bool;
  eq0 : C → bool;
  literal : Q → C
}.

Infix "⊕" := cadd (at level 50, left associativity).
Infix "⊗" := cmul (at level 40, left associativity).
Infix "⊘" := cdiv (at level 40, left associativity).

(** The laws of IEEE-754 arithmetic the structural properties rest on. *)
Class CellLaws (C : Type) `{Cell C} : Prop := {
  isnan_czero : isnan czero = false;
  eq0_czero : eq0 czero = true;
  isnan_cnan : isnan cnan = true;
  (** addition is commutative *)
  cadd_comm x y : x ⊕ y = y ⊕ x;
  (** nan is absorbing *)
  isnan_cmul x y : isnan y = true → isnan (x ⊗ y) = true;
  isnan_cadd x y : isnan x = true → isnan (x ⊕ y) = true;
  isnan_cdiv x y : isnan x = true → isnan (x ⊘ y) = true;
  (** zero weights: (0·x + 0·y) / (0 + 0) is nan, whatever x and y are *)
  zero_over_zero z z' x y :
    eq0 z = true → eq0 z' = true →
    isnan ((z ⊗ x ⊕ z' ⊗ y) ⊘ (z ⊕ z')) = true;
  (** the literal 1.42 is not zero *)
  eq0_walk_speed : eq0 (literal (142 # 100)) = false
}.

(** ** numpy arrays of two dimensions *)

Record ndarray (C : Type) := NdArray {
  shape0 : nat;
  shape1 : nat;
  data : list (list C)
}.
Arguments NdArray {C} _ _ _.
Arguments shape0 {C} _.
Arguments shape1 {C} _.
Arguments data {C} _.

(** ** Tables and files *)

(** A row of [<base_name>_tract_data.csv]: the [ID] column and the
    [B01003_001E] column ([None] when the field does not parse as a
    number). *)
Record tract_row (C : Type) := TractRow {
  ID : string;
  B01003_001E : option C
}.
Arguments TractRow {C} _ _.
Arguments ID {C} _.
Arguments B01003_001E {C} _.

Record DataFrame (C : Type) := MkDataFrame {
  df_index : list string;
  df_columns : list string;
  df_values : ndarray C
}.
Arguments MkDataFrame {C} _ _ _.
Arguments df_index {C} _.
Arguments df_columns {C} _.
Arguments df_values {C} _.

Inductive file_content (C : Type) :=
  | CsvFile (table : DataFrame C)
  | NpyFile (matrix : ndarray C).
Arguments CsvFile {C} _.
Arguments NpyFile {C} _.

Record saved_file (C : Type) := SavedFile {
  file_name : string;
  content : file_content C
}.
Arguments SavedFile {C} _ _.
Arguments file_name {C} _.
Arguments content {C} _.

(** networkx is an external library.  A graph with one of its edge weights
    is represented by its shortest-path lengths: [G s t] is [Some d] when
    the cheapest path from node [s] to node [t] costs [d], and [None] when
    [t] cannot be reached from [s]. *)
Definition graph (C : Type) := nat → nat → option C.

Section code.
Context {C : Type} `{!Cell C}.

(** [nan] replaced by 0, any other value kept. *)
Definition unnan (x : C) : C := if isnan x then czero else x.

(** The rows agree with the shape. *)
Definition wf (A : ndarray C) : Prop :=
  length (data A) = shape0 A ∧ Forall (λ r, length r = shape1 A) (data A).

Definition cell (A : ndarray C) (i j : nat) : option C :=
  data A !! i ≫= (.!! j).

(** [A[i, j]] *)
Definition getitem (A : ndarray C) (i j : nat) : res C :=
  match cell A i j with
  | Some x => Ok x
  | None => Raise IndexError
  end.

(** [A[i, j] = x] *)
Definition setitem (A : ndarray C) (i j : nat) (x : C) : res (ndarray C) :=
  if (i <? shape0 A) && (j <? shape1 A)
  then Ok (NdArray (shape0 A) (shape1 A) (alter (<[j:=x]>) i (data A)))
  else Raise IndexError.

(** The array whose cell (i, j) is [f i j]. *)
Definition tabulate (r c : nat) (f : nat → nat → C) : ndarray C :=
  NdArray r c ((λ i, f i <$> seq 0 c) <$> seq 0 r).

(** [np.full((r, c), x)], [np.zeros((r, c))] *)
Definition np_full (r c : nat) (x : C) : ndarray C :=
  NdArray r c (replicate r (replicate c x)).
Definition np_zeros (r c : nat) : ndarray C := np_full r c czero.

(** A read inside the bounds of a well-formed array. *)
Definition peek (A : ndarray C) (i j : nat) : C :=
  default cnan (cell A i j).

(** [A.T] *)
Definition transpose (A : ndarray C) : ndarray C :=
  tabulate (shape1 A) (shape0 A) (λ i j, peek A j i).

(** [p.reshape(-1, 1)] and [p.reshape(1, -1)] *)
Definition reshape_col (p : list C) : ndarray C :=
  NdArray (length p) 1 ((λ x, [x]) <$> p).
Definition reshape_row (p : list C) : ndarray C :=
  NdArray 1 (length p) [p].

(** numpy broadcasting of a binary operation: two extents are compatible
    when they are equal or one of them is 1, and an extent of 1 is
    stretched. *)
Definition bdim (a b : nat) : res nat :=
  if a =? b then Ok a
  else if a =? 1 then Ok b
  else if b =? 1 then Ok a
  else Raise (ValueError "operands could not be broadcast together").

Definition bidx (extent i : nat) : nat := if extent =? 1 then 0 else i.

Definition broadcast (op : C → C → C) (A B : ndarray C) : res (ndarray C) :=
  r ← bdim (shape0 A) (shape0 B);
  c ← bdim (shape1 A) (shape1 B);
  Ok (tabulate r c (λ i j,
        op (peek A (bidx (shape0 A) i) (bidx (shape1 A) j))
           (peek B (bidx (shape0 B) i) (bidx (shape1 B) j)))).

Definition np_add := broadcast cadd.
Definition np_mul := broadcast cmul.
Definition np_div := broadcast cdiv.

(** [A[np.isnan(A)] = 0] *)
Definition nan_to_zero (A : ndarray C) : ndarray C :=
  NdArray (shape0 A) (shape1 A) ((λ r : list C, unnan <$> r) <$> data A).

(** ** compute_t_matrices_1.py *)

(** [compute_dtilde_matrix(travel_matrix, populations)] *)
Definition compute_dtilde_matrix (travel_matrix : ndarray C)
    (populations : list C) : res (ndarray C) :=
  let pop_i := reshape_col populations in
  let pop_j := reshape_row populations in
  a ← np_mul pop_i travel_matrix;
  b ← np_mul pop_j (transpose travel_matrix);
  num ← np_add a b;
  den ← np_add pop_i pop_j;
  dtilde ← np_div num den;
  Ok (nan_to_zero dtilde).

(** [compute_d_matrix(dtilde_matrix, populations)] *)
Definition compute_d_matrix (dtilde_matrix : ndarray C)
    (populations : list C) : res (ndarray C) :=
  let n := length populations in
  for_each (seq 0 n) (λ i d_matrix,
    for_each (seq 0 n) (λ j d_matrix,
      popi ← getitem1 populations i;
      popj ← getitem1 populations j;
      if eq0 popi && eq0 popj then
        setitem d_matrix i j czero
      else if eq0 popi then
        x ← getitem dtilde_matrix j i;
        setitem d_matrix i j x
      else if eq0 popj then
        x ← getitem dtilde_matrix i j;
        setitem d_matrix i j x
      else
        dij ← getitem dtilde_matrix i j;
        dji ← getitem dtilde_matrix j i;
        setitem d_matrix i j ((popi ⊗ dij ⊕ popj ⊗ dji) ⊘ (popi ⊕ popj)))
      d_matrix)
    (np_zeros n n).

(** *** Persistence: [process_files] and [load_labeled_matrix]

    The files are taken as already read: a tract table is the list of its
    rows, an [.npy] file is the array it holds.  What [process_files] saves
    is returned as the list of files written, in order, next to the outcome
    of the call. *)

(** [pd.to_numeric(col, errors='coerce').fillna(0).values.astype(float)] *)
Definition to_numeric_coerce (field : option C) : C := default cnan field.
Definition fillna0 (x : C) : C := unnan x.
Definition population_column (df : list (tract_row C)) : list C :=
  (λ r, fillna0 (to_numeric_coerce (B01003_001E r))) <$> df.

(** [df['ID'].reset_index(drop=True)] *)
Definition id_column (df : list (tract_row C)) : list string := ID <$> df.

(** [pd.DataFrame(matrix, index=ids, columns=ids)]: pandas refuses axes
    that do not fit the shape of the values. *)
Definition make_DataFrame (matrix : ndarray C) (index columns : list string)
  : res (DataFrame C) :=
  if (shape0 matrix =? length index) && (shape1 matrix =? length columns)
  then Ok (MkDataFrame index columns matrix)
  else Raise (ValueError "Shape of passed values does not match the indices").

(** One round of the saving loop of [process_files]: label the matrix,
    write the CSV, write the NPY. *)
Definition save_labeled (base_name travel_type : string) (ids : list string)
    (matrix : ndarray C) (label : string) (written : list (saved_file C))
  : list (saved_file C) * res unit :=
  match make_DataFrame matrix ids ids with
  | Raise e => (written, Raise e)
  | Ok df_matrix =>
      let stem := base_name +:+ "_" +:+ label +:+ "_" +:+ travel_type in
      ((written ++ [SavedFile (stem +:+ ".csv") (CsvFile df_matrix);
                    SavedFile (stem +:+ ".npy") (NpyFile matrix)])%list,
       Ok ())
  end.

(** [for matrix, label in zip(...)]: the rounds in order, up to the first
    exception. *)
Fixpoint save_all (base_name travel_type : string) (ids : list string)
    (items : list (ndarray C * string)) (written : list (saved_file C))
  : list (saved_file C) * res unit :=
  match items with
  | [] => (written, Ok ())
  | (matrix, label) :: items' =>
      match save_labeled base_name travel_type ids matrix label written with
      | (written', Raise e) => (written', Raise e)
      | (written', Ok _) => save_all base_name travel_type ids items' written'
      end
  end.

(** [process_files(travel_type, input_csv_path, travel_matrix_path,
    output_folder)], on the table read from [input_csv_path] and the array
    read from [travel_matrix_path]; [base_name] is the CSV's file name
    without its [_tract_data.csv] suffix. *)
Definition process_files (travel_type base_name : string)
    (df : list (tract_row C)) (travel_matrix : ndarray C)
  : list (saved_file C) * res unit :=
  let populations := population_column df in
  let ids := id_column df in
  if negb (shape0 travel_matrix =? length populations)
  then ([], Raise (ValueError
    "Mismatch: travel matrix size does not match number of population entries."))
  else
    match compute_dtilde_matrix travel_matrix populations with
    | Raise e => ([], Raise e)
    | Ok dtilde =>
        match compute_d_matrix dtilde populations with
        | Raise e => ([], Raise e)
        | Ok dmat =>
            save_all base_name travel_type ids
              (zip [dtilde; dmat] ["dtilde"; "d"]) []
        end
    end.

(** [load_labeled_matrix(npy_path, tract_csv_path)], on the array and the
    table read from the two paths. *)
Definition load_labeled_matrix (matrix : ndarray C) (df : list (tract_row C))
  : res (DataFrame C) :=
  let ids := id_column df in
  if negb (shape0 matrix =? length ids)
  then Raise (ValueError "Matrix size and number of IDs do not match.")
  else make_DataFrame matrix ids ids.

(** ** The raw matrices *)

(** [nx.shortest_path_length(G, s, t, weight=...)] raises [NetworkXNoPath]
    when there is no path. *)
Definition shortest_path_length (G : graph C) (s t : nat) : res C :=
  match G s t with
  | Some d => Ok d
  | None => Raise NetworkXNoPath
  end.

(** [nx.single_source_dijkstra_path_length(G, src, weight=...)]: the
    dictionary of the nodes reachable from [src], with their distances. *)
Definition single_source_dijkstra_path_length (G : graph C) (src : nat)
  : nat → option C := G src.

(** Division of two Python floats. *)
Definition py_div (x y : C) : res C :=
  if eq0 y then Raise ZeroDivisionError else Ok (x ⊘ y).

(** The pedestrian speed, 1.42 m/s. *)
Definition walk_speed : C := literal (142 # 100).

(** *** raw_walk_and_drive_times1.py: one query per pair *)

Definition pairs_walk (n : nat) : list (nat * nat) :=
  i ← seq 0 n; j ← seq (i + 1) (n - (i + 1)); [(i, j)].

Definition pairs_drive (n : nat) : list (nat * nat) :=
  i ← seq 0 n; j ← seq 0 n; if decide (i ≠ j) then [(i, j)] else [].

Definition _drive_time (Gd : graph C) (nodes_drive : list nat)
    (pair : nat * nat) : res C :=
  let '(i, j) := pair in
  s ← getitem1 nodes_drive i;
  t ← getitem1 nodes_drive j;
  shortest_path_length Gd s t.

Definition _walk_time (Gw : graph C) (nodes_walk : list nat)
    (pair : nat * nat) : res C :=
  let '(i, j) := pair in
  s ← getitem1 nodes_walk i;
  t ← getitem1 nodes_walk j;
  length_m ← shortest_path_length Gw s t;
  py_div length_m walk_speed.

(** The drive segment of [compute_matrices]: the matrix [D] it saves. *)
Definition compute_matrices_drive (Gd : graph C) (nodes_drive : list nat)
  : res (ndarray C) :=
  let n := length nodes_drive in
  drive_results ← map_res (_drive_time Gd nodes_drive) (pairs_drive n);
  for_each (enumerate (pairs_drive n)) (λ '(idx, (i, j)) D,
    x ← getitem1 drive_results idx;
    setitem D i j x)
    (np_zeros n n).

(** The walk segment of [compute_matrices]: the matrix [W] it saves. *)
Definition compute_matrices_walk (Gw : graph C) (nodes_walk : list nat)
  : res (ndarray C) :=
  let n := length nodes_walk in
  walk_results ← map_res (_walk_time Gw nodes_walk) (pairs_walk n);
  for_each (enumerate (pairs_walk n)) (λ '(idx, (i, j)) W,
    x ← getitem1 walk_results idx;
    W ← setitem W i j x;
    setitem W j i x)
    (np_zeros n n).

(** [compute_matrices(input_csv_path, output_dir, city, state, do_drive,
    do_walk)], on the two networks osmnx supplies and the nodes nearest to
    the points of the CSV: the [.npy] files it saves, in order, and the
    outcome of the call. *)
Definition compute_matrices (Gd Gw : graph C) (nodes_drive nodes_walk : list nat)
    (file_name_city file_name_state today : string) (do_drive do_walk : bool)
  : list (saved_file C) * res unit :=
  let stem := file_name_city +:+ "_" +:+ file_name_state +:+ "_" +:+ today in
  let drive_segment :=
    if do_drive then
      match compute_matrices_drive Gd nodes_drive with
      | Ok D => ([SavedFile ("drive_time_" +:+ stem +:+ ".npy") (NpyFile D)], Ok ())
      | Raise e => ([], Raise e)
      end
    else ([], Ok ()) in
  match drive_segment with
  | (written, Raise e) => (written, Raise e)
  | (written, Ok _) =>
      if do_walk then
        match compute_matrices_walk Gw nodes_walk with
        | Ok W =>
            ((written ++ [SavedFile ("walk_time_" +:+ stem +:+ ".npy") (NpyFile W)])%list,
             Ok ())
        | Raise e => (written, Raise e)
        end
      else (written, Ok ())
  end.

(** *** raw_walk_and_drive_times_test_2.py: one traversal per source *)

(** [compute_full_drive_matrix(G, nodes, weight)] *)
Definition compute_full_drive_matrix (G : graph C) (nodes : list nat)
  : res (ndarray C) :=
  let n := length nodes in
  for_each (enumerate nodes) (λ '(i, src) D,
    let lengths := single_source_dijkstra_path_length G src in
    for_each (enumerate nodes) (λ '(j, tgt) D,
      setitem D i j (default cnan (lengths tgt))) D)
    (np_full n n cnan).

(** [compute_full_walk_matrix(G, nodes, length_weight, speed_mps)] *)
Definition compute_full_walk_matrix (G : graph C) (nodes : list nat)
    (speed_mps : C) : res (ndarray C) :=
  let n := length nodes in
  for_each (enumerate nodes) (λ '(i, src) W,
    let lengths := single_source_dijkstra_path_length G src in
    for_each (enumerate nodes) (λ '(j, tgt) W,
      match lengths tgt with
      | Some dist_m =>
          secs ← py_div dist_m speed_mps;
          W ← setitem W i j secs;
          setitem W j i secs
      | None => Ok W
      end) W)
    (np_full n n cnan).

(** [compute_matrices_dijkstra(input_csv_path, output_dir, city, state,
    do_drive, do_walk)], on the number [n] of points with coordinates, the
    two networks and the nodes nearest to the points. *)
Definition compute_matrices_dijkstra (n : nat) (Gd Gw : graph C)
    (nodes_drive nodes_walk : list nat) (city state today : string)
    (do_drive do_walk : bool) : list (saved_file C) * res unit :=
  if n =? 0 then
    ([], Raise (ValueError "No valid coordinates found in input CSV."))
  else
    let drive_segment :=
      if do_drive then
        match compute_full_drive_matrix Gd nodes_drive with
        | Ok D =>
            ([SavedFile (city +:+ state +:+ "_drive_" +:+ today +:+ ".npy")
                (NpyFile D)], Ok ())
        | Raise e => ([], Raise e)
        end
      else ([], Ok ()) in
    match drive_segment with
    | (written, Raise e) => (written, Raise e)
    | (written, Ok _) =>
        if do_walk then
          match compute_full_walk_matrix Gw nodes_walk walk_speed with
          | Ok W =>
              ((written ++ [SavedFile (city +:+ state +:+ "_walk_" +:+ today +:+ ".npy")
                              (NpyFile W)])%list,
               Ok ())
          | Raise e => (written, Raise e)
          end
        else (written, Ok ())
    end.

(** ** compute_t_matrices_1.py: the batch

    A folder is the list of its files in the order the system lists them,
    each with what reading it gives: the table [pd.read_csv] returns for a
    file of the tract folder, the array [np.load] returns for a file of the
    travel folder.  File names are compared as a case-sensitive file system
    does.  The output folder is a third folder: what the batch writes there
    is returned as the list of the files written, in order, together with
    the travel files it reports as not found. *)

(** [for x in xs: body(x)] where a round has effects that stay when it
    raises: the rounds in order, up to the first exception. *)
Fixpoint for_each_io {X S} (xs : list X) (body : X → S → S * res unit) (s : S)
  : S * res unit :=
  match xs with
  | [] => (s, Ok ())
  | x :: xs' =>
      match body x s with
      | (s', Ok _) => for_each_io xs' body s'
      | (s', Raise e) => (s', Raise e)
      end
  end.

(** [s.replace(old, new)] for a non-empty [old]: the occurrences of [old]
    are replaced from left to right, without overlap.  [skip] counts the
    characters of an occurrence still to be passed over. *)
Fixpoint replace_from (old new : string) (skip : nat) (s : string) : string :=
  match s with
  | EmptyString => EmptyString
  | String c s' =>
      match skip with
      | S k => replace_from old new k s'
      | O =>
          if String.prefix old s
          then new +:+ replace_from old new (String.length old - 1) s'
          else String c (replace_from old new 0 s')
      end
  end.
Definition str_replace (s old new : string) : string := replace_from old new 0 s.

(** [s.endswith(suffix)] *)
Definition endswith (s suffix : string) : bool :=
  (String.length suffix <=? String.length s) &&
  String.eqb
    (String.substring (String.length s - String.length suffix)
       (String.length suffix) s)
    suffix.

(** [glob.glob(os.path.join(folder, '*_tract_data.csv'))]: the files whose
    name ends in [_tract_data.csv]; a name that starts with a dot is not
    matched by a pattern that starts with [*]. *)
Definition glob_tract_data {X} (folder : list (string * X)) : list (string * X) :=
  filter (λ f, endswith f.1 "_tract_data.csv" = true ∧
               String.prefix "." f.1 = false) folder.

(** [os.path.exists(os.path.join(folder, name))], and the content read. *)
Fixpoint folder_lookup {X} (name : string) (folder : list (string * X))
  : option X :=
  match folder with
  | [] => None
  | (name', x) :: folder' =>
      if decide (name' = name) then Some x else folder_lookup name folder'
  end.

(** The [travel_types] argument: a list of strings, or one string. *)
Inductive travel_types_arg :=
  | Types (travel_types : list string)
  | OneType (travel_type : string).

(** One round of the inner loop of [batch_process_all], on the files
    written and the travel files reported missing so far. *)
Definition batch_round (travel_folder : list (string * ndarray C))
    (csv_file : string * list (tract_row C)) (ttype : string)
    (log : list (saved_file C) * list string)
  : (list (saved_file C) * list string) * res unit :=
  let base_name := str_replace csv_file.1 "_tract_data.csv" "" in
  let travel_file := base_name +:+ "_" +:+ ttype +:+ ".npy" in
  match folder_lookup travel_file travel_folder with
  | Some travel_matrix =>
      let '(written, outcome) :=
        process_files ttype base_name csv_file.2 travel_matrix in
      ((log.1 ++ written, log.2)%list, outcome)
  | None => ((log.1, log.2 ++ [travel_file])%list, Ok ())
  end.

(** [batch_process_all(input_folder, travel_folder, output_folder,
    travel_types)] *)
Definition batch_process_all (input_folder : list (string * list (tract_row C)))
    (travel_folder : list (string * ndarray C)) (travel_types : travel_types_arg)
  : (list (saved_file C) * list string) * res unit :=
  let travel_types :=
    match travel_types with
    | OneType travel_type => [travel_type]
    | Types travel_types => travel_types
    end in
  let csv_files := glob_tract_data input_folder in
  for_each_io csv_files (λ csv_file log,
    for_each_io travel_types (λ ttype log,
      batch_round travel_folder csv_file ttype log) log)
    ([], []).

(** [date(year, month, day).isoformat()] *)
Definition digit (k : nat) : Ascii.ascii := Ascii.ascii_of_nat (48 + k mod 10).
Definition isoformat (year month day : nat) : string :=
  String (digit (year / 1000)) (String (digit (year / 100))
    (String (digit (year / 10)) (String (digit year)
      ("-" +:+ String (digit (month / 10)) (String (digit month)
        ("-" +:+ String (digit (day / 10)) (String (digit day) ""))))))).

(** ** Notions used to state the properties *)

(** The quotient [compute_dtilde_matrix] forms at a cell, from the two
    populations and the two directed costs. *)
Definition dtilde_formula (pi pj tij tji : C) : C :=
  (pi ⊗ tij ⊕ pj ⊗ tji) ⊘ (pi ⊕ pj).

(** The value a round of [compute_d_matrix] stores at (i, j), or the
    exception its reads raise. *)
Definition d_entry (dtilde_matrix : ndarray C) (populations : list C)
    (i j : nat) : res C :=
  popi ← getitem1 populations i;
  popj ← getitem1 populations j;
  if eq0 popi && eq0 popj then Ok czero
  else if eq0 popi then getitem dtilde_matrix j i
  else if eq0 popj then getitem dtilde_matrix i j
  else
    dij ← getitem dtilde_matrix i j;
    dji ← getitem dtilde_matrix j i;
    Ok ((popi ⊗ dij ⊕ popj ⊗ dji) ⊘ (popi ⊕ popj)).

(** What [compute_d_matrix] stores at a cell, from the two populations and
    the two cells of the first pass. *)
Definition d_formula (pi pj dij dji : C) : C :=
  if eq0 pi && eq0 pj then czero
  else if eq0 pi then dji
  else if eq0 pj then dij
  else (pi ⊗ dij ⊕ pj ⊗ dji) ⊘ (pi ⊕ pj).

(** [A[a, b]] and [A[b, a]] agree everywhere. *)
Definition symmetric (A : ndarray C) : Prop :=
  ∀ a b, cell A a b = cell A b a.

(** The walking time the pairwise strategy stores for the points a and b:
    one query, from the point of smaller index to the other one. *)
Definition walk_time_of (Gw : graph C) (nodes : list nat) (ab : nat * nat) : C :=
  default cnan (s ← nodes !! (ab.1 `min` ab.2);
                t ← nodes !! (ab.1 `max` ab.2);
                d ← Gw s t;
                Some (d ⊘ walk_speed)).

(** The four files [process_files] writes for the matrices [dtilde] and
    [d], in the order it writes them. *)
Definition saved_matrices (base_name travel_type : string) (ids : list string)
    (dtilde d : ndarray C) : list (saved_file C) :=
  [ SavedFile ((base_name +:+ "_" +:+ "dtilde" +:+ "_" +:+ travel_type) +:+ ".csv")
      (CsvFile (MkDataFrame ids ids dtilde));
    SavedFile ((base_name +:+ "_" +:+ "dtilde" +:+ "_" +:+ travel_type) +:+ ".npy")
      (NpyFile dtilde);
    SavedFile ((base_name +:+ "_" +:+ "d" +:+ "_" +:+ travel_type) +:+ ".csv")
      (CsvFile (MkDataFrame ids ids d));
    SavedFile ((base_name +:+ "_" +:+ "d" +:+ "_" +:+ travel_type) +:+ ".npy")
      (NpyFile d) ].

(** The [.npy] files among the files written, as a folder to read from. *)
Definition npy_files (written : list (saved_file C)) : list (string * ndarray C) :=
  omap (λ f, match content f with
             | NpyFile matrix => Some (file_name f, matrix)
             | CsvFile _ => None
             end) written.

(** Their names. *)
Definition output_names (base_name travel_type : string) : list string :=
  [ (base_name +:+ "_" +:+ "dtilde" +:+ "_" +:+ travel_type) +:+ ".csv";
    (base_name +:+ "_" +:+ "dtilde" +:+ "_" +:+ travel_type) +:+ ".npy";
    (base_name +:+ "_" +:+ "d" +:+ "_" +:+ travel_type) +:+ ".csv";
    (base_name +:+ "_" +:+ "d" +:+ "_" +:+ travel_type) +:+ ".npy" ].

(** The base name [batch_process_all] derives from the name of a tract
    file, and the name of the travel file it looks up for a travel type. *)
Definition base_name_of (csv_name : string) : string :=
  str_replace csv_name "_tract_data.csv" "".
Definition travel_file_of (csv_name ttype : string) : string :=
  base_name_of csv_name +:+ "_" +:+ ttype +:+ ".npy".

(** One leg on foot: the length of the shortest path from the node of
    point i to the node of point j, over the speed. *)
Definition walk_leg (G : graph C) (nodes : list nat) (speed_mps : C)
    (i j : nat) : option C :=
  s ← nodes !! i; t ← nodes !! j; d ← G s t; Some (d ⊘ speed_mps).

(** What [compute_full_walk_matrix] leaves in the cells (a, b) and (b, a):
    the leg from the point of larger index to the other one when there is
    a path, else the leg back, else [nan]. *)
Definition full_walk_cell (G : graph C) (nodes : list nat) (speed_mps : C)
    (a b : nat) : C :=
  default (default cnan (walk_leg G nodes speed_mps (a `min` b) (a `max` b)))
          (walk_leg G nodes speed_mps (a `max` b) (a `min` b)).

(** The loops of [compute_full_walk_matrix] part of the way: the content of
    the cell (a, b) after the first k rounds of the outer loop, and after
    the first m rounds of the inner loop of round i. *)
Definition walk_after_rows (G : graph C) (nodes : list nat) (speed_mps : C)
    (k a b : nat) : C :=
  if decide (a `max` b < k) then full_walk_cell G nodes speed_mps a b
  else if decide (a `min` b < k)
       then default cnan (walk_leg G nodes speed_mps (a `min` b) (a `max` b))
       else cnan.
Definition walk_after_cols (G : graph C) (nodes : list nat) (speed_mps : C)
    (i m a b : nat) : C :=
  let before := walk_after_rows G nodes speed_mps i a b in
  if decide (a = i ∧ b < m) then default before (walk_leg G nodes speed_mps i b)
  else if decide (b = i ∧ a < m) then default before (walk_leg G nodes speed_mps i a)
  else before.

(** Cells and arrays from literals. *)
Definition ofZ (z : Z) : C := literal (inject_Z z).
Definition array_of (rows : list (list C)) : ndarray C :=
  NdArray (length rows) (length (default [] (head rows))) rows.

End code.

(** ** The two models of the cells *)

(** *** IEEE-754 double precision *)

Definition binary64 : Type := spec_float.

Definition b64_of_Z (z : Z) : binary64 := binary_normalize 53 1024 z 0 false.

(** A decimal literal denotes the double nearest to it; for a fraction of
    two integers below 2^53 that is their correctly rounded quotient. *)
Definition b64_of_Q (q : Q) : binary64 :=
  SFdiv 53 1024 (b64_of_Z (Qnum q)) (b64_of_Z (Zpos (Qden q))).

#[global] Instance binary64_cell : Cell binary64 := {|
  czero := S754_zero false;
  cnan := S754_nan;
  cadd := SFadd 53 1024;
  cmul := SFmul 53 1024;
  cdiv := SFdiv 53 1024;
  isnan := λ x, match x with S754_nan => true | _ => false end;
  eq0 := λ x, match x with S754_zero _ => true | _ => false end;
  literal := b64_of_Q
|}.

(** The rational a double stands for; zeros stand for 0, and so do, by
    convention, the infinities and nan, which stand for no number. *)
Definition pow2 (e : Z) : Q := (2 ^ e)%Q.
Definition b64_value (x : binary64) : Q :=
  match x with
  | S754_finite s m e =>
      ((if s then - inject_Z (Zpos m) else inject_Z (Zpos m)) * pow2 e)%Q
  | _ => 0%Q
  end.

(** A positive double. *)
Definition pos_finite (x : binary64) : Prop :=
  match x with S754_finite false _ _ => True | _ => False end.

(** A double that is zero or positive. *)
Definition nonneg_finite (x : binary64) : Prop :=
  match x with
  | S754_zero _ | S754_finite false _ _ => True
  | _ => False
  end.

(** A positive double with all 53 bits of precision: the result of an
    operation that neither overflowed nor underflowed. *)
Definition pos_normal (x : binary64) : Prop :=
  match x with
  | S754_finite false m _ => digits2_pos m = 53%positive
  | _ => False
  end.



(** One unit in the last place of a normal double, relative to it
    ([2^-52]), and [x] within that distance of the double [r]. *)
Definition ulp53 : Q := (1 # 4503599627370496)%Q.
Definition rounds_to (r : binary64) (x : Q) : Prop :=
  (b64_value r * (1 - ulp53) <= x ∧ x <= b64_value r * (1 + ulp53))%Q.

(** [x] lies in the interval from [m + lo] to [m + hi] units of [2^e]. *)
Definition near (lo hi m e : Z) (x : Q) : Prop :=
  (inject_Z (m + lo) * pow2 e <= x ∧ x < inject_Z (m + hi) * pow2 e)%Q.

(** The result [r] of an operation whose exact value is [x] neither
    overflowed nor underflowed: it is a normal double, unless [x] is 0. *)
Definition fine (r : binary64) (x : Q) : Prop := pos_normal r ∨ (x == 0)%Q.

(** No step of the quotient
    [(pi * tij + pj * tji) / (pi + pj)] overflows or underflows, and the
    sum of the two populations is not 0. *)
Definition normal_steps (pi pj tij tji : binary64) : Prop :=
  fine (pi ⊗ tij) (b64_value pi * b64_value tij) ∧
  fine (pj ⊗ tji) (b64_value pj * b64_value tji) ∧
  fine (pi ⊗ tij ⊕ pj ⊗ tji) (b64_value (pi ⊗ tij) + b64_value (pj ⊗ tji)) ∧
  pos_normal (pi ⊕ pj) ∧
  fine ((pi ⊗ tij ⊕ pj ⊗ tji) ⊘ (pi ⊕ pj))
       (b64_value (pi ⊗ tij ⊕ pj ⊗ tji) / b64_value (pi ⊕ pj)).

(** What the specification writes: the average of two costs weighted by
    two populations, over the rationals. *)
Definition spec_weighted_mean (pi pj tij tji : Q) : Q :=
  ((pi * tij + pj * tji) / (pi + pj))%Q.

(** The relative error the four roundings of the quotient can add up to
    ([2^-49]). *)
Definition tolerance : Q := (1 # 562949953421312)%Q.

(** *** Exact arithmetic *)

Inductive xrat :=
  | Fin (q : Qc)
  | PInf
  | NInf
  | NaN.

(** An infinity of the sign of [s], [nan] for sign zero. *)
Definition inf_of_sign (s : comparison) : xrat :=
  match s with Gt => PInf | Lt => NInf | Eq => NaN end.

Definition sgn (q : Qc) : comparison := (q ?= Q2Qc 0)%Qc.

Definition xadd (x y : xrat) : xrat :=
  match x, y with
  | NaN, _ | _, NaN => NaN
  | PInf, NInf | NInf, PInf => NaN
  | PInf, _ | _, PInf => PInf
  | NInf, _ | _, NInf => NInf
  | Fin a, Fin b => Fin (a + b)%Qc
  end.

Definition xmul (x y : xrat) : xrat :=
  match x, y with
  | NaN, _ | _, NaN => NaN
  | PInf, PInf | NInf, NInf => PInf
  | PInf, NInf | NInf, PInf => NInf
  | PInf, Fin a | Fin a, PInf => inf_of_sign (sgn a)
  | NInf, Fin a | Fin a, NInf => inf_of_sign (CompOpp (sgn a))
  | Fin a, Fin b => Fin (a * b)%Qc
  end.

Definition xdiv (x y : xrat) : xrat :=
  match x, y with
  | NaN, _ | _, NaN => NaN
  | (PInf | NInf), (PInf | NInf) => NaN
  | Fin _, (PInf | NInf) => Fin (Q2Qc 0)
  | PInf, Fin b => match sgn b with Lt => NInf | _ => PInf end
  | NInf, Fin b => match sgn b with Lt => PInf | _ => NInf end
  | Fin a, Fin b =>
      if Qc_eq_dec b (Q2Qc 0) then inf_of_sign (sgn a) else Fin (a / b)%Qc
  end.

#[global] Instance xrat_cell : Cell xrat := {|
  czero := Fin (Q2Qc 0);
  cnan := NaN;
  cadd := xadd;
  cmul := xmul;
  cdiv := xdiv;
  isnan := λ x, match x with NaN => true | _ => false end;
  eq0 := λ x, match x with
              | Fin q => if Qc_eq_dec q (Q2Qc 0) then true else false
              | _ => false
              end;
  literal := λ q, Fin (Q2Qc q)
|}.

(** ** Decision procedures

    Equality of cells, arrays and outcomes and the shape condition are
    decidable, so that closed instances are settled by evaluation. *)

#[global] Instance Qc_eq_decision : EqDecision Qc := Qc_eq_dec.

#[global] Instance xrat_eq_dec : EqDecision xrat.
Proof. solve_decision. Defined.

#[global] Instance binary64_eq_dec : EqDecision binary64.
Proof. unfold binary64. solve_decision. Defined.

#[global] Instance exn_eq_dec : EqDecision exn.
Proof. solve_decision. Defined.

#[global] Instance res_eq_dec {A} `{EqDecision A} : EqDecision (res A).
Proof. solve_decision. Defined.

#[global] Instance ndarray_eq_dec {C} `{EqDecision C} : EqDecision (ndarray C).
Proof. solve_decision. Defined.

#[global] Instance DataFrame_eq_dec {C} `{EqDecision C} : EqDecision (DataFrame C).
Proof. solve_decision. Defined.

#[global] Instance file_content_eq_dec {C} `{EqDecision C} :
  EqDecision (file_content C).
Proof. solve_decision. Defined.

#[global] Instance saved_file_eq_dec {C} `{EqDecision C} : EqDecision (saved_file C).
Proof. solve_decision. Defined.

#[global] Instance tract_row_eq_dec {C} `{EqDecision C} : EqDecision (tract_row C).
Proof. solve_decision. Defined.

#[global] Instance wf_dec {C} (A : ndarray C) : Decision (wf A).
Proof. unfold wf. apply _. Defined.

(** ** Concrete inputs *)

Section inputs.
Context (C : Type) `{!Cell C}.

(** The scenario of the specification. *)
Definition T_ex : ndarray C :=
  array_of [ [ofZ 0; ofZ 4; ofZ 6]; [ofZ 5; ofZ 0; ofZ 3]; [ofZ 7; ofZ 2; ofZ 0] ].
Definition p_ex : list C := [ofZ 0; ofZ 10; ofZ 20].

(** The two matrices the passes give on [T_ex] and [p_ex]. *)
Definition dtilde_ex : ndarray C :=
  array_of [ [ofZ 0; ofZ 5; ofZ 7];
             [ofZ 5; ofZ 0; literal (7 # 3)];
             [ofZ 7; literal (7 # 3); ofZ 0] ].
Definition d_ex : ndarray C := dtilde_ex.

(** Two points with a nan cost from the first to the second. *)
Definition T_nan : ndarray C := array_of [ [ofZ 0; cnan]; [ofZ 5; ofZ 0] ].
Definition p_nan : list C := [ofZ 10; ofZ 20].

(** Populations of opposite sign (no census count is negative). *)
Definition T_two : ndarray C := array_of [ [ofZ 0; ofZ 1]; [ofZ 2; ofZ 0] ].
Definition p_signed : list C := [ofZ 1; ofZ (-1)].

(** Two points a tenth of a minute apart in both directions, with equal
    populations. *)
Definition T_tenth : ndarray C :=
  array_of [ [ofZ 0; literal (1 # 10)]; [literal (1 # 10); ofZ 0] ].
Definition p_three : list C := [ofZ 3; ofZ 3].

(** A single point a tenth of a minute from itself. *)
Definition T_self : ndarray C := array_of [ [literal (1 # 10)] ].
Definition p_self : list C := [ofZ 3].

(** Two populations whose sum exceeds the largest double. *)
Definition p_huge : list C := [ofZ (10 ^ 308); ofZ (10 ^ 308)].

(** A one-way street from node 0 to node 1, 60 seconds long: node 0 cannot
    be reached from node 1. *)
Definition G_oneway : graph C := λ s t,
  if s <=? t then Some (ofZ (60 * Z.of_nat (t - s))) else None.

(** Nodes on a line, 142 metres apart, walkable in both directions. *)
Definition G_line : graph C := λ s t,
  Some (ofZ (142 * Z.of_nat ((s - t) + (t - s)))).

Definition df_ex : list (tract_row C) :=
  [ TractRow "13121000100" (Some (ofZ 0));
    TractRow "13121000200" (Some (ofZ 10));
    TractRow "13121000300" (Some (ofZ 20)) ].

Definition df_short : list (tract_row C) :=
  [ TractRow "13121000100" (Some (ofZ 0));
    TractRow "13121000200" None ].

(** A tract folder with two cities, and a travel folder with the drive
    matrix of the first. *)
Definition tract_folder_ex : list (string * list (tract_row C)) :=
  [ ("AtlantaGA_tract_data.csv", df_ex);
    ("notes.txt", []);
    ("AustinTX_tract_data.csv", df_short) ].
Definition travel_folder_ex : list (string * ndarray C) :=
  [ ("AtlantaGA_drive.npy", T_ex) ].

(** A travel folder whose matrix for the first city has two rows. *)
Definition travel_folder_bad : list (string * ndarray C) :=
  [ ("AtlantaGA_drive.npy", T_two) ].

End inputs.
(** * Properties *)

(** Closed goals are settled by running their decision procedure. *)
Ltac by_compute := by apply (bool_decide_unpack _); vm_compute.

(** ** Loops *)

Section loops.
Context {X S : Type}.
Implicit Types (xs : list X) (body : X → S → res S) (s : S) (P : S → Prop).

Lemma for_each_app xs ys body s :
  for_each (xs ++ ys) body s = (s' ← for_each xs body s; for_each ys body s').
Proof.
  revert s. induction xs as [|x xs IH]; intros s; simpl; [done|].
  destruct (body x s) as [s1|e]; simpl; [apply IH|done].
Qed.

Lemma for_each_fmap {W} (f : W → X) (ws : list W) body s :
  for_each (f <$> ws) body s = for_each ws (λ w, body (f w)) s.
Proof.
  revert s. induction ws as [|w ws IH]; intros s; simpl; [done|].
  destruct (body (f w) s) as [s1|e]; simpl; [apply IH|done].
Qed.

Lemma for_each_ext xs body body' s :
  (∀ x s, x ∈ xs → body x s = body' x s) →
  for_each xs body s = for_each xs body' s.
Proof.
  revert s. induction xs as [|x xs IH]; intros s Hb; simpl; [done|].
  rewrite <- Hb by apply list_elem_of_here.
  destruct (body x s) as [s1|e]; simpl; [|done].
  apply IH. intros y t Hy. apply Hb. by apply list_elem_of_further.
Qed.

(** An invariant that every round keeps holds at the end, should the loop
    come to its end. *)
Lemma for_each_inv P xs body s s' :
  P s →
  (∀ x s s', x ∈ xs → P s → body x s = Ok s' → P s') →
  for_each xs body s = Ok s' → P s'.
Proof.
  revert s. induction xs as [|x xs IH]; intros s Hs Hb H; simpl in H.
  - by injection H as <-.
  - destruct (body x s) as [s1|e] eqn:Hx; simpl in H; [|done].
    apply (IH s1); [| |done].
    + eapply Hb; [apply list_elem_of_here|done..].
    + intros y t t' Hy. apply Hb. by apply list_elem_of_further.
Qed.

(** When every round succeeds under the invariant, so does the loop. *)
Lemma for_each_total P xs body s :
  P s →
  (∀ x s, x ∈ xs → P s → ∃ s', body x s = Ok s' ∧ P s') →
  ∃ s', for_each xs body s = Ok s' ∧ P s'.
Proof.
  revert s. induction xs as [|x xs IH]; intros s Hs Hb; simpl.
  - by exists s.
  - destruct (Hb x s) as (s1 & -> & Hs1); [apply list_elem_of_here|done|].
    simpl. apply IH; [done|]. intros y t Hy. apply Hb.
    by apply list_elem_of_further.
Qed.
End loops.

(** A loop inside a loop is one loop over the pairs. *)
Lemma for_each_nested {X Y S} (xs : list X) (inner : X → list Y)
    (body : X → Y → S → res S) s :
  for_each xs (λ x s, for_each (inner x) (body x) s) s
  = for_each (x ← xs; pair x <$> inner x) (λ xy, body xy.1 xy.2) s.
Proof.
  revert s. induction xs as [|x xs IH]; intros s; simpl; [done|].
  rewrite for_each_app, for_each_fmap; simpl.
  destruct (for_each (inner x) (body x) s) as [s1|e]; simpl; [apply IH|done].
Qed.

Lemma map_res_raise {A B} (f : A → res B) (xs : list A) (e : exn) x :
  x ∈ xs → f x = Raise e →
  (∀ y, y ∈ xs → (∃ b, f y = Ok b) ∨ f y = Raise e) →
  map_res f xs = Raise e.
Proof.
  induction xs as [|y xs IH]; intros Hx Hfx Hall; [by inv Hx|].
  simpl. destruct (Hall y) as [[b Hb]|Hr]; [apply list_elem_of_here| |];
    [|by rewrite Hr].
  rewrite Hb; simpl. apply elem_of_cons in Hx as [->|Hx]; [congruence|].
  rewrite IH; [done..|]. intros z Hz. apply Hall. by apply list_elem_of_further.
Qed.

Lemma map_res_Ok_lookup {A B} (f : A → res B) (xs : list A) (ys : list B) :
  map_res f xs = Ok ys →
  ∀ idx x, xs !! idx = Some x → ∃ y, ys !! idx = Some y ∧ f x = Ok y.
Proof.
  revert ys. induction xs as [|x0 xs IH]; intros ys H idx x Hx; [done|].
  simpl in H.
  destruct (f x0) as [y0|e] eqn:Hf; simpl in H; [|done].
  destruct (map_res f xs) as [ys'|e]; simpl in H; [|done].
  injection H as <-.
  destruct idx as [|idx]; simpl in *.
  - injection Hx as <-. by exists y0.
  - by apply IH.
Qed.

(** ** Enumerations *)

Lemma elem_of_enumerate {X} (xs : list X) i x :
  (i, x) ∈ enumerate xs ↔ xs !! i = Some x.
Proof.
  unfold enumerate. rewrite elem_of_lookup_imap. split.
  - by intros (i' & x' & [= -> ->] & H).
  - intros H. by exists i, x.
Qed.

Lemma elem_of_pairs_drive n i j :
  (i, j) ∈ pairs_drive n ↔ i < n ∧ j < n ∧ i ≠ j.
Proof.
  unfold pairs_drive. rewrite list_elem_of_bind. split.
  - intros (a & Hin & Ha). apply list_elem_of_bind in Hin as (b & Hin & Hb).
    apply elem_of_seq in Ha, Hb.
    destruct (decide (a ≠ b)); [|by apply elem_of_nil in Hin].
    apply list_elem_of_singleton in Hin as [= -> ->]. lia.
  - intros (Hi & Hj & Hne). exists i. split; [|apply elem_of_seq; lia].
    apply list_elem_of_bind. exists j. split; [|apply elem_of_seq; lia].
    rewrite decide_True by done. by apply list_elem_of_singleton.
Qed.

Lemma elem_of_pairs_walk n i j :
  (i, j) ∈ pairs_walk n ↔ i < j ∧ j < n.
Proof.
  unfold pairs_walk. rewrite list_elem_of_bind. split.
  - intros (a & Hin & Ha). apply list_elem_of_bind in Hin as (b & Hin & Hb).
    apply elem_of_seq in Ha, Hb.
    apply list_elem_of_singleton in Hin as [= -> ->]. lia.
  - intros (Hi & Hj). exists i. split; [|apply elem_of_seq; lia].
    apply list_elem_of_bind. exists j. split; [|apply elem_of_seq; lia].
    by apply list_elem_of_singleton.
Qed.

Lemma getitem1_ok {X} (xs : list X) i x : xs !! i = Some x → getitem1 xs i = Ok x.
Proof. intros H. unfold getitem1. by rewrite H. Qed.

Lemma elem_of_grid n a b :
  (a, b) ∈ (i ← seq 0 n; pair i <$> seq 0 n) ↔ a < n ∧ b < n.
Proof.
  rewrite list_elem_of_bind. split.
  - intros (i & Hab & Hi). apply list_elem_of_fmap in Hab as (j & [= -> ->] & Hj).
    apply elem_of_seq in Hi, Hj. lia.
  - intros [Ha Hb]. exists a. split.
    + apply list_elem_of_fmap. exists b. split; [done|]. apply elem_of_seq. lia.
    + apply elem_of_seq. lia.
Qed.

(** ** Arrays

    Nothing in this section depends on the arithmetic of the cells. *)

Section arrays.
Context {C : Type} `{!Cell C}.
Implicit Types (A T D Dt : ndarray C) (p : list C).

Lemma cell_tabulate r c (f : nat → nat → C) i j :
  i < r → j < c → cell (tabulate r c f) i j = Some (f i j).
Proof.
  intros Hi Hj. unfold cell, tabulate; simpl.
  rewrite list_lookup_fmap, lookup_seq_lt by done; simpl.
  by rewrite list_lookup_fmap, lookup_seq_lt.
Qed.

Lemma peek_tabulate r c (f : nat → nat → C) i j :
  i < r → j < c → peek (tabulate r c f) i j = f i j.
Proof. intros. unfold peek. by rewrite cell_tabulate. Qed.

Lemma wf_tabulate r c (f : nat → nat → C) : wf (tabulate r c f).
Proof.
  split; simpl.
  - by rewrite length_fmap, length_seq.
  - apply Forall_fmap, Forall_forall. intros i _. simpl.
    by rewrite length_fmap, length_seq.
Qed.

Lemma cell_lt A i j x :
  wf A → cell A i j = Some x → i < shape0 A ∧ j < shape1 A.
Proof.
  intros [Hr Hc] H. unfold cell in H.
  destruct (data A !! i) as [row|] eqn:Hrow; simpl in H; [|done].
  split.
  - rewrite <- Hr. by eapply lookup_lt_Some.
  - rewrite Forall_lookup in Hc. rewrite <- (Hc _ _ Hrow).
    by eapply lookup_lt_Some.
Qed.

Lemma cell_is_Some A i j :
  wf A → i < shape0 A → j < shape1 A → cell A i j = Some (peek A i j).
Proof.
  intros [Hr Hc] Hi Hj. unfold peek, cell.
  destruct (lookup_lt_is_Some_2 (data A) i) as [row Hrow]; [lia|].
  rewrite Hrow; simpl.
  rewrite Forall_lookup in Hc. specialize (Hc _ _ Hrow).
  destruct (lookup_lt_is_Some_2 row j) as [x Hx]; [lia|].
  by rewrite Hx.
Qed.

Lemma peek_cell A i j x : cell A i j = Some x → peek A i j = x.
Proof. intros H. unfold peek. by rewrite H. Qed.

Lemma peek_reshape_col p i x : p !! i = Some x → peek (reshape_col p) i 0 = x.
Proof.
  intros H. unfold peek, cell, reshape_col; simpl.
  by rewrite list_lookup_fmap, H.
Qed.

Lemma peek_reshape_row p j x : p !! j = Some x → peek (reshape_row p) 0 j = x.
Proof. intros H. unfold peek, cell, reshape_row; simpl. by rewrite H. Qed.

Lemma cell_nan_to_zero A i j :
  cell (nan_to_zero A) i j = unnan <$> cell A i j.
Proof.
  unfold cell, nan_to_zero; simpl. rewrite list_lookup_fmap.
  destruct (data A !! i) as [row|]; simpl; [|done].
  by rewrite list_lookup_fmap.
Qed.

Lemma wf_nan_to_zero A : wf A → wf (nan_to_zero A).
Proof.
  intros [Hr Hc]. split; simpl.
  - by rewrite length_fmap.
  - apply Forall_fmap. eapply Forall_impl; [exact Hc|].
    intros r Hlen; simpl. by rewrite length_fmap.
Qed.

(** *** Broadcasting *)

Lemma bdim_same n : bdim n n = Ok n.
Proof. unfold bdim. by rewrite Nat.eqb_refl. Qed.

Lemma bdim_one_l n : bdim 1 n = Ok n.
Proof. unfold bdim. destruct (Nat.eqb_spec 1 n); by subst. Qed.

Lemma bdim_one_r n : bdim n 1 = Ok n.
Proof. unfold bdim. by destruct (Nat.eqb_spec n 1). Qed.

Lemma bidx_lt n i : i < n → bidx n i = i.
Proof. unfold bidx. destruct (Nat.eqb_spec n 1); lia. Qed.

Lemma bidx_one i : bidx 1 i = 0.
Proof. done. Qed.

Lemma wf_np_full r c (x : C) : wf (np_full r c x).
Proof.
  split; simpl.
  - by rewrite length_replicate.
  - apply Forall_replicate. by rewrite length_replicate.
Qed.

Lemma cell_np_full r c (x : C) i j : i < r → j < c → cell (np_full r c x) i j = Some x.
Proof.
  intros Hi Hj. unfold cell, np_full; simpl.
  rewrite lookup_replicate_2 by done; simpl. by rewrite lookup_replicate_2.
Qed.

(** *** Writing a cell *)

Lemma setitem_ok A i j x :
  i < shape0 A → j < shape1 A → ∃ A', setitem A i j x = Ok A'.
Proof.
  intros Hi Hj. unfold setitem.
  destruct (Nat.ltb_spec i (shape0 A)); [|lia].
  destruct (Nat.ltb_spec j (shape1 A)); [|lia].
  by eexists.
Qed.

Lemma setitem_spec A i j x A' :
  wf A → setitem A i j x = Ok A' →
  wf A' ∧ shape0 A' = shape0 A ∧ shape1 A' = shape1 A ∧
  ∀ a b, cell A' a b = if decide (a = i ∧ b = j) then Some x else cell A a b.
Proof.
  intros [Hr Hc] H. unfold setitem in H.
  destruct (Nat.ltb_spec i (shape0 A)) as [Hi|]; [|done].
  destruct (Nat.ltb_spec j (shape1 A)) as [Hj|]; [|done].
  simpl in H. injection H as <-.
  split; [|split; [done|split; [done|]]].
  - split; simpl.
    + by rewrite length_alter.
    + apply Forall_alter; [done|]. intros row _ Hlen.
      by rewrite length_insert.
  - intros a b. unfold cell; simpl. rewrite list_lookup_alter.
    destruct (decide (i = a)) as [<-|Hne].
    + destruct (lookup_lt_is_Some_2 (data A) i) as [row Hrow]; [lia|].
      rewrite Hrow; simpl. rewrite list_lookup_insert.
      rewrite Forall_lookup in Hc. specialize (Hc _ _ Hrow).
      destruct (decide (j = b)) as [<-|Hjb].
      * rewrite decide_True by (split; [done|lia]). by rewrite decide_True.
      * rewrite decide_False by (by intros [? _]).
        by rewrite decide_False by (by intros [_ ?]).
    + by rewrite decide_False by (intros [? _]; congruence).
Qed.

(** A loop that stores at each position a value that depends on the
    position alone leaves that value in every cell it visits and the other
    cells as they were. *)
Lemma write_loop_spec {X} (pos : X → nat * nat) (val : X → res C)
    (f : nat * nat → C) (xs : list X) (A : ndarray C) :
  wf A →
  (∀ x, x ∈ xs →
     (pos x).1 < shape0 A ∧ (pos x).2 < shape1 A ∧ val x = Ok (f (pos x))) →
  ∃ A',
    for_each xs (λ x A, v ← val x; setitem A (pos x).1 (pos x).2 v) A = Ok A' ∧
    wf A' ∧ shape0 A' = shape0 A ∧ shape1 A' = shape1 A ∧
    ∀ a b, cell A' a b
           = if decide ((a, b) ∈ pos <$> xs) then Some (f (a, b)) else cell A a b.
Proof.
  revert A. induction xs as [|x xs IH]; intros A HA Hxs; cbn [for_each].
  - exists A. do 4 (split; [done|]). intros a b.
    case_decide as Hin; [by apply elem_of_nil in Hin|done].
  - destruct (Hxs x) as (Hi & Hj & ->); [apply list_elem_of_here|]. simpl.
    destruct (setitem_ok A _ _ (f (pos x)) Hi Hj) as [A1 HA1].
    rewrite HA1; simpl.
    destruct (setitem_spec _ _ _ _ _ HA HA1) as (Hwf1 & Hs0 & Hs1 & Hcell1).
    destruct (IH A1 Hwf1) as (A' & -> & Hwf' & Hs0' & Hs1' & Hcell').
    { intros y Hy. rewrite Hs0, Hs1. apply Hxs. by apply list_elem_of_further. }
    exists A'. split; [done|]. split; [done|].
    split; [congruence|]. split; [congruence|].
    intros a b. rewrite Hcell', Hcell1.
    change (list_fmap _ _ pos xs) with (pos <$> xs).
    destruct (decide ((a, b) ∈ pos <$> xs)) as [Hin|Hnin].
    { rewrite decide_True; [done|]. by apply list_elem_of_further. }
    destruct (decide (a = (pos x).1 ∧ b = (pos x).2)) as [[-> ->]|Hne].
    + rewrite <- surjective_pairing.
      rewrite decide_True; [done|]. apply list_elem_of_here.
    + rewrite decide_False; [done|].
      intros [Heq|Hin]%elem_of_cons; [|done].
      apply Hne. by rewrite <- Heq.
Qed.

(** A loop whose rounds store one value at two positions is a loop of
    single stores. *)
Lemma for_each_two_writes {X} (val : X → res C) (p1 p2 : X → nat * nat)
    (xs : list X) (A : ndarray C) :
  for_each xs (λ x A,
    v ← val x; A ← setitem A (p1 x).1 (p1 x).2 v; setitem A (p2 x).1 (p2 x).2 v) A
  = for_each (x ← xs; [(x, p1 x); (x, p2 x)])
      (λ xp A, v ← val xp.1; setitem A xp.2.1 xp.2.2 v) A.
Proof.
  revert A. induction xs as [|x xs IH]; intros A; [done|].
  rewrite bind_cons, for_each_app. cbn [for_each]. simpl.
  destruct (val x) as [v|e]; simpl; [|done].
  destruct (setitem A (p1 x).1 (p1 x).2 v) as [A1|e]; simpl; [|done].
  destruct (setitem A1 (p2 x).1 (p2 x).2 v) as [A2|e]; simpl; [|done].
  apply IH.
Qed.

Lemma cell_np_full_square n (x : C) a b :
  cell (np_full n n x) a b = if decide (a < n ∧ b < n) then Some x else None.
Proof.
  case_decide as H.
  - destruct H. by apply cell_np_full.
  - unfold cell, np_full; simpl.
    destruct (decide (a < n)) as [Ha|Ha].
    + rewrite lookup_replicate_2 by done; simpl.
      apply lookup_replicate_None. lia.
    + assert (replicate n (replicate n x) !! a = None) as ->; [|done].
      apply lookup_replicate_None. lia.
Qed.

Lemma symmetric_np_full n (x : C) : symmetric (np_full n n x).
Proof.
  intros a b. rewrite !cell_np_full_square.
  destruct (decide (a < n ∧ b < n)), (decide (b < n ∧ a < n)); try done; lia.
Qed.

(** Writing one value at (i, j) and at (j, i) keeps a matrix symmetric. *)
Lemma mirrored_write A i j x A1 A2 :
  wf A → symmetric A →
  setitem A i j x = Ok A1 → setitem A1 j i x = Ok A2 →
  wf A2 ∧ shape0 A2 = shape0 A ∧ shape1 A2 = shape1 A ∧ symmetric A2.
Proof.
  intros HA Hsym H1 H2.
  destruct (setitem_spec _ _ _ _ _ HA H1) as (Hwf1 & Hs0 & Hs1 & Hc1).
  destruct (setitem_spec _ _ _ _ _ Hwf1 H2) as (Hwf2 & Hs0' & Hs1' & Hc2).
  split; [done|]. split; [congruence|]. split; [congruence|].
  intros a b. rewrite !Hc2, !Hc1, (Hsym a b).
  destruct (decide (a = j ∧ b = i)) as [[-> ->]|Hn1].
  - destruct (decide (i = j ∧ j = i)) as [_|Hn2]; [done|].
    by rewrite decide_True.
  - destruct (decide (a = i ∧ b = j)) as [[-> ->]|Hn2].
    + by rewrite decide_True.
    + rewrite decide_False by (intros [-> ->]; by apply Hn2).
      by rewrite decide_False by (intros [-> ->]; by apply Hn1).
Qed.

(** *** The first pass on a square matrix *)

Lemma compute_dtilde_matrix_ok T p n :
  wf T → shape0 T = n → shape1 T = n → length p = n →
  ∃ D, compute_dtilde_matrix T p = Ok D ∧ wf D ∧
       shape0 D = n ∧ shape1 D = n ∧
       ∀ i j pi pj tij tji,
         p !! i = Some pi → p !! j = Some pj →
         cell T i j = Some tij → cell T j i = Some tji →
         cell D i j = Some (unnan (dtilde_formula pi pj tij tji)).
Proof.
  intros HT H0 H1 Hp.
  unfold compute_dtilde_matrix, np_mul, np_add, np_div, broadcast; simpl.
  rewrite H0, H1, Hp.
  repeat (rewrite ?bdim_same, ?bdim_one_l, ?bdim_one_r; simpl).
  eexists; split; [reflexivity|].
  split; [apply wf_nan_to_zero, wf_tabulate|].
  split; [done|]. split; [done|].
  intros i j pi pj tij tji Hpi Hpj Hij Hji.
  assert (i < n) as Hi by (rewrite <- Hp; by eapply lookup_lt_Some).
  assert (j < n) as Hj by (rewrite <- Hp; by eapply lookup_lt_Some).
  rewrite cell_nan_to_zero, cell_tabulate by done; simpl.
  repeat (rewrite ?(bidx_lt n i), ?(bidx_lt n j), ?bidx_one by done;
          rewrite ?peek_tabulate by done).
  rewrite (peek_reshape_col _ _ _ Hpi), (peek_reshape_row _ _ _ Hpj).
  rewrite (peek_cell _ _ _ _ Hij).
  unfold transpose. rewrite peek_tabulate by (rewrite ?H0, ?H1; done).
  rewrite (peek_cell _ _ _ _ Hji).
  done.
Qed.

(** Every cell of a square matrix and of a vector of its size can be read. *)
Lemma square_reads T p n i j :
  wf T → shape0 T = n → shape1 T = n → length p = n → i < n → j < n →
  ∃ pi pj tij tji,
    p !! i = Some pi ∧ p !! j = Some pj ∧
    cell T i j = Some tij ∧ cell T j i = Some tji.
Proof.
  intros HT H0 H1 Hp Hi Hj.
  destruct (lookup_lt_is_Some_2 p i) as [pi Hpi]; [lia|].
  destruct (lookup_lt_is_Some_2 p j) as [pj Hpj]; [lia|].
  exists pi, pj, (peek T i j), (peek T j i).
  repeat split; try done; apply cell_is_Some; try done; lia.
Qed.

(** Closed goals are settled by running their decision procedure. *)
(** *** The second pass *)

Lemma d_entry_ok Dt p i j pi pj dij dji :
  p !! i = Some pi → p !! j = Some pj →
  cell Dt i j = Some dij → cell Dt j i = Some dji →
  d_entry Dt p i j = Ok (d_formula pi pj dij dji).
Proof.
  intros Hpi Hpj Hij Hji. unfold d_entry, d_formula, getitem1, getitem.
  rewrite Hpi, Hpj, Hij, Hji; simpl.
  by destruct (eq0 pi), (eq0 pj).
Qed.

(** A round of the double loop reads, then stores. *)
Lemma d_round Dt p i j (d : ndarray C) :
  (popi ← getitem1 p i;
   popj ← getitem1 p j;
   if eq0 popi && eq0 popj then
     setitem d i j czero
   else if eq0 popi then
     x ← getitem Dt j i;
     setitem d i j x
   else if eq0 popj then
     x ← getitem Dt i j;
     setitem d i j x
   else
     dij ← getitem Dt i j;
     dji ← getitem Dt j i;
     setitem d i j ((popi ⊗ dij ⊕ popj ⊗ dji) ⊘ (popi ⊕ popj)))
  = (x ← d_entry Dt p i j; setitem d i j x).
Proof.
  unfold d_entry.
  destruct (getitem1 p i) as [popi|]; [|done].
  destruct (getitem1 p j) as [popj|]; [|done].
  cbn [mbind res_bind].
  destruct (eq0 popi), (eq0 popj); cbn [andb]; try done.
  destruct (getitem Dt i j) as [dij|]; [|done].
  by destruct (getitem Dt j i) as [dji|].
Qed.

Lemma compute_d_matrix_ok Dt p n :
  wf Dt → shape0 Dt = n → shape1 Dt = n → length p = n →
  ∃ D, compute_d_matrix Dt p = Ok D ∧ wf D ∧
       shape0 D = n ∧ shape1 D = n ∧
       ∀ i j pi pj dij dji,
         p !! i = Some pi → p !! j = Some pj →
         cell Dt i j = Some dij → cell Dt j i = Some dji →
         cell D i j = Some (d_formula pi pj dij dji).
Proof.
  intros HDt H0 H1 Hp. unfold compute_d_matrix. rewrite Hp.
  rewrite (for_each_ext _ _
    (λ i d_matrix, for_each (seq 0 n)
       (λ j d_matrix, x ← d_entry Dt p i j; setitem d_matrix i j x) d_matrix)).
  2:{ intros i d _. apply for_each_ext. intros j d' _. apply d_round. }
  rewrite (for_each_nested (seq 0 n) (λ _, seq 0 n)
             (λ i j d_matrix,
                x ← d_entry Dt p i j; setitem d_matrix i j x)).
  destruct (write_loop_spec (λ ij, ij) (λ ij, d_entry Dt p ij.1 ij.2)
              (λ ij, d_formula (default cnan (p !! ij.1)) (default cnan (p !! ij.2))
                       (peek Dt ij.1 ij.2) (peek Dt ij.2 ij.1))
              (i ← seq 0 n; pair i <$> seq 0 n) (np_zeros n n))
    as (D & HD & Hwf & Hs0 & Hs1 & Hcell).
  { apply wf_np_full. }
  { intros [a b] [Ha Hb]%elem_of_grid; simpl.
    destruct (square_reads Dt p n a b) as (pa & pb & dab & dba & ? & ? & ? & ?);
      try done.
    do 2 (split; [done|]).
    erewrite d_entry_ok by done.
    by repeat (erewrite peek_cell by done); simplify_option_eq. }
  exists D. split; [exact HD|]. do 3 (split; [done|]).
  intros i j pi pj dij dji Hpi Hpj Hij Hji.
  rewrite Hcell, list_fmap_id.
  rewrite decide_True; simpl.
  - by rewrite Hpi, Hpj, (peek_cell _ _ _ _ Hij), (peek_cell _ _ _ _ Hji).
  - apply elem_of_grid. rewrite <- Hp.
    split; by eapply lookup_lt_Some.
Qed.

(** *** One traversal per source: the drive matrix *)

Lemma compute_full_drive_matrix_ok (G : graph C) (nodes : list nat) :
  ∃ D, compute_full_drive_matrix G nodes = Ok D ∧ wf D ∧
       shape0 D = length nodes ∧ shape1 D = length nodes ∧
       ∀ i j src tgt,
         nodes !! i = Some src → nodes !! j = Some tgt →
         cell D i j = Some (default cnan (G src tgt)).
Proof.
  unfold compute_full_drive_matrix, single_source_dijkstra_path_length.
  set (n := length nodes).
  rewrite (for_each_ext _ _
    (λ x D, for_each (enumerate nodes)
              (λ y D, v ← Ok (default cnan (G x.2 y.2)); setitem D x.1 y.1 v) D)).
  2:{ intros [i src] D _. apply for_each_ext. by intros [j tgt] D' _. }
  rewrite (for_each_nested (enumerate nodes) (λ _, enumerate nodes)
    (λ x y D, v ← Ok (default cnan (G x.2 y.2)); setitem D x.1 y.1 v)).
  destruct (write_loop_spec
              (λ xy : (nat * nat) * (nat * nat), (xy.1.1, xy.2.1))
              (λ xy, Ok (default cnan (G xy.1.2 xy.2.2)))
              (λ ab, default cnan
                       (src ← nodes !! ab.1; tgt ← nodes !! ab.2; G src tgt))
              (x ← enumerate nodes; pair x <$> enumerate nodes)
              (np_full n n cnan))
    as (D & HD & Hwf & Hs0 & Hs1 & Hcell).
  { apply wf_np_full. }
  { intros [[i src] [j tgt]] Hin; simpl.
    apply list_elem_of_bind in Hin as (x & Hin & Hx).
    apply list_elem_of_fmap in Hin as (y & [= <- <-] & Hy).
    apply elem_of_enumerate in Hx, Hy.
    split; [by eapply lookup_lt_Some|]. split; [by eapply lookup_lt_Some|].
    by rewrite Hx, Hy. }
  exists D. split; [exact HD|]. do 3 (split; [done|]).
  intros i j src tgt Hi Hj. rewrite Hcell. rewrite decide_True; simpl.
  - by rewrite Hi, Hj.
  - apply list_elem_of_fmap. exists ((i, src), (j, tgt)). split; [done|].
    apply list_elem_of_bind. exists (i, src).
    split; [|by apply elem_of_enumerate].
    apply list_elem_of_fmap. exists (j, tgt).
    split; [done|by apply elem_of_enumerate].
Qed.

(** C7, the per-source half: a cell whose target cannot be reached from its
    source holds [nan] in the matrix of [compute_full_drive_matrix]. *)
Lemma compute_full_drive_matrix_unreachable (G : graph C) (nodes : list nat)
    i j src tgt :
  nodes !! i = Some src → nodes !! j = Some tgt → G src tgt = None →
  ∃ D, compute_full_drive_matrix G nodes = Ok D ∧ cell D i j = Some cnan.
Proof.
  intros Hi Hj Hno.
  destruct (compute_full_drive_matrix_ok G nodes) as (D & HD & _ & _ & _ & Hcell).
  exists D. split; [done|]. by rewrite (Hcell _ _ _ _ Hi Hj), Hno.
Qed.

(** *** One query per pair: the drive matrix *)

Lemma drive_time_outcome (Gd : graph C) (nodes : list nat) i j :
  (i, j) ∈ pairs_drive (length nodes) →
  (∃ d, _drive_time Gd nodes (i, j) = Ok d) ∨
  _drive_time Gd nodes (i, j) = Raise NetworkXNoPath.
Proof.
  intros (Hi & Hj & _)%elem_of_pairs_drive.
  destruct (lookup_lt_is_Some_2 nodes i Hi) as [s Hs].
  destruct (lookup_lt_is_Some_2 nodes j Hj) as [t Ht].
  unfold _drive_time. rewrite (getitem1_ok _ _ _ Hs), (getitem1_ok _ _ _ Ht); simpl.
  unfold shortest_path_length. destruct (Gd s t); eauto.
Qed.

(** One unreachable pair and the whole call raises: no matrix. *)
Lemma compute_matrices_drive_unreachable (Gd : graph C) (nodes : list nat)
    i j src tgt :
  nodes !! i = Some src → nodes !! j = Some tgt → i ≠ j →
  Gd src tgt = None →
  compute_matrices_drive Gd nodes = Raise NetworkXNoPath.
Proof.
  intros Hi Hj Hne Hno. unfold compute_matrices_drive.
  rewrite (map_res_raise _ _ NetworkXNoPath (i, j)); [done| | |].
  - apply elem_of_pairs_drive.
    split; [by eapply lookup_lt_Some|]. split; [by eapply lookup_lt_Some|done].
  - unfold _drive_time. rewrite (getitem1_ok _ _ _ Hi), (getitem1_ok _ _ _ Hj); simpl.
    unfold shortest_path_length. by rewrite Hno.
  - intros [a b] Hab. by apply drive_time_outcome.
Qed.

(** The call itself then saves nothing. *)
Lemma compute_matrices_aborts (Gd Gw : graph C) (nodes_drive nodes_walk : list nat)
    (city state today : string) (do_walk : bool) i j src tgt :
  nodes_drive !! i = Some src → nodes_drive !! j = Some tgt → i ≠ j →
  Gd src tgt = None →
  compute_matrices Gd Gw nodes_drive nodes_walk city state today true do_walk
  = ([], Raise NetworkXNoPath).
Proof.
  intros Hi Hj Hne Hno. unfold compute_matrices.
  by rewrite (compute_matrices_drive_unreachable Gd nodes_drive i j src tgt).
Qed.

End arrays.

(** ** What the laws of the arithmetic give *)

Section laws.
Context {C : Type} `{!Cell C} `{!CellLaws C}.
Implicit Types (T : ndarray C) (p : list C).


Lemma unnan_id (x : C) : isnan x = false → unnan x = x.
Proof. intros Hx. unfold unnan. by rewrite Hx. Qed.

Lemma unnan_nan (x : C) : isnan x = true → unnan x = czero.
Proof. intros Hx. unfold unnan. by rewrite Hx. Qed.

Lemma dtilde_formula_sym (pi pj tij tji : C) :
  dtilde_formula pi pj tij tji = dtilde_formula pj pi tji tij.
Proof.
  unfold dtilde_formula.
  by rewrite (cadd_comm (pi ⊗ tij)), (cadd_comm pi).
Qed.

(** Both populations zero: the quotient is [nan] whatever the two costs
    are, and the mask turns it into 0. *)
Lemma dtilde_formula_zero_pop (z z' tij tji : C) :
  eq0 z = true → eq0 z' = true →
  unnan (dtilde_formula z z' tij tji) = czero.
Proof. intros Hz Hz'. by apply unnan_nan, zero_over_zero. Qed.


Lemma d_formula_sym (pi pj dij dji : C) :
  d_formula pi pj dij dji = d_formula pj pi dji dij.
Proof.
  unfold d_formula. destruct (eq0 pi), (eq0 pj); simpl; try done.
  by rewrite (cadd_comm (pi ⊗ dij)), (cadd_comm pi).
Qed.

Lemma d_formula_zero_l (z pj dij dji : C) :
  eq0 z = true →
  d_formula z pj dij dji = if eq0 pj then czero else dji.
Proof. intros Hz. unfold d_formula. rewrite Hz. by destruct (eq0 pj). Qed.

(** *** The two passes together *)

(** Both passes on a square matrix. *)
Lemma two_passes_ok T p n :
  wf T → shape0 T = n → shape1 T = n → length p = n →
  ∃ dtilde d,
    compute_dtilde_matrix T p = Ok dtilde ∧
    compute_d_matrix dtilde p = Ok d ∧
    ∀ i j pi pj tij tji,
      p !! i = Some pi → p !! j = Some pj →
      cell T i j = Some tij → cell T j i = Some tji →
      let x := unnan (dtilde_formula pi pj tij tji) in
      cell dtilde i j = Some x ∧ cell dtilde j i = Some x ∧
      cell d i j = Some (d_formula pi pj x x).
Proof.
  intros HT H0 H1 Hp.
  destruct (compute_dtilde_matrix_ok T p n HT H0 H1 Hp)
    as (dtilde & Hrun1 & Hwf & Hs0 & Hs1 & Hcell1).
  destruct (compute_d_matrix_ok dtilde p n Hwf Hs0 Hs1 Hp)
    as (d & Hrun2 & _ & _ & _ & Hcell2).
  exists dtilde, d. do 2 (split; [done|]).
  intros i j pi pj tij tji Hpi Hpj Hij Hji x.
  pose proof (Hcell1 _ _ _ _ _ _ Hpi Hpj Hij Hji) as Hx.
  pose proof (Hcell1 _ _ _ _ _ _ Hpj Hpi Hji Hij) as Hy.
  rewrite <- dtilde_formula_sym in Hy.
  do 2 (split; [done|]).
  by apply Hcell2.
Qed.

End laws.

(** ** The walk matrices *)

Section walk.
Context {C : Type} `{!Cell C} `{!CellLaws C}.
Variables (Gw : graph C) (nodes : list nat).

(** One query per pair: whatever matrix comes out is symmetric. *)
Lemma compute_matrices_walk_symmetric (W : ndarray C) :
  compute_matrices_walk Gw nodes = Ok W → wf W ∧ symmetric W.
Proof.
  unfold compute_matrices_walk. intros H.
  destruct (map_res _ _) as [walk_results|e]; simpl in H; [|done].
  revert H. apply (for_each_inv (λ W : ndarray C, wf W ∧ symmetric W)).
  - split; [apply wf_np_full|apply symmetric_np_full].
  - intros [idx [i j]] A A' _ [HA Hsym] Hbody.
    destruct (getitem1 walk_results idx) as [x|e]; simpl in Hbody; [|done].
    destruct (setitem A i j x) as [A1|e] eqn:H1; simpl in Hbody; [|done].
    destruct (mirrored_write _ _ _ _ _ _ HA Hsym H1 Hbody) as (? & _ & _ & ?).
    done.
Qed.

Lemma walk_time_inv i j (y : C) :
  _walk_time Gw nodes (i, j) = Ok y →
  ∃ s t d, nodes !! i = Some s ∧ nodes !! j = Some t ∧ Gw s t = Some d ∧
           y = d ⊘ walk_speed.
Proof.
  unfold _walk_time, getitem1, shortest_path_length, py_div.
  destruct (nodes !! i) as [s|]; cbn [mbind res_bind]; [|done].
  destruct (nodes !! j) as [t|]; cbn [mbind res_bind]; [|done].
  destruct (Gw s t) as [d|] eqn:Hd; cbn [mbind res_bind]; [|done]. unfold walk_speed at 1. rewrite eq0_walk_speed.
  intros [= <-]. by exists s, t, d.
Qed.

(** For i < j the cells (i, j) and (j, i) both hold the result of the one
    query for the pair. *)
Lemma compute_matrices_walk_cells (W : ndarray C) :
  compute_matrices_walk Gw nodes = Ok W →
  ∀ i j s t, i < j → nodes !! i = Some s → nodes !! j = Some t →
    ∃ d, Gw s t = Some d ∧
         cell W i j = Some (d ⊘ walk_speed) ∧
         cell W j i = Some (d ⊘ walk_speed).
Proof.
  unfold compute_matrices_walk. set (n := length nodes). intros H.
  destruct (map_res _ _) as [walk_results|e] eqn:Hres; simpl in H; [|done].
  pose proof (map_res_Ok_lookup _ _ _ Hres) as Hlook.
  rewrite (for_each_ext _ _
    (λ x W, v ← getitem1 walk_results x.1;
            W ← setitem W (x.2.1, x.2.2).1 (x.2.1, x.2.2).2 v;
            setitem W (x.2.2, x.2.1).1 (x.2.2, x.2.1).2 v)) in H.
  2:{ by intros [idx [i j]] A _. }
  rewrite (for_each_two_writes (λ x, getitem1 walk_results x.1)
             (λ x, (x.2.1, x.2.2)) (λ x, (x.2.2, x.2.1))) in H.
  destruct (write_loop_spec
              (λ xp : (nat * (nat * nat)) * (nat * nat), xp.2)
              (λ xp, getitem1 walk_results xp.1.1)
              (walk_time_of Gw nodes)
              (x ← enumerate (pairs_walk n);
               [(x, (x.2.1, x.2.2)); (x, (x.2.2, x.2.1))])
              (np_zeros n n))
    as (W' & HW' & _ & _ & _ & Hcell).
  { apply wf_np_full. }
  { intros [[idx [i j]] [a b]] Hin.
    apply list_elem_of_bind in Hin as ([idx' [i' j']] & Hin & Hx).
    apply elem_of_enumerate in Hx.
    destruct (Hlook _ _ Hx) as (y & Hy & Hwt).
    apply walk_time_inv in Hwt as (s & t & d & Hs & Ht & Hd & ->).
    apply list_elem_of_lookup_2, elem_of_pairs_walk in Hx as [Hlt Hjn].
    assert (walk_time_of Gw nodes (i', j') = d ⊘ walk_speed
            ∧ walk_time_of Gw nodes (j', i') = d ⊘ walk_speed) as [Hf1 Hf2].
    { unfold walk_time_of; simpl.
      rewrite (Nat.min_l i' j'), (Nat.max_r i' j') by lia.
      rewrite (Nat.min_r j' i'), (Nat.max_l j' i') by lia.
      by rewrite Hs, Ht; simpl; rewrite Hd. }
    simpl in Hin. simpl.
    apply elem_of_cons in Hin as [[= -> -> -> -> ->]|Hin].
    - simpl. do 2 (split; [unfold n; lia|]).
      by rewrite (getitem1_ok _ _ _ Hy), Hf1.
    - apply list_elem_of_singleton in Hin as [= -> -> -> -> ->].
      simpl. do 2 (split; [unfold n; lia|]).
      by rewrite (getitem1_ok _ _ _ Hy), Hf2. }
  rewrite HW' in H. injection H as <-.
  intros i j s t Hlt Hs Ht.
  assert (j < n) as Hjn by (by eapply lookup_lt_Some).
  destruct (list_elem_of_lookup_1 (pairs_walk n) (i, j)) as [idx Hidx].
  { by apply elem_of_pairs_walk. }
  destruct (Hlook _ _ Hidx) as (y & Hy & Hwt).
  apply walk_time_inv in Hwt as (s' & t' & d & Hs' & Ht' & Hd & ->).
  assert (s' = s) as -> by congruence. assert (t' = t) as -> by congruence.
  exists d. split; [done|].
  assert ((idx, (i, j)) ∈ enumerate (pairs_walk n)) as Hen
    by (by apply elem_of_enumerate).
  rewrite !Hcell. split.
  - rewrite decide_True.
    + unfold walk_time_of; simpl.
      rewrite Nat.min_l, Nat.max_r by lia.
      by rewrite Hs, Ht; simpl; rewrite Hd.
    + apply list_elem_of_fmap. exists ((idx, (i, j)), (i, j)). split; [done|].
      apply list_elem_of_bind. exists (idx, (i, j)). split; [|done].
      apply list_elem_of_here.
  - rewrite decide_True.
    + unfold walk_time_of; simpl.
      rewrite Nat.min_r, Nat.max_l by lia.
      by rewrite Hs, Ht; simpl; rewrite Hd.
    + apply list_elem_of_fmap. exists ((idx, (i, j)), (j, i)). split; [done|].
      apply list_elem_of_bind. exists (idx, (i, j)). split; [|done].
      apply list_elem_of_further, list_elem_of_here.
Qed.

(** One traversal per source: the call succeeds for a non-zero speed, and
    its matrix is symmetric. *)
Lemma compute_full_walk_matrix_symmetric (speed_mps : C) :
  eq0 speed_mps = false →
  ∃ W, compute_full_walk_matrix Gw nodes speed_mps = Ok W ∧
       wf W ∧ shape0 W = length nodes ∧ shape1 W = length nodes ∧
       symmetric W.
Proof.
  intros Hspeed. unfold compute_full_walk_matrix.
  set (n := length nodes).
  set (P := λ W : ndarray C, wf W ∧ shape0 W = n ∧ shape1 W = n ∧ symmetric W).
  apply (for_each_total P).
  { split; [apply wf_np_full|]. do 2 (split; [done|]). apply symmetric_np_full. }
  intros [i src] W Hi%elem_of_enumerate%lookup_lt_Some HW.
  apply (for_each_total P); [done|].
  intros [j tgt] A Hj%elem_of_enumerate%lookup_lt_Some (HA & Hs0 & Hs1 & Hsym).
  unfold single_source_dijkstra_path_length.
  destruct (Gw src tgt) as [dist_m|]; [|by exists A].
  unfold py_div. rewrite Hspeed; simpl.
  destruct (setitem_ok A i j (dist_m ⊘ speed_mps)) as [A1 H1]; [lia..|].
  rewrite H1; simpl.
  destruct (setitem_spec _ _ _ _ _ HA H1) as (_ & Hs0' & Hs1' & _).
  destruct (setitem_ok A1 j i (dist_m ⊘ speed_mps)) as [A2 H2]; [lia..|].
  exists A2. split; [done|].
  destruct (mirrored_write _ _ _ _ _ _ HA Hsym H1 H2) as (Hw & Hr & Hc & Hs).
  split; [done|]. split; [by rewrite Hr|]. split; [by rewrite Hc|done].
Qed.

End walk.

(** ** Both models obey the laws *)

Lemma SFadd_comm (x y : binary64) : SFadd 53 1024 x y = SFadd 53 1024 y x.
Proof.
  destruct x as [sx|sx| |sx mx ex], y as [sy|sy| |sy my ey]; try reflexivity;
    try (destruct sx, sy; reflexivity).
  unfold SFadd. by rewrite (Z.min_comm ey ex), Z.add_comm.
Qed.

#[global] Instance binary64_laws : CellLaws binary64.
Proof.
  split.
  - done.
  - done.
  - done.
  - apply SFadd_comm.
  - intros x [| | |]; try done. intros _. by destruct x.
  - intros [| | |] y; try done.
  - intros [| | |] y; try done.
  - intros [s| | |] [s'| | |] x y; try done. intros _ _.
    destruct x as [sx|sx| |sx mx ex], y as [sy|sy| |sy my ey], s, s';
      try reflexivity;
      try (destruct sx; try destruct sy; reflexivity);
      try (destruct sy; reflexivity).
  - by vm_compute.
Qed.

Lemma xadd_comm (x y : xrat) : xadd x y = xadd y x.
Proof. destruct x, y; simpl; try done. by rewrite Qcplus_comm. Qed.

#[global] Instance xrat_laws : CellLaws xrat.
Proof.
  split.
  - done.
  - done.
  - done.
  - apply xadd_comm.
  - intros x [| | |]; try done. intros _. by destruct x.
  - intros [| | |] y; try done.
  - intros [| | |] y; try done.
  - intros [a| | |] [b| | |] x y; simpl; try done.
    destruct (Qc_eq_dec a (Q2Qc 0)) as [->|]; [|done].
    destruct (Qc_eq_dec b (Q2Qc 0)) as [->|]; [|done].
    intros _ _. by destruct x, y.
  - by vm_compute.
Qed.

(** ** The functions on small inputs *)

(** Both populations zero: every quotient is 0/0. *)
Example dtilde_zero_populations :
  compute_dtilde_matrix (array_of [ [ofZ 0; ofZ 9]; [ofZ 8; ofZ 0] ])
    [czero; czero]
  = Ok (np_zeros 2 2 : ndarray binary64).
Proof. by_compute. Qed.

(** A population vector of the wrong length does not broadcast. *)
Example dtilde_shape_mismatch :
  compute_dtilde_matrix (T_ex binary64) [ofZ 1; ofZ 2]
  = Raise (ValueError "operands could not be broadcast together").
Proof. by_compute. Qed.

(** A vector of length one does: the check of [process_files] is what
    rejects it. *)
Example dtilde_length_one :
  (dtilde ← compute_dtilde_matrix (T_ex binary64) [ofZ 5]; getitem dtilde 0 1)
  = Ok (literal (9 # 2)).
Proof. by_compute. Qed.

(** With populations of opposite sign the second pass can produce [nan]:
    d̃[0,1] and d̃[1,0] are -inf, and d[0,1] is (-inf + inf) / 0. *)
Example d_nan_with_signed_populations :
  (dtilde ← compute_dtilde_matrix (T_two binary64) (p_signed binary64);
   d ← compute_d_matrix dtilde (p_signed binary64);
   getitem d 0 1) = Ok cnan.
Proof. by_compute. Qed.

(** The per-source module on the one-way street and the line: two files. *)
Example compute_matrices_dijkstra_ex :
  let '(written, outcome) :=
    compute_matrices_dijkstra 2 (G_oneway binary64) (G_line binary64)
      [0; 1] [0; 1] "Atlanta" "GA" "2025-06-14" true true in
  outcome = Ok () ∧
  file_name <$> written
  = ["AtlantaGA_drive_2025-06-14.npy"; "AtlantaGA_walk_2025-06-14.npy"].
Proof. by vm_compute. Qed.

(** With matching dimensions the persistence functions go through. *)
Example process_files_ex :
  let '(written, outcome) :=
    process_files "drive" "AtlantaGA" (df_ex binary64) (T_ex binary64) in
  outcome = Ok () ∧
  file_name <$> written
  = ["AtlantaGA_dtilde_drive.csv"; "AtlantaGA_dtilde_drive.npy";
     "AtlantaGA_d_drive.csv"; "AtlantaGA_d_drive.npy"].
Proof. by vm_compute. Qed.

Example load_labeled_matrix_ex :
  load_labeled_matrix (T_ex binary64) (df_ex binary64)
  = Ok (MkDataFrame (id_column (df_ex binary64)) (id_column (df_ex binary64))
          (T_ex binary64)).
Proof. by vm_compute. Qed.
(** ** Double precision

    What [SpecFloat]'s rounding does to a mantissa, in rational terms. *)

Lemma pow2_pos e : (0 < pow2 e)%Q.
Proof. by apply Qpower_0_lt. Qed.

Lemma pow2_add a b : (pow2 (a + b) == pow2 a * pow2 b)%Q.
Proof. by apply Qpower_plus. Qed.

Lemma pow2_Z k : (0 ≤ k)%Z → (pow2 k == inject_Z (2 ^ k))%Q.
Proof. intros Hk. unfold pow2. by rewrite Zpower_Qpower. Qed.

Lemma scale_le (a b : Z) (P : Q) :
  (a ≤ b)%Z → (0 <= P)%Q → (inject_Z a * P <= inject_Z b * P)%Q.
Proof.
  intros Hab HP. apply Qmult_le_compat_r; [|done]. by rewrite <- Zle_Qle.
Qed.

Lemma near_floor lo hi m k e x :
  (lo ≤ 0)%Z → (1 ≤ hi)%Z → (0 ≤ k)%Z →
  near lo hi m e x → near lo hi (m / 2 ^ k) (e + k) x.
Proof.
  intros Hlo Hhi Hk [H1 H2].
  assert (0 < 2 ^ k)%Z as Hpos by (apply Z.pow_pos_nonneg; lia).
  pose proof (Z.mul_div_le m (2 ^ k) Hpos) as Hq1.
  pose proof (Z.mul_succ_div_gt m (2 ^ k) Hpos) as Hq2.
  pose proof (pow2_pos e) as HP.
  assert (∀ z, (inject_Z z * pow2 (e + k) == inject_Z (z * 2 ^ k) * pow2 e)%Q)
    as Heq.
  { intros z. rewrite pow2_add, (pow2_Z k Hk), inject_Z_mult. ring. }
  unfold near. rewrite !Heq. split.
  - eapply Qle_trans; [|exact H1]. apply scale_le; [nia|lra].
  - eapply Qlt_le_trans; [exact H2|]. apply scale_le; [nia|lra].
Qed.

Lemma shr_1_m mrs : (0 ≤ shr_m mrs)%Z → shr_m (shr_1 mrs) = (shr_m mrs / 2)%Z.
Proof.
  destruct mrs as [m r s]. simpl. intros Hm.
  destruct m as [|[p|p|]|p]; simpl; try done.
  - rewrite Pos2Z.inj_xI. apply Z.div_unique with 1%Z; lia.
  - rewrite Pos2Z.inj_xO. apply Z.div_unique with 0%Z; lia.
Qed.

Lemma iter_shr_1_m p mrs :
  (0 ≤ shr_m mrs)%Z →
  shr_m (SpecFloat.iter_pos shr_1 p mrs) = (shr_m mrs / 2 ^ Zpos p)%Z.
Proof.
  assert (∀ z q, 0 ≤ z → 0 ≤ z / 2 ^ Z.pos q)%Z as Hdiv.
  { intros z q Hz. apply Z.div_pos; lia. }
  revert mrs. induction p as [p IH|p IH|]; intros mrs Hm; simpl.
  - pose proof (shr_1_m mrs Hm) as H1.
    assert (0 ≤ shr_m (shr_1 mrs))%Z as H1'.
    { rewrite H1. apply Z.div_pos; lia. }
    pose proof (IH _ H1') as H2.
    assert (0 ≤ shr_m (SpecFloat.iter_pos shr_1 p (shr_1 mrs)))%Z as H2'.
    { rewrite H2. by apply Hdiv. }
    rewrite (IH _ H2'), H2, H1, !Z.div_div by lia. f_equal.
    replace (Z.pos p~1) with (1 + Z.pos p + Z.pos p)%Z by lia.
    rewrite !Z.pow_add_r by lia. change (2 ^ 1)%Z with 2%Z. lia.
  - pose proof (IH _ Hm) as H2.
    assert (0 ≤ shr_m (SpecFloat.iter_pos shr_1 p mrs))%Z as H2'.
    { rewrite H2. by apply Hdiv. }
    rewrite (IH _ H2'), H2, !Z.div_div by lia. f_equal.
    replace (Z.pos p~0) with (Z.pos p + Z.pos p)%Z by lia.
    by rewrite Z.pow_add_r by lia.
  - by rewrite shr_1_m.
Qed.

Lemma shr_floor mrs e n :
  (0 ≤ shr_m mrs)%Z →
  (shr mrs e n).2 = (e + Z.max 0 n)%Z ∧
  shr_m (shr mrs e n).1 = (shr_m mrs / 2 ^ Z.max 0 n)%Z.
Proof.
  intros Hm. destruct n as [|p|p]; simpl.
  - by rewrite Z.add_0_r, Z.div_1_r.
  - by rewrite iter_shr_1_m.
  - by rewrite Z.add_0_r, Z.div_1_r.
Qed.

Lemma shr_m_of_loc m l : shr_m (shr_record_of_loc m l) = m.
Proof. by destruct l as [|[]]. Qed.

Lemma shr_fexp_near prec emax lo hi m e l x :
  (lo ≤ 0)%Z → (1 ≤ hi)%Z → (0 ≤ m)%Z → near lo hi m e x →
  (0 ≤ shr_m (shr_fexp prec emax m e l).1)%Z ∧
  near lo hi (shr_m (shr_fexp prec emax m e l).1)
    (shr_fexp prec emax m e l).2 x.
Proof.
  intros Hlo Hhi Hm Hx. unfold shr_fexp.
  destruct (shr_floor (shr_record_of_loc m l) e
    (fexp prec emax (Zdigits2 m + e) - e)) as [-> ->].
  { by rewrite shr_m_of_loc. }
  rewrite shr_m_of_loc. split.
  - apply Z.div_pos; [done|]. apply Z.pow_pos_nonneg; lia.
  - apply near_floor; try done. lia.
Qed.

Lemma round_nearest_even_cases m l :
  round_nearest_even m l = m ∨ round_nearest_even m l = (m + 1)%Z.
Proof.
  unfold round_nearest_even. destruct l as [|[]]; auto.
  destruct (Z.even m); auto.
Qed.

(** Rounding a non-negative mantissa never gives nan, keeps the sign, and
    gives a double within one unit in its last place of what was rounded. *)
Lemma binary_round_aux_near sx mx ex lx x :
  (0 ≤ mx)%Z → near 0 1 mx ex x →
  match binary_round_aux 53 1024 sx mx ex lx with
  | S754_finite s m e => s = sx ∧ near (-1) 1 (Zpos m) e x
  | S754_zero s | S754_infinity s => s = sx
  | S754_nan => False
  end.
Proof.
  intros Hm Hx. unfold binary_round_aux.
  destruct (shr_fexp_near 53 1024 0 1 mx ex lx x) as [Hm1 Hx1]; [lia..|done|].
  destruct (shr_fexp 53 1024 mx ex lx) as [mrs' e']. simpl in Hm1, Hx1.
  set (m2 := round_nearest_even (shr_m mrs') (loc_of_shr_record mrs')).
  assert (0 ≤ m2 ∧ near (-1) 1 m2 e' x)%Z as [Hm2 Hx2].
  { destruct Hx1 as [Ha Hb]. pose proof (pow2_pos e') as HP. unfold near.
    destruct (round_nearest_even_cases (shr_m mrs') (loc_of_shr_record mrs'))
      as [Hr|Hr]; fold m2 in Hr; rewrite Hr; (split; [lia|]); split.
    - eapply Qle_trans; [|exact Ha]. apply scale_le; [lia|lra].
    - eapply Qlt_le_trans; [exact Hb|]. apply scale_le; [lia|lra].
    - eapply Qle_trans; [|exact Ha]. apply scale_le; [lia|lra].
    - eapply Qlt_le_trans; [exact Hb|]. apply scale_le; [lia|lra]. }
  destruct (shr_fexp_near 53 1024 (-1) 1 m2 e' loc_Exact x) as [Hm3 Hx3];
    [lia..|done|].
  destruct (shr_fexp 53 1024 m2 e' loc_Exact) as [mrs'' e'']. simpl in Hm3, Hx3.
  destruct (shr_m mrs'') as [|m|m]; [done| |lia].
  by destruct (e'' <=? 1024 - 53)%Z.
Qed.

Lemma near_exact m e x :
  (x == inject_Z m * pow2 e)%Q → near 0 1 m e x.
Proof.
  intros Hx. pose proof (pow2_pos e) as HP. unfold near.
  rewrite Z.add_0_r, inject_Z_plus, Hx. split; [lra|].
  change (inject_Z 1) with 1%Q. lra.
Qed.

Lemma digits2_pos_lower m : (2 ^ (Zpos (digits2_pos m) - 1) ≤ Zpos m)%Z.
Proof.
  induction m as [m IH|m IH|]; simpl; [| |done].
  all: rewrite Pos2Z.inj_succ;
    replace (Z.succ (Z.pos (digits2_pos m)) - 1)%Z
      with (1 + (Z.pos (digits2_pos m) - 1))%Z by lia;
    rewrite Z.pow_add_r by lia; change (2 ^ 1)%Z with 2%Z; lia.
Qed.

(** The bound in units of the last place, as a relative bound, for a
    result with 53 bits. *)
Lemma near_rounds_to m e x :
  digits2_pos m = 53%positive → near (-1) 1 (Zpos m) e x →
  rounds_to (S754_finite false m e) x.
Proof.
  intros Hd [H1 H2]. pose proof (pow2_pos e) as HP.
  pose proof (digits2_pos_lower m) as Hm. rewrite Hd in Hm.
  assert (inject_Z (2 ^ 52) * pow2 e <= inject_Z (Zpos m) * pow2 e)%Q as Hu.
  { apply scale_le; [exact Hm|lra]. }
  rewrite inject_Z_plus in H1, H2.
  change (inject_Z (-1)) with (-1)%Q in H1. change (inject_Z 1) with 1%Q in H2.
  change (inject_Z (2 ^ 52)) with (4503599627370496 # 1)%Q in Hu.
  unfold rounds_to, ulp53. simpl b64_value.
  set (V := (inject_Z (Zpos m) * pow2 e)%Q) in *.
  assert ((inject_Z (Z.pos m) + -1) * pow2 e == V - pow2 e)%Q as E1
    by (unfold V; ring).
  assert ((inject_Z (Z.pos m) + 1) * pow2 e == V + pow2 e)%Q as E2
    by (unfold V; ring).
  rewrite E1 in H1. rewrite E2 in H2. split; lra.
Qed.

Lemma Pos_iter_xO m d : Zpos (Pos.iter xO m d) = (Zpos m * 2 ^ Zpos d)%Z.
Proof.
  induction d as [|d IH] using Pos.peano_ind; [simpl; lia|].
  rewrite Pos.iter_succ, Pos2Z.inj_xO, IH, Pos2Z.inj_succ, Z.pow_succ_r by lia.
  lia.
Qed.

Lemma shl_align_value mx ex ex' :
  (inject_Z (Zpos (shl_align mx ex ex').1) * pow2 (shl_align mx ex ex').2
   == inject_Z (Zpos mx) * pow2 ex)%Q ∧
  (shl_align mx ex ex').2 = Z.min ex ex'.
Proof.
  unfold shl_align. destruct (ex' - ex)%Z as [|d|d] eqn:Hd; simpl.
  - split; [done|lia].
  - split; [done|lia].
  - split; [|lia]. rewrite Pos_iter_xO, inject_Z_mult.
    replace ex with (ex' + Zpos d)%Z by lia.
    rewrite pow2_add, (pow2_Z (Zpos d)) by lia. ring.
Qed.

Lemma binary_round_near s M e x :
  (x == inject_Z (Zpos M) * pow2 e)%Q →
  match binary_round 53 1024 s M e with
  | S754_finite s' m e' => s' = s ∧ near (-1) 1 (Zpos m) e' x
  | S754_zero s' | S754_infinity s' => s' = s
  | S754_nan => False
  end.
Proof.
  intros Hx. unfold binary_round.
  destruct (shl_align_value M e (fexp 53 1024 (Z.pos (digits2_pos M) + e)))
    as [Hv _].
  destruct (shl_align M e _) as [mz ez]. simpl in Hv.
  apply binary_round_aux_near; [lia|]. apply near_exact. by rewrite Hx, Hv.
Qed.

(** *** The three operations on positive doubles *)

Lemma pos_finite_value x :
  pos_finite x → ∃ m e, x = S754_finite false m e ∧
    b64_value x = (inject_Z (Zpos m) * pow2 e)%Q.
Proof. destruct x as [| | |[] m e]; try done. by exists m, e. Qed.

Lemma pos_normal_finite x : pos_normal x → pos_finite x.
Proof. by destruct x as [| | |[] m e]. Qed.

Lemma pos_finite_pos x : pos_finite x → (0 < b64_value x)%Q.
Proof.
  intros (m & e & -> & ->)%pos_finite_value. pose proof (pow2_pos e).
  apply Qmult_lt_0_compat; [|done]. change 0%Q with (inject_Z 0). by rewrite <- Zlt_Qlt.
Qed.

Lemma SFmul_near x y :
  pos_finite x → pos_finite y →
  match SFmul 53 1024 x y with
  | S754_finite s m e =>
      s = false ∧ near (-1) 1 (Zpos m) e (b64_value x * b64_value y)
  | S754_zero s | S754_infinity s => s = false
  | S754_nan => False
  end.
Proof.
  intros (mx & ex & -> & ->)%pos_finite_value (my & ey & -> & ->)%pos_finite_value.
  simpl. apply binary_round_aux_near; [lia|]. apply near_exact.
  rewrite Pos2Z.inj_mul, inject_Z_mult, pow2_add. ring.
Qed.

Lemma SFadd_near x y :
  pos_finite x → pos_finite y →
  match SFadd 53 1024 x y with
  | S754_finite s m e =>
      s = false ∧ near (-1) 1 (Zpos m) e (b64_value x + b64_value y)
  | S754_zero s | S754_infinity s => s = false
  | S754_nan => False
  end.
Proof.
  intros (mx & ex & -> & ->)%pos_finite_value (my & ey & -> & ->)%pos_finite_value.
  simpl.
  destruct (shl_align_value mx ex (Z.min ex ey)) as [Hx Hex].
  destruct (shl_align_value my ey (Z.min ex ey)) as [Hy Hey].
  destruct (shl_align mx ex (Z.min ex ey)) as [mx' ex'].
  destruct (shl_align my ey (Z.min ex ey)) as [my' ey']. simpl in *.
  assert (ex' = Z.min ex ey) as -> by lia.
  assert (ey' = Z.min ex ey) as -> by lia.
  apply binary_round_near.
  rewrite <- Hx, <- Hy, Pos2Z.inj_add, inject_Z_plus. ring.
Qed.

Lemma SFdiv_near x y :
  pos_finite x → pos_finite y →
  match SFdiv 53 1024 x y with
  | S754_finite s m e =>
      s = false ∧ near (-1) 1 (Zpos m) e (b64_value x / b64_value y)
  | S754_zero s | S754_infinity s => s = false
  | S754_nan => False
  end.
Proof.
  intros (mx & ex & -> & ->)%pos_finite_value (my & ey & -> & ->)%pos_finite_value.
  simpl. unfold SFdiv_core_binary.
  set (e' := Z.min _ (ex - ey)).
  set (s := (ex - ey - e')%Z).
  set (m' := match s with Z0 => Zpos mx | Zpos _ => Z.shiftl (Zpos mx) s
             | Zneg _ => 0%Z end).
  assert (0 ≤ s)%Z as Hs by lia.
  assert (m' = Zpos mx * 2 ^ s)%Z as Hm'.
  { unfold m'. destruct s as [|p|p] eqn:Es; [lia| |lia].
    by rewrite Z.shiftl_mul_pow2. }
  pose proof (Z_div_mod m' (Zpos my) eq_refl) as Hdiv.
  destruct (Z.div_eucl m' (Zpos my)) as [q r]. destruct Hdiv as [Hq Hr].
  assert (0 < 2 ^ s)%Z as H2s by (apply Z.pow_pos_nonneg; lia).
  assert (0 ≤ q)%Z as Hq0 by nia.
  apply binary_round_aux_near; [done|].
  pose proof (pow2_pos e') as HP. pose proof (pow2_pos ey) as HPy.
  assert (0 < inject_Z (Zpos my))%Q as Hmy
    by (change 0%Q with (inject_Z 0); by rewrite <- Zlt_Qlt).
  assert (inject_Z (Z.pos mx) * pow2 ex / (inject_Z (Z.pos my) * pow2 ey)
          == inject_Z m' / inject_Z (Zpos my) * pow2 e')%Q as Heq.
  { replace ex with (ey + (e' + s))%Z by lia.
    rewrite !pow2_add, (pow2_Z s Hs), Hm', inject_Z_mult. field. lra. }
  unfold near. rewrite Heq, Z.add_0_r. split.
  - apply Qmult_le_compat_r; [|lra]. apply Qle_shift_div_l; [done|].
    rewrite <- inject_Z_mult, <- Zle_Qle. lia.
  - apply Qmult_lt_compat_r; [done|]. apply Qlt_shift_div_r; [done|].
    rewrite <- inject_Z_mult, <- Zlt_Qlt. lia.
Qed.

(** Each operation on positive doubles, when its result is a normal double,
    is within one unit in the last place of the exact result. *)
Lemma SFmul_rounds x y :
  pos_finite x → pos_finite y → pos_normal (SFmul 53 1024 x y) →
  rounds_to (SFmul 53 1024 x y) (b64_value x * b64_value y).
Proof.
  intros Hx Hy Hn. pose proof (SFmul_near x y Hx Hy) as H.
  destruct (SFmul 53 1024 x y) as [| | |[] m e]; try done.
  destruct H as [_ H]. by apply near_rounds_to.
Qed.

Lemma SFadd_rounds x y :
  pos_finite x → pos_finite y → pos_normal (SFadd 53 1024 x y) →
  rounds_to (SFadd 53 1024 x y) (b64_value x + b64_value y).
Proof.
  intros Hx Hy Hn. pose proof (SFadd_near x y Hx Hy) as H.
  destruct (SFadd 53 1024 x y) as [| | |[] m e]; try done.
  destruct H as [_ H]. by apply near_rounds_to.
Qed.

Lemma SFdiv_rounds x y :
  pos_finite x → pos_finite y → pos_normal (SFdiv 53 1024 x y) →
  rounds_to (SFdiv 53 1024 x y) (b64_value x / b64_value y).
Proof.
  intros Hx Hy Hn. pose proof (SFdiv_near x y Hx Hy) as H.
  destruct (SFdiv 53 1024 x y) as [| | |[] m e]; try done.
  destruct H as [_ H]. by apply near_rounds_to.
Qed.

(** The same with operands that may be zero: a zero operand makes the
    result exact. *)
Lemma nonneg_finite_cases x :
  nonneg_finite x → (∃ s, x = S754_zero s) ∨ pos_finite x.
Proof. destruct x as [s| | |[] m e]; try done; eauto. Qed.

Lemma nonneg_finite_value x : nonneg_finite x → (0 <= b64_value x)%Q.
Proof.
  intros [[s ->]|Hx]%nonneg_finite_cases; [done|].
  by apply Qlt_le_weak, pos_finite_pos.
Qed.

Lemma pos_finite_nonneg x : pos_finite x → nonneg_finite x.
Proof. by destruct x as [| | |[] m e]. Qed.

Lemma rounds_to_zero s x : (x == 0)%Q → rounds_to (S754_zero s) x.
Proof. intros Hx. unfold rounds_to. simpl. split; lra. Qed.

Lemma rounds_to_self x (v : Q) :
  nonneg_finite x → (v == b64_value x)%Q → rounds_to x v.
Proof.
  intros Hx%nonneg_finite_value Hv. unfold rounds_to, ulp53. split; lra.
Qed.

Lemma SFmul_fine x y :
  nonneg_finite x → nonneg_finite y →
  fine (SFmul 53 1024 x y) (b64_value x * b64_value y) →
  rounds_to (SFmul 53 1024 x y) (b64_value x * b64_value y) ∧
  nonneg_finite (SFmul 53 1024 x y).
Proof.
  intros [[sx ->]|Hx]%nonneg_finite_cases [[sy ->]|Hy]%nonneg_finite_cases Hf.
  - split; [|done]. apply rounds_to_zero. simpl. lra.
  - destruct y as [| | |[] my ey]; try done.
    all: split; [|done]; apply rounds_to_zero; simpl; lra.
  - destruct x as [| | |[] mx ex]; try done.
    all: split; [|done]; apply rounds_to_zero; simpl; lra.
  - pose proof (pos_finite_pos _ Hx). pose proof (pos_finite_pos _ Hy).
    destruct Hf as [Hn|Hz].
    + split; [by apply SFmul_rounds|]. by apply pos_finite_nonneg, pos_normal_finite.
    + assert (0 < b64_value x * b64_value y)%Q by (by apply Qmult_lt_0_compat).
      lra.
Qed.

Lemma SFadd_fine x y :
  nonneg_finite x → nonneg_finite y →
  fine (SFadd 53 1024 x y) (b64_value x + b64_value y) →
  rounds_to (SFadd 53 1024 x y) (b64_value x + b64_value y) ∧
  nonneg_finite (SFadd 53 1024 x y).
Proof.
  intros [[sx ->]|Hx]%nonneg_finite_cases [[sy ->]|Hy]%nonneg_finite_cases Hf.
  - split; [|by destruct sx, sy]. destruct sx, sy; apply rounds_to_zero; simpl; lra.
  - destruct y as [| | |[] my ey]; try done.
    all: simpl SFadd; split; [|done]; apply rounds_to_self; [done|]; simpl; lra.
  - destruct x as [| | |[] mx ex]; try done.
    all: simpl SFadd; split; [|done]; apply rounds_to_self; [done|]; simpl; lra.
  - pose proof (pos_finite_pos _ Hx). pose proof (pos_finite_pos _ Hy).
    destruct Hf as [Hn|Hz]; [|lra].
    split; [by apply SFadd_rounds|]. by apply pos_finite_nonneg, pos_normal_finite.
Qed.

Lemma SFdiv_fine x y :
  nonneg_finite x → pos_finite y →
  fine (SFdiv 53 1024 x y) (b64_value x / b64_value y) →
  rounds_to (SFdiv 53 1024 x y) (b64_value x / b64_value y) ∧
  nonneg_finite (SFdiv 53 1024 x y).
Proof.
  intros [[sx ->]|Hx]%nonneg_finite_cases Hy Hf.
  - destruct y as [| | |[] my ey]; try done.
    all: split; [|done]; apply rounds_to_zero; simpl b64_value at 1;
      unfold Qdiv; lra.
  - pose proof (pos_finite_pos _ Hx). pose proof (pos_finite_pos _ Hy).
    destruct Hf as [Hn|Hz].
    + split; [by apply SFdiv_rounds|]. by apply pos_finite_nonneg, pos_normal_finite.
    + assert (0 < b64_value x / b64_value y)%Q.
      { apply Qlt_shift_div_l; [done|]. lra. }
      lra.
Qed.

(** *** The weighted average, as computed and as a rational *)

Lemma dtilde_formula_accurate (pi pj tij tji : binary64) :
  nonneg_finite pi → nonneg_finite pj →
  nonneg_finite tij → nonneg_finite tji →
  normal_steps pi pj tij tji →
  let w := spec_weighted_mean (b64_value pi) (b64_value pj)
             (b64_value tij) (b64_value tji) in
  nonneg_finite (dtilde_formula pi pj tij tji) ∧
  (w * (1 - tolerance) <= b64_value (dtilde_formula pi pj tij tji) ∧
   b64_value (dtilde_formula pi pj tij tji) <= w * (1 + tolerance))%Q.
Proof.
  unfold normal_steps, dtilde_formula. cbn [cadd cmul cdiv binary64_cell].
  intros Hpi Hpj Hij Hji (Ha & Hb & Hn & Hd & Hq).
  destruct (SFmul_fine _ _ Hpi Hij Ha) as [[Ha1 Ha2] Fa].
  destruct (SFmul_fine _ _ Hpj Hji Hb) as [[Hb1 Hb2] Fb].
  destruct (SFadd_fine _ _ Fa Fb Hn) as [[Hn1 Hn2] Fn].
  destruct (SFadd_fine _ _ Hpi Hpj (or_introl Hd)) as [[Hd1 Hd2] Fd].
  destruct (SFdiv_fine _ _ Fn (pos_normal_finite _ Hd) Hq) as [[Hq1 Hq2] Fq].
  split; [done|].
  pose proof (nonneg_finite_value _ Hpi) as Ppi.
  pose proof (nonneg_finite_value _ Hpj) as Ppj.
  pose proof (nonneg_finite_value _ Hij) as Pij.
  pose proof (nonneg_finite_value _ Hji) as Pji.
  pose proof (pos_finite_pos _ (pos_normal_finite _ Hd)) as Pd.
  pose proof (nonneg_finite_value _ Fq) as Pq.
  unfold spec_weighted_mean.
  set (vd := b64_value (SFadd 53 1024 pi pj)) in *.
  set (vn := b64_value (SFadd 53 1024 (SFmul 53 1024 pi tij) (SFmul 53 1024 pj tji))) in *.
  set (vq := b64_value (SFdiv 53 1024 _ _)) in *.
  set (va := b64_value (SFmul 53 1024 pi tij)) in *.
  set (vb := b64_value (SFmul 53 1024 pj tji)) in *.
  set (A := (b64_value pi * b64_value tij)%Q) in *.
  set (B := (b64_value pj * b64_value tji)%Q) in *.
  set (P := (b64_value pi + b64_value pj)%Q) in *.
  assert (0 <= A)%Q as PA by (by apply Qmult_le_0_compat).
  assert (0 <= B)%Q as PB by (by apply Qmult_le_0_compat).
  assert (0 < P)%Q as PP by (unfold ulp53 in *; lra).
  (* the quotient, cleared of its denominator *)
  assert (vn / vd * vd == vn)%Q as E by (field; lra).
  pose proof (Qmult_le_compat_r _ _ vd Hq1 (Qlt_le_weak _ _ Pd)) as Hx1.
  pose proof (Qmult_le_compat_r _ _ vd Hq2 (Qlt_le_weak _ _ Pd)) as Hx2.
  rewrite E in Hx1, Hx2.
  pose proof (Qmult_le_compat_r _ _ vq Hd1 Pq) as Hy1.
  pose proof (Qmult_le_compat_r _ _ vq Hd2 Pq) as Hy2.
  assert ((A + B) * (1 - tolerance) <= vq * P ∧
          vq * P <= (A + B) * (1 + tolerance))%Q as [Hz1 Hz2].
  { unfold ulp53, tolerance in *. split; lra. }
  split.
  - assert ((A + B) / P * (1 - tolerance) == (A + B) * (1 - tolerance) / P)%Q
      as -> by (field; lra).
    apply Qle_shift_div_r; [done|]. exact Hz1.
  - assert ((A + B) / P * (1 + tolerance) == (A + B) * (1 + tolerance) / P)%Q
      as -> by (field; lra).
    apply Qle_shift_div_l; [done|]. exact Hz2.
Qed.

(** A weighted average lies between what it averages. *)
Lemma spec_weighted_mean_between (pi pj tij tji : Q) :
  (0 <= pi → 0 <= pj → 0 < pi + pj →
   Qmin tij tji <= spec_weighted_mean pi pj tij tji ∧
   spec_weighted_mean pi pj tij tji <= Qmax tij tji)%Q.
Proof.
  intros Hpi Hpj HP. unfold spec_weighted_mean.
  pose proof (Q.le_min_l tij tji) as L1. pose proof (Q.le_min_r tij tji) as L2.
  pose proof (Q.le_max_l tij tji) as U1. pose proof (Q.le_max_r tij tji) as U2.
  set (lo := Qmin tij tji) in *. set (hi := Qmax tij tji) in *.
  split.
  - apply Qle_shift_div_l; [done|].
    pose proof (Qmult_le_compat_r _ _ pi L1 Hpi).
    pose proof (Qmult_le_compat_r _ _ pj L2 Hpj). lra.
  - apply Qle_shift_div_r; [done|].
    pose proof (Qmult_le_compat_r _ _ pi U1 Hpi).
    pose proof (Qmult_le_compat_r _ _ pj U2 Hpj). lra.
Qed.

Lemma spec_weighted_mean_equal (p tij tji : Q) :
  (0 < p → spec_weighted_mean p p tij tji == (tij + tji) / 2)%Q.
Proof. intros Hp. unfold spec_weighted_mean. field. lra. Qed.

(** *** Signs, and results that are not nan *)








(** *** Sums that are not zero *)






Lemma spec_weighted_mean_same (pi pj t : Q) :
  (0 < pi + pj → spec_weighted_mean pi pj t t == t)%Q.
Proof. intros Hp. unfold spec_weighted_mean. field. lra. Qed.

(** ** The two passes in double precision *)

Lemma nonneg_finite_not_nan (x : binary64) : nonneg_finite x → isnan x = false.
Proof. by destruct x as [| | |[] m e]. Qed.

(** The cell of d̃, when no step overflows or underflows: the quotient
    itself, within [tolerance] of the weighted average. *)
Lemma dtilde_cell_accurate (T : ndarray binary64) (p : list binary64)
    (n i j : nat) (pi pj tij tji : binary64) :
  wf T → shape0 T = n → shape1 T = n → length p = n →
  p !! i = Some pi → p !! j = Some pj →
  cell T i j = Some tij → cell T j i = Some tji →
  nonneg_finite pi → nonneg_finite pj →
  nonneg_finite tij → nonneg_finite tji →
  normal_steps pi pj tij tji →
  ∃ dtilde x,
    compute_dtilde_matrix T p = Ok dtilde ∧
    cell dtilde i j = Some x ∧
    x = dtilde_formula pi pj tij tji ∧
    nonneg_finite x ∧
    (spec_weighted_mean (b64_value pi) (b64_value pj)
       (b64_value tij) (b64_value tji) * (1 - tolerance) <= b64_value x ∧
     b64_value x <=
     spec_weighted_mean (b64_value pi) (b64_value pj)
       (b64_value tij) (b64_value tji) * (1 + tolerance))%Q.
Proof.
  intros HT H0 H1 Hp Hpi Hpj Hij Hji Fpi Fpj Fij Fji Hsteps.
  destruct (compute_dtilde_matrix_ok T p n HT H0 H1 Hp)
    as (dtilde & Hrun & _ & _ & _ & Hcell).
  destruct (dtilde_formula_accurate pi pj tij tji Fpi Fpj Fij Fji Hsteps)
    as [Fq Hq].
  exists dtilde, (dtilde_formula pi pj tij tji).
  split; [done|]. split; [|done].
  rewrite (Hcell _ _ _ _ _ _ Hpi Hpj Hij Hji).
  by rewrite unnan_id by (by apply nonneg_finite_not_nan).
Qed.

(** A zero cost in both directions gives a zero, whatever the
    populations. *)
Lemma dtilde_formula_zero_costs (pi pj tij tji : binary64) :
  nonneg_finite pi → nonneg_finite pj →
  eq0 tij = true → eq0 tji = true →
  eq0 (unnan (dtilde_formula pi pj tij tji)) = true.
Proof.
  intros [[si ->]|Hpi]%nonneg_finite_cases [[sj ->]|Hpj]%nonneg_finite_cases
    Hij Hji.
  - by rewrite dtilde_formula_zero_pop.
  - destruct tij as [sa| | |], tji as [sb| | |]; try done.
    destruct pj as [| | |[] mj ej]; try done.
    by destruct si, sa, sb.
  - destruct tij as [sa| | |], tji as [sb| | |]; try done.
    destruct pi as [| | |[] mi ei]; try done.
    by destruct sj, sa, sb.
  - pose proof (SFadd_near pi pj Hpi Hpj) as Hden.
    destruct tij as [sa| | |], tji as [sb| | |]; try done.
    destruct pi as [| | |[] mi ei]; try done.
    destruct pj as [| | |[] mj ej]; try done.
    unfold dtilde_formula, unnan. cbn [cadd cmul cdiv binary64_cell].
    destruct (SFadd 53 1024 (S754_finite false mi ei) (S754_finite false mj ej))
      as [sd|sd| |sd md ed]; try done; by destruct sa, sb.
Qed.






(** ** Arrays, loops and lists once more *)

Section more_arrays.
Context {C : Type} `{!Cell C}.
Implicit Types (A T D Dt : ndarray C) (p : list C).

Lemma cell_None_outside A i j :
  wf A → ¬ (i < shape0 A ∧ j < shape1 A) → cell A i j = None.
Proof.
  intros HA Hn. destruct (cell A i j) as [x|] eqn:H; [|done].
  destruct Hn. by eapply cell_lt.
Qed.

(** A square array is symmetric when its cells inside the bounds are. *)
Lemma square_symmetric A n :
  wf A → shape0 A = n → shape1 A = n →
  (∀ i j, i < n → j < n → cell A i j = cell A j i) → symmetric A.
Proof.
  intros HA H0 H1 H a b.
  destruct (decide (a < n ∧ b < n)) as [[? ?]|Hn]; [by apply H|].
  rewrite !cell_None_outside; [done|done|lia|done|lia].
Qed.

(** A store keeps the shape, whatever the rows of the array are. *)
Lemma setitem_shape A i j x A' :
  setitem A i j x = Ok A' → shape0 A' = shape0 A ∧ shape1 A' = shape1 A.
Proof.
  unfold setitem.
  destruct ((i <? shape0 A) && (j <? shape1 A)); [|done].
  by intros [= <-].
Qed.

(** Storing the value an array is filled with changes nothing. *)
Lemma setitem_np_full_same r c (x : C) i j :
  i < r → j < c → setitem (np_full r c x) i j x = Ok (np_full r c x).
Proof.
  intros Hi Hj. unfold setitem, np_full; simpl.
  destruct (Nat.ltb_spec i r); [|lia]. destruct (Nat.ltb_spec j c); [|lia].
  simpl. do 2 f_equal. apply list_eq. intros k.
  rewrite list_lookup_alter.
  destruct (decide (i = k)) as [<-|Hne]; [|done].
  rewrite lookup_replicate_2 by done. simpl. f_equal.
  apply list_eq. intros l. rewrite list_lookup_insert.
  rewrite length_replicate.
  destruct (decide (j = l)) as [<-|Hjl]; [|by rewrite decide_False by tauto].
  rewrite decide_True by done. by rewrite lookup_replicate_2.
Qed.

(** The result of the second pass has the size of the population vector,
    whatever the matrix it reads. *)
Lemma compute_d_matrix_shape Dt p (d : ndarray C) :
  compute_d_matrix Dt p = Ok d →
  shape0 d = length p ∧ shape1 d = length p.
Proof.
  unfold compute_d_matrix. set (n := length p).
  apply (for_each_inv (λ d : ndarray C, shape0 d = n ∧ shape1 d = n)); [done|].
  intros i A A' _ HA.
  apply (for_each_inv (λ d : ndarray C, shape0 d = n ∧ shape1 d = n)); [done|].
  intros j B B' _ [HB0 HB1]. rewrite d_round.
  destruct (d_entry Dt p i j) as [x|e]; simpl; [|done].
  intros [? ?]%setitem_shape. split; congruence.
Qed.

End more_arrays.

(** A loop raises [e] when one of its rounds does whatever the state is,
    and the rounds before it succeed or raise [e] as well. *)
Lemma for_each_raise {X S} (P : S → Prop) (xs : list X) (body : X → S → res S)
    (s : S) (e : exn) :
  P s →
  (∀ x s, x ∈ xs → P s → (∃ s', body x s = Ok s' ∧ P s') ∨ body x s = Raise e) →
  (∃ x, x ∈ xs ∧ ∀ s, body x s = Raise e) →
  for_each xs body s = Raise e.
Proof.
  revert s. induction xs as [|x xs IH]; intros s Hs Hb (y & Hy & Hraise).
  { by apply elem_of_nil in Hy. }
  simpl. destruct (Hb x s) as [(s1 & Hx & Hs1)|Hx];
    [apply list_elem_of_here|done| |by rewrite Hx].
  rewrite Hx; simpl. apply elem_of_cons in Hy as [->|Hy].
  { by rewrite Hraise in Hx. }
  apply IH; [done| |by exists y].
  intros z t Hz. apply Hb. by apply list_elem_of_further.
Qed.

Lemma map_res_total {A B} (f : A → res B) (xs : list A) :
  (∀ x, x ∈ xs → ∃ y, f x = Ok y) → ∃ ys, map_res f xs = Ok ys.
Proof.
  induction xs as [|x xs IH]; intros H; simpl; [by eexists|].
  destruct (H x) as [y ->]; [apply list_elem_of_here|].
  destruct IH as [ys ->]; [|by eexists].
  intros z Hz. apply H. by apply list_elem_of_further.
Qed.

Lemma map_res_length {A B} (f : A → res B) (xs : list A) (ys : list B) :
  map_res f xs = Ok ys → length ys = length xs.
Proof.
  revert ys. induction xs as [|x xs IH]; intros ys H; simpl in H.
  - by injection H as <-.
  - destruct (f x) as [y|e]; simpl in H; [|done].
    destruct (map_res f xs) as [ys'|e]; simpl in H; [|done].
    injection H as <-. simpl. f_equal. by apply IH.
Qed.

(** ** One traversal per source: the cells of the walk matrix *)

(** A loop with an invariant that counts the rounds. *)
Lemma for_each_indexed {X St} (P : nat → St → Prop) (xs : list X)
    (body : X → St → res St) (s : St) :
  P 0 s →
  (∀ k x s, xs !! k = Some x → P k s → ∃ s', body x s = Ok s' ∧ P (S k) s') →
  ∃ s', for_each xs body s = Ok s' ∧ P (length xs) s'.
Proof.
  revert P s. induction xs as [|x xs IH]; intros P s Hs Hb; simpl.
  - by exists s.
  - destruct (Hb 0 x s) as (s1 & -> & Hs1); [done..|]. simpl.
    apply (IH (λ k, P (S k))); [done|].
    intros k y t Hy. by apply (Hb (S k)).
Qed.

Lemma lookup_enumerate {X} (xs : list X) k i x :
  enumerate xs !! k = Some (i, x) → i = k ∧ xs !! k = Some x.
Proof.
  unfold enumerate. rewrite list_lookup_imap.
  destruct (xs !! k) as [y|]; simpl; [|done]. by intros [= <- <-].
Qed.

Lemma length_enumerate {X} (xs : list X) : length (enumerate xs) = length xs.
Proof. unfold enumerate. apply length_imap. Qed.

Section full_walk.
Context {C : Type} `{!Cell C}.
Variables (G : graph C) (nodes : list nat) (speed_mps : C).

Lemma walk_after_rows_0 a b : walk_after_rows G nodes speed_mps 0 a b = cnan.
Proof.
  unfold walk_after_rows.
  rewrite decide_False by lia. by rewrite decide_False by lia.
Qed.

Lemma walk_after_cols_0 i a b :
  walk_after_cols G nodes speed_mps i 0 a b
  = walk_after_rows G nodes speed_mps i a b.
Proof.
  unfold walk_after_cols. cbv zeta.
  rewrite decide_False by lia. by rewrite decide_False by lia.
Qed.

Lemma walk_after_rows_all k a b :
  a < k → b < k →
  walk_after_rows G nodes speed_mps k a b = full_walk_cell G nodes speed_mps a b.
Proof. intros Ha Hb. unfold walk_after_rows. by rewrite decide_True by lia. Qed.

(** The inner loop at its end has brought the matrix from round i to
    round i + 1 of the outer loop. *)
Lemma walk_after_cols_all i m a b :
  a < m → b < m →
  walk_after_cols G nodes speed_mps i m a b
  = walk_after_rows G nodes speed_mps (S i) a b.
Proof.
  intros Ha Hb. unfold walk_after_cols, walk_after_rows, full_walk_cell. cbv zeta.
  destruct (Nat.lt_total a b) as [?|[->|?]];
    rewrite ?Nat.max_id, ?Nat.min_id,
      ?(Nat.max_r a b), ?(Nat.min_l a b), ?(Nat.max_l a b), ?(Nat.min_r a b) by lia;
    repeat (case_decide; try lia); destruct_and?; simplify_eq; try done;
    by destruct (walk_leg G nodes speed_mps _ _).
Qed.

(** A round of the inner loop that finds a path stores its time twice. *)
Lemma walk_after_cols_found i m a b src tgt d :
  nodes !! i = Some src → nodes !! m = Some tgt → G src tgt = Some d →
  walk_after_cols G nodes speed_mps i (S m) a b
  = if decide (a = m ∧ b = i) then d ⊘ speed_mps
    else if decide (a = i ∧ b = m) then d ⊘ speed_mps
    else walk_after_cols G nodes speed_mps i m a b.
Proof.
  intros Hi Hm Hd.
  assert (walk_leg G nodes speed_mps i m = Some (d ⊘ speed_mps)) as Hleg.
  { unfold walk_leg. rewrite Hi, Hm; simpl. by rewrite Hd. }
  unfold walk_after_cols. cbv zeta.
  destruct (decide (a = m ∧ b = i)) as [[-> ->]|Hn1].
  { destruct (decide (m = i ∧ i < S m)) as [[-> _]|_].
    - by rewrite Hleg.
    - rewrite decide_True by lia. by rewrite Hleg. }
  destruct (decide (a = i ∧ b = m)) as [[-> ->]|Hn2].
  { rewrite decide_True by lia. by rewrite Hleg. }
  destruct (decide (a = i ∧ b < S m)), (decide (a = i ∧ b < m)); try lia; try done.
  destruct (decide (b = i ∧ a < S m)), (decide (b = i ∧ a < m)); try lia; done.
Qed.

(** A round that finds none stores nothing. *)
Lemma walk_after_cols_none i m a b src tgt :
  nodes !! i = Some src → nodes !! m = Some tgt → G src tgt = None →
  walk_after_cols G nodes speed_mps i (S m) a b
  = walk_after_cols G nodes speed_mps i m a b.
Proof.
  intros Hi Hm Hd.
  assert (walk_leg G nodes speed_mps i m = None) as Hleg.
  { unfold walk_leg. rewrite Hi, Hm; simpl. by rewrite Hd. }
  unfold walk_after_cols. cbv zeta.
  destruct (decide (a = i ∧ b < S m)) as [[-> Hb]|Hn1].
  - destruct (decide (i = i ∧ b < m)) as [_|Hn]; [done|].
    assert (b = m) as -> by lia. rewrite Hleg. simpl.
    destruct (decide (m = i ∧ i < m)); [lia|done].
  - rewrite (decide_False (P := a = i ∧ b < m)) by lia.
    destruct (decide (b = i ∧ a < S m)) as [[-> Ha]|Hn2].
    + destruct (decide (i = i ∧ a < m)) as [_|Hn]; [done|].
      assert (a = m) as -> by lia. by rewrite Hleg.
    + by rewrite (decide_False (P := b = i ∧ a < m)) by lia.
Qed.

(** The cells of the matrix [compute_full_walk_matrix] returns. *)
Lemma compute_full_walk_matrix_cells :
  eq0 speed_mps = false →
  ∃ W, compute_full_walk_matrix G nodes speed_mps = Ok W ∧
       wf W ∧ shape0 W = length nodes ∧ shape1 W = length nodes ∧
       ∀ a b, a < length nodes → b < length nodes →
         cell W a b = Some (full_walk_cell G nodes speed_mps a b).
Proof.
  intros Hspeed. unfold compute_full_walk_matrix. set (n := length nodes).
  set (I := λ (val : nat → nat → C) (W : ndarray C),
         wf W ∧ shape0 W = n ∧ shape1 W = n ∧
         ∀ a b, a < n → b < n → cell W a b = Some (val a b)).
  destruct (for_each_indexed
              (λ k, I (walk_after_rows G nodes speed_mps k))
              (enumerate nodes)
              (λ '(i, src) W,
                 let lengths := single_source_dijkstra_path_length G src in
                 for_each (enumerate nodes) (λ '(j, tgt) W,
                   match lengths tgt with
                   | Some dist_m =>
                       secs ← py_div dist_m speed_mps;
                       W ← setitem W i j secs;
                       setitem W j i secs
                   | None => Ok W
                   end) W)
              (np_full n n cnan)) as (W & HW & HI).
  { split; [apply wf_np_full|]. do 2 (split; [done|]).
    intros a b Ha Hb. by rewrite walk_after_rows_0, cell_np_full. }
  { intros k [i src] W [-> Hsrc]%lookup_enumerate HIk.
    destruct (for_each_indexed
                (λ m, I (walk_after_cols G nodes speed_mps k m))
                (enumerate nodes)
                (λ '(j, tgt) W,
                   match single_source_dijkstra_path_length G src tgt with
                   | Some dist_m =>
                       secs ← py_div dist_m speed_mps;
                       W ← setitem W k j secs;
                       setitem W j k secs
                   | None => Ok W
                   end) W) as (W' & HW' & HI').
    - destruct HIk as (? & ? & ? & Hcell). do 3 (split; [done|]).
      intros a b Ha Hb. by rewrite walk_after_cols_0, Hcell.
    - intros m [j tgt] A [-> Htgt]%lookup_enumerate (HA & H0 & H1 & Hcell).
      assert (k < n) as Hk by (by eapply lookup_lt_Some).
      assert (m < n) as Hm by (by eapply lookup_lt_Some).
      unfold single_source_dijkstra_path_length.
      destruct (G src tgt) as [d|] eqn:Hd.
      + unfold py_div. rewrite Hspeed. cbn [mbind res_bind].
        destruct (setitem_ok A k m (d ⊘ speed_mps)) as [A1 HA1]; [lia..|].
        rewrite HA1. cbn [mbind res_bind].
        destruct (setitem_spec _ _ _ _ _ HA HA1) as (Hwf1 & Hs0 & Hs1 & Hc1).
        destruct (setitem_ok A1 m k (d ⊘ speed_mps)) as [A2 HA2]; [lia..|].
        exists A2. split; [done|].
        destruct (setitem_spec _ _ _ _ _ Hwf1 HA2) as (Hwf2 & Hs0' & Hs1' & Hc2).
        split; [done|]. split; [congruence|]. split; [congruence|].
        intros a b Ha Hb.
        rewrite Hc2, Hc1, (walk_after_cols_found k m a b src tgt d) by done.
        destruct (decide (a = m ∧ b = k)); [done|].
        destruct (decide (a = k ∧ b = m)); [done|].
        by apply Hcell.
      + exists A. split; [done|]. do 3 (split; [done|]).
        intros a b Ha Hb.
        rewrite (walk_after_cols_none k m a b src tgt) by done.
        by apply Hcell.
    - exists W'. split; [exact HW'|].
      destruct HI' as (? & ? & ? & Hcell). do 3 (split; [done|]).
      intros a b Ha Hb. rewrite <- walk_after_cols_all with (m := n) by done.
      rewrite length_enumerate in Hcell. by apply Hcell. }
  exists W. split; [exact HW|].
  destruct HI as (? & ? & ? & Hcell). do 3 (split; [done|]).
  intros a b Ha Hb. rewrite <- (walk_after_rows_all n) by done.
  rewrite length_enumerate in Hcell. by apply Hcell.
Qed.

End full_walk.
(** * The claims *)

(** C1, as amended.  On an n×n travel matrix [T] and a population vector
    [p] of length n, [compute_dtilde_matrix] returns a matrix d̃ of the same
    shape.  The cell d̃[i,j] holds the quotient
    (p[i]·T[i,j] + p[j]·T[j,i]) / (p[i] + p[j]) as double precision
    evaluates it, each operation rounded, whenever that is not [nan], and 0
    whenever it is [nan].  It is 0 when p[i] = 0 and p[j] = 0, whatever the
    two costs are.  For populations and costs that are zero or positive,
    when no step of the quotient overflows or underflows, d̃[i,j] is the
    quotient, a double that is zero or positive, and the rational it stands
    for is the weighted average of the specification up to a relative
    error of 2^-49. *)
Theorem C1_dtilde_formula (T : ndarray binary64) (p : list binary64) (n : nat) :
  wf T → shape0 T = n → shape1 T = n → length p = n →
  ∃ dtilde,
    compute_dtilde_matrix T p = Ok dtilde ∧
    shape0 dtilde = n ∧ shape1 dtilde = n ∧
    ∀ i j pi pj tij tji,
      p !! i = Some pi → p !! j = Some pj →
      cell T i j = Some tij → cell T j i = Some tji →
      cell dtilde i j
      = Some (if isnan ((pi ⊗ tij ⊕ pj ⊗ tji) ⊘ (pi ⊕ pj)) then czero
              else (pi ⊗ tij ⊕ pj ⊗ tji) ⊘ (pi ⊕ pj)) ∧
      (eq0 pi = true → eq0 pj = true → cell dtilde i j = Some czero) ∧
      (nonneg_finite pi → nonneg_finite pj →
       nonneg_finite tij → nonneg_finite tji →
       normal_steps pi pj tij tji →
       cell dtilde i j = Some ((pi ⊗ tij ⊕ pj ⊗ tji) ⊘ (pi ⊕ pj)) ∧
       nonneg_finite ((pi ⊗ tij ⊕ pj ⊗ tji) ⊘ (pi ⊕ pj)) ∧
       (spec_weighted_mean (b64_value pi) (b64_value pj)
          (b64_value tij) (b64_value tji) * (1 - tolerance)
        <= b64_value ((pi ⊗ tij ⊕ pj ⊗ tji) ⊘ (pi ⊕ pj))
        <= spec_weighted_mean (b64_value pi) (b64_value pj)
             (b64_value tij) (b64_value tji) * (1 + tolerance))%Q).
Proof.
  intros HT H0 H1 Hp.
  destruct (compute_dtilde_matrix_ok T p n HT H0 H1 Hp)
    as (dtilde & Hrun & _ & Hs0 & Hs1 & Hcell).
  exists dtilde. do 3 (split; [done|]).
  intros i j pi pj tij tji Hpi Hpj Hij Hji.
  pose proof (Hcell _ _ _ _ _ _ Hpi Hpj Hij Hji) as Hx.
  split; [exact Hx|]. split.
  - intros Hzi Hzj. by rewrite Hx, dtilde_formula_zero_pop.
  - intros Fpi Fpj Fij Fji Hsteps.
    destruct (dtilde_formula_accurate pi pj tij tji Fpi Fpj Fij Fji Hsteps)
      as [Fq Hq].
    split; [|split; [exact Fq|exact Hq]].
    rewrite Hx. by rewrite unnan_id by (by apply nonneg_finite_not_nan).
Qed.

Lemma C1_dtilde_formula_witness :
  ∃ dtilde x,
    compute_dtilde_matrix (T_tenth binary64) (p_three binary64) = Ok dtilde ∧
    cell dtilde 0 1 = Some x ∧
    nonneg_finite x ∧
    (spec_weighted_mean (b64_value (b64_of_Z 3)) (b64_value (b64_of_Z 3))
       (b64_value (b64_of_Q (1 # 10))) (b64_value (b64_of_Q (1 # 10)))
     * (1 - tolerance)
     <= b64_value x
     <= spec_weighted_mean (b64_value (b64_of_Z 3)) (b64_value (b64_of_Z 3))
          (b64_value (b64_of_Q (1 # 10))) (b64_value (b64_of_Q (1 # 10)))
        * (1 + tolerance))%Q.
Proof.
  destruct (C1_dtilde_formula (T_tenth binary64) (p_three binary64) 2)
    as (dtilde & Hrun & _ & _ & Hcell);
    [by_compute | reflexivity | reflexivity | reflexivity |].
  destruct (Hcell 0 1 (b64_of_Z 3) (b64_of_Z 3)
              (b64_of_Q (1 # 10)) (b64_of_Q (1 # 10)))
    as (_ & _ & Hacc);
    [by vm_compute | by vm_compute | by vm_compute | by vm_compute |].
  destruct Hacc as (Hx & Fx & Hb);
    [exact I | exact I | exact I | exact I | |].
  { repeat split; left; by vm_compute. }
  eexists dtilde, _. split; [exact Hrun|]. split; [exact Hx|].
  split; [exact Fx|exact Hb].
Defined.

(** C1 as stated fails: the populations 10^308 and 10^308 are positive, the
    two costs are 1 and 2, and the weighted average is 3/2; the sum of the
    populations overflows, the quotient is inf / inf, and d̃[0,1] is 0. *)
Lemma C1_counterexample :
  p_huge binary64 = [b64_of_Z (10 ^ 308); b64_of_Z (10 ^ 308)] ∧
  pos_finite (b64_of_Z (10 ^ 308)) ∧
  cell (T_two binary64) 0 1 = Some (b64_of_Z 1) ∧
  cell (T_two binary64) 1 0 = Some (b64_of_Z 2) ∧
  (spec_weighted_mean (b64_value (b64_of_Z (10 ^ 308)))
     (b64_value (b64_of_Z (10 ^ 308)))
     (b64_value (b64_of_Z 1)) (b64_value (b64_of_Z 2)) == 3 # 2)%Q ∧
  (dtilde ← compute_dtilde_matrix (T_two binary64) (p_huge binary64);
   getitem dtilde 0 1) = Ok czero.
Proof.
  split; [by_compute|]. split; [by vm_compute|].
  split; [by_compute|]. split; [by_compute|].
  split; [by vm_compute|by_compute].
Qed.

(** C2.  On an n×n matrix d̃ and a population vector [p] of length n,
    [compute_d_matrix] returns the n×n matrix d given, for every pair i, j,
    by four cases on [p], read from d̃ and [p] alone: 0 if p[i] = 0 and
    p[j] = 0; d̃[j,i] if p[i] = 0 and p[j] ≠ 0; d̃[i,j] if p[j] = 0 and
    p[i] ≠ 0; and (p[i]·d̃[i,j] + p[j]·d̃[j,i]) / (p[i] + p[j]) otherwise.
    In every model of the cells. *)
Theorem C2_d_four_cases {C : Type} `{!Cell C} (dtilde : ndarray C)
    (p : list C) (n : nat) :
  wf dtilde → shape0 dtilde = n → shape1 dtilde = n → length p = n →
  ∃ d,
    compute_d_matrix dtilde p = Ok d ∧ shape0 d = n ∧ shape1 d = n ∧
    ∀ i j pi pj dij dji,
      p !! i = Some pi → p !! j = Some pj →
      cell dtilde i j = Some dij → cell dtilde j i = Some dji →
      (eq0 pi = true → eq0 pj = true → cell d i j = Some czero) ∧
      (eq0 pi = true → eq0 pj = false → cell d i j = Some dji) ∧
      (eq0 pi = false → eq0 pj = true → cell d i j = Some dij) ∧
      (eq0 pi = false → eq0 pj = false →
         cell d i j = Some ((pi ⊗ dij ⊕ pj ⊗ dji) ⊘ (pi ⊕ pj))).
Proof.
  intros HD H0 H1 Hp.
  destruct (compute_d_matrix_ok dtilde p n HD H0 H1 Hp)
    as (d & Hrun & _ & Hs0 & Hs1 & Hcell).
  exists d. do 3 (split; [done|]).
  intros i j pi pj dij dji Hpi Hpj Hij Hji.
  rewrite (Hcell _ _ _ _ _ _ Hpi Hpj Hij Hji). unfold d_formula.
  repeat split; intros -> ->; done.
Qed.

Lemma C2_d_four_cases_witness :
  ∃ d,
    compute_d_matrix (dtilde_ex binary64) (p_ex binary64) = Ok d ∧
    shape0 d = 3 ∧ shape1 d = 3 ∧
    ∀ i j pi pj dij dji,
      p_ex binary64 !! i = Some pi → p_ex binary64 !! j = Some pj →
      cell (dtilde_ex binary64) i j = Some dij →
      cell (dtilde_ex binary64) j i = Some dji →
      (eq0 pi = true → eq0 pj = true → cell d i j = Some czero) ∧
      (eq0 pi = true → eq0 pj = false → cell d i j = Some dji) ∧
      (eq0 pi = false → eq0 pj = true → cell d i j = Some dij) ∧
      (eq0 pi = false → eq0 pj = false →
         cell d i j = Some ((pi ⊗ dij ⊕ pj ⊗ dji) ⊘ (pi ⊕ pj))).
Proof.
  apply (C2_d_four_cases (dtilde_ex binary64) (p_ex binary64) 3);
    [by_compute | reflexivity..].
Defined.

(** C3, as amended.  For populations [0, 10, 20] and
    T = [[0,4,6],[5,0,3],[7,2,0]]: d̃[0,1] = 5, d̃[1,2] = 7/3, and
    d[0,1] = d̃[1,0] = 5 (the zero-population fallback for index 0; the
    value is (10·5 + 0·4)/10, not 4).  In exact arithmetic, and in double
    precision, where 7/3 stands for the double nearest to it. *)
Theorem C3_concrete_scenario :
  (compute_dtilde_matrix (T_ex xrat) (p_ex xrat) = Ok (dtilde_ex xrat) ∧
   compute_d_matrix (dtilde_ex xrat) (p_ex xrat) = Ok (d_ex xrat) ∧
   cell (dtilde_ex xrat) 0 1 = Some (Fin (Q2Qc 5)) ∧
   cell (dtilde_ex xrat) 1 2 = Some (Fin (Q2Qc (7 # 3))) ∧
   cell (d_ex xrat) 0 1 = cell (dtilde_ex xrat) 1 0 ∧
   cell (d_ex xrat) 0 1 = Some (Fin (Q2Qc 5))) ∧
  (compute_dtilde_matrix (T_ex binary64) (p_ex binary64) = Ok (dtilde_ex binary64) ∧
   compute_d_matrix (dtilde_ex binary64) (p_ex binary64) = Ok (d_ex binary64) ∧
   cell (dtilde_ex binary64) 0 1 = Some (b64_of_Z 5) ∧
   cell (dtilde_ex binary64) 1 2 = Some (b64_of_Q (7 # 3)) ∧
   cell (d_ex binary64) 0 1 = cell (dtilde_ex binary64) 1 0 ∧
   cell (d_ex binary64) 0 1 = Some (b64_of_Z 5)).
Proof. repeat split; by_compute. Qed.

(** C3 as stated fails: d[0,1] is 5, not 4 (in double precision, as in
    exact arithmetic). *)
Lemma C3_counterexample :
  (dtilde ← compute_dtilde_matrix (T_ex binary64) (p_ex binary64);
   d ← compute_d_matrix dtilde (p_ex binary64);
   getitem d 0 1) = Ok (b64_of_Z 5) ∧
  b64_of_Z 5 ≠ b64_of_Z 4.
Proof. split; by_compute. Qed.




(** C5.  When p[k] = 0, the final matrix d of the two passes satisfies
    d[k,j] = d̃[j,k] for every j ≠ k, and d[k,k] = 0.  In every model of the
    cells. *)
Theorem C5_zero_population_row {C : Type} `{!Cell C} `{!CellLaws C}
    (T : ndarray C) (p : list C) (n k : nat) (pk : C) :
  wf T → shape0 T = n → shape1 T = n → length p = n →
  p !! k = Some pk → eq0 pk = true →
  ∃ dtilde d,
    compute_dtilde_matrix T p = Ok dtilde ∧
    compute_d_matrix dtilde p = Ok d ∧
    (∀ j, j < n → j ≠ k →
       ∃ x, cell d k j = Some x ∧ cell dtilde j k = Some x) ∧
    cell d k k = Some czero.
Proof.
  intros HT H0 H1 Hp Hk Hz.
  assert (k < n) as Hkn by (rewrite <- Hp; by eapply lookup_lt_Some).
  destruct (two_passes_ok T p n HT H0 H1 Hp) as (dtilde & d & Hr1 & Hr2 & Hcell).
  exists dtilde, d. do 2 (split; [done|]). split.
  - intros j Hj _.
    destruct (square_reads T p n k j)
      as (? & pj & tkj & tjk & Hpk & Hpj & Hkj & Hjk); try done.
    destruct (Hcell _ _ _ _ _ _ Hk Hpj Hkj Hjk) as (_ & Hx & Hd).
    rewrite Hx, Hd. cbv zeta. rewrite d_formula_zero_l by done.
    destruct (eq0 pj) eqn:Hzj; [|by eexists].
    rewrite dtilde_formula_zero_pop by done. by eexists.
  - destruct (square_reads T p n k k)
      as (? & ? & tkk & ? & _ & _ & Hkk & _); try done.
    destruct (Hcell _ _ _ _ _ _ Hk Hk Hkk Hkk) as (_ & _ & Hd).
    rewrite Hd. cbv zeta. by rewrite d_formula_zero_l, Hz.
Qed.

Lemma C5_zero_population_row_witness :
  ∃ dtilde d,
    compute_dtilde_matrix (T_ex binary64) (p_ex binary64) = Ok dtilde ∧
    compute_d_matrix dtilde (p_ex binary64) = Ok d ∧
    (∀ j, j < 3 → j ≠ 0 →
       ∃ x, cell d 0 j = Some x ∧ cell dtilde j 0 = Some x) ∧
    cell d 0 0 = Some czero.
Proof.
  apply (C5_zero_population_row (T_ex binary64) (p_ex binary64) 3 0 czero);
    [by_compute | reflexivity..].
Defined.

(** C6.  For every raw travel matrix [T], symmetric or not, and every
    population vector [p], the final matrix d of the two passes is
    symmetric: d[i,j] and d[j,i] hold the same value, for all i, j.  In
    every model of the cells. *)
Theorem C6_d_symmetric {C : Type} `{!Cell C} `{!CellLaws C}
    (T : ndarray C) (p : list C) (n : nat) :
  wf T → shape0 T = n → shape1 T = n → length p = n →
  ∃ dtilde d,
    compute_dtilde_matrix T p = Ok dtilde ∧
    compute_d_matrix dtilde p = Ok d ∧
    ∀ i j, i < n → j < n →
      ∃ x, cell d i j = Some x ∧ cell d j i = Some x.
Proof.
  intros HT H0 H1 Hp.
  destruct (two_passes_ok T p n HT H0 H1 Hp) as (dtilde & d & Hr1 & Hr2 & Hcell).
  exists dtilde, d. do 2 (split; [done|]).
  intros i j Hi Hj.
  destruct (square_reads T p n i j)
    as (pi & pj & tij & tji & Hpi & Hpj & Hij & Hji); try done.
  destruct (Hcell _ _ _ _ _ _ Hpi Hpj Hij Hji) as (_ & _ & Hd).
  destruct (Hcell _ _ _ _ _ _ Hpj Hpi Hji Hij) as (_ & _ & Hd').
  cbv zeta in Hd, Hd'.
  rewrite <- dtilde_formula_sym, <- d_formula_sym in Hd'.
  by eexists.
Qed.

Lemma C6_d_symmetric_witness :
  ∃ dtilde d,
    compute_dtilde_matrix (T_ex binary64) (p_ex binary64) = Ok dtilde ∧
    compute_d_matrix dtilde (p_ex binary64) = Ok d ∧
    ∀ i j, i < 3 → j < 3 →
      ∃ x, cell d i j = Some x ∧ cell d j i = Some x.
Proof.
  apply (C6_d_symmetric (T_ex binary64) (p_ex binary64) 3);
    [by_compute | reflexivity..].
Defined.

(** C7, on the one-way street, in double precision: node 0 cannot be
    reached from node 1; the query of the pairwise strategy for the pair
    (1, 0) raises [NetworkXNoPath] and [compute_matrices] ends there, with
    no matrix saved; [compute_full_drive_matrix] records [nan] in that
    cell. *)
Theorem C7_pairwise_raises_on_unreachable :
  G_oneway binary64 1 0 = None ∧
  compute_matrices_drive (G_oneway binary64) [0; 1] = Raise NetworkXNoPath ∧
  compute_matrices (G_oneway binary64) (G_line binary64) [0; 1] [0; 1]
    "Fulton" "GA" "2025-06-08" true true = ([], Raise NetworkXNoPath) ∧
  ∃ D, compute_full_drive_matrix (G_oneway binary64) [0; 1] = Ok D ∧
       cell D 1 0 = Some cnan ∧ cell D 0 1 = Some (b64_of_Z 60).
Proof.
  split; [done|]. split; [by_compute|]. split; [by vm_compute|].
  eexists. split; [by vm_compute|]. split; by_compute.
Qed.

(** C8.  A walk matrix W is symmetric, W[i,j] = W[j,i] for all i, j, under
    both strategies, and both cells of a pair hold one query result: a path
    length divided by 1.42.  The pairwise strategy makes one query per
    pair, from the point of smaller index to the other one, and writes its
    result into the cells (i, j) and (j, i).  The per-source strategy
    always returns; it writes each length it finds, divided by 1.42, into
    both cells, a later store replacing an earlier one, so that both cells
    hold the result from the point of larger index to the other one when
    there is such a path, else the result the other way round, else [nan].
    In every model of the cells. *)
Theorem C8_walk_matrix_symmetric {C : Type} `{!Cell C} `{!CellLaws C}
    (Gw : graph C) (nodes : list nat) :
  (∀ W, compute_matrices_walk Gw nodes = Ok W →
     (∀ i j, cell W i j = cell W j i) ∧
     (∀ i j s t, i < j → nodes !! i = Some s → nodes !! j = Some t →
        ∃ length_m, Gw s t = Some length_m ∧
          cell W i j = Some (length_m ⊘ walk_speed) ∧
          cell W j i = Some (length_m ⊘ walk_speed))) ∧
  (∃ W, compute_full_walk_matrix Gw nodes walk_speed = Ok W ∧
        (∀ i j, cell W i j = cell W j i) ∧
        (∀ i j s t, i ≤ j → nodes !! i = Some s → nodes !! j = Some t →
           ∃ x, cell W i j = Some x ∧ cell W j i = Some x ∧
                x = match Gw t s, Gw s t with
                    | Some length_m, _ => length_m ⊘ walk_speed
                    | None, Some length_m => length_m ⊘ walk_speed
                    | None, None => cnan
                    end)).
Proof.
  split.
  - intros W HW. split.
    + by apply (compute_matrices_walk_symmetric Gw nodes).
    + by apply compute_matrices_walk_cells.
  - destruct (compute_full_walk_matrix_symmetric Gw nodes walk_speed
                eq0_walk_speed) as (W & HW & _ & _ & _ & Hsym).
    destruct (compute_full_walk_matrix_cells Gw nodes walk_speed
                eq0_walk_speed) as (W' & HW' & _ & _ & _ & Hcells).
    assert (W' = W) as -> by congruence.
    exists W. split; [done|]. split; [exact Hsym|].
    intros i j s t Hij Hs Ht.
    assert (i < length nodes) as Hi by (by eapply lookup_lt_Some).
    assert (j < length nodes) as Hj by (by eapply lookup_lt_Some).
    eexists. split; [by apply Hcells|]. split.
    + rewrite <- (Hsym i j). by apply Hcells.
    + unfold full_walk_cell, walk_leg.
      rewrite Nat.min_l, Nat.max_r by lia. rewrite Hs, Ht. simpl.
      by destruct (Gw t s), (Gw s t).
Qed.

Lemma C8_walk_matrix_symmetric_witness :
  (∃ W, compute_matrices_walk (G_line binary64) [0; 1; 2] = Ok W ∧
        (∀ i j, cell W i j = cell W j i) ∧
        cell W 0 2 = Some (b64_of_Z 200)) ∧
  (∃ W, compute_full_walk_matrix (G_oneway binary64) [0; 1] walk_speed = Ok W ∧
        (∀ i j, cell W i j = cell W j i) ∧
        cell W 0 1 = Some (b64_of_Z 60 ⊘ walk_speed) ∧
        cell W 1 0 = Some (b64_of_Z 60 ⊘ walk_speed)).
Proof.
  split.
  - eexists. split; [by vm_compute|]. split.
    + apply (proj1 (C8_walk_matrix_symmetric (G_line binary64) [0; 1; 2])).
      by vm_compute.
    + by_compute.
  - destruct (proj2 (C8_walk_matrix_symmetric (G_oneway binary64) [0; 1]))
      as (W & HW & Hsym & Hcells).
    exists W. split; [exact HW|]. split; [exact Hsym|].
    destruct (Hcells 0 1 0 1) as (x & H01 & H10 & Hx);
      [lia | reflexivity | reflexivity |].
    assert (x = b64_of_Z 60 ⊘ walk_speed) as -> by (rewrite Hx; by vm_compute).
    by split.
Defined.

(** C9.  [process_files] raises, and writes nothing, when the row count of
    the travel matrix differs from the length of the population vector;
    [load_labeled_matrix] raises when the row count of the matrix differs
    from the number of tract identifiers.  Neither produces a labeled
    matrix. *)
Theorem C9_dimension_mismatch_rejected {C : Type} `{!Cell C}
    (travel_type base_name : string) (df : list (tract_row C))
    (matrix : ndarray C) :
  (shape0 matrix ≠ length (population_column df) →
     process_files travel_type base_name df matrix
     = ([], Raise (ValueError
         "Mismatch: travel matrix size does not match number of population entries."))) ∧
  (shape0 matrix ≠ length (id_column df) →
     load_labeled_matrix matrix df
     = Raise (ValueError "Matrix size and number of IDs do not match.")).
Proof.
  split; intros Hne.
  - unfold process_files.
    by destruct (Nat.eqb_spec (shape0 matrix) (length (population_column df))).
  - unfold load_labeled_matrix.
    by destruct (Nat.eqb_spec (shape0 matrix) (length (id_column df))).
Qed.

Lemma C9_dimension_mismatch_rejected_witness :
  process_files "drive" "AtlantaGA" (df_short binary64) (T_ex binary64)
  = ([], Raise (ValueError
      "Mismatch: travel matrix size does not match number of population entries.")) ∧
  load_labeled_matrix (T_ex binary64) (df_short binary64)
  = Raise (ValueError "Matrix size and number of IDs do not match.").
Proof.
  split.
  - apply (proj1 (C9_dimension_mismatch_rejected "drive" "AtlantaGA"
                    (df_short binary64) (T_ex binary64))).
    simpl. lia.
  - apply (proj2 (C9_dimension_mismatch_rejected "drive" "AtlantaGA"
                    (df_short binary64) (T_ex binary64))).
    simpl. lia.
Defined.

(** C10, as amended.  In double precision, for populations and costs that
    are zero or positive, when no step of the quotient overflows or
    underflows (so that p[i] + p[j] > 0), d̃[i,j] lies between the two
    directed costs up to a relative error of 2^-49:
    min(T[i,j], T[j,i])·(1 - 2^-49) ≤ d̃[i,j] ≤ max(T[i,j], T[j,i])·(1 + 2^-49);
    and when p[i] = p[j] it is their arithmetic mean up to the same
    relative error. *)
Theorem C10_dtilde_between (T : ndarray binary64) (p : list binary64)
    (n i j : nat) (pi pj tij tji : binary64) :
  wf T → shape0 T = n → shape1 T = n → length p = n →
  p !! i = Some pi → p !! j = Some pj →
  cell T i j = Some tij → cell T j i = Some tji →
  nonneg_finite pi → nonneg_finite pj →
  nonneg_finite tij → nonneg_finite tji →
  normal_steps pi pj tij tji →
  ∃ dtilde x,
    compute_dtilde_matrix T p = Ok dtilde ∧
    cell dtilde i j = Some x ∧
    nonneg_finite x ∧
    (Qmin (b64_value tij) (b64_value tji) * (1 - tolerance) <= b64_value x
     <= Qmax (b64_value tij) (b64_value tji) * (1 + tolerance))%Q ∧
    (pi = pj →
     ((b64_value tij + b64_value tji) / 2 * (1 - tolerance) <= b64_value x
      <= (b64_value tij + b64_value tji) / 2 * (1 + tolerance))%Q).
Proof.
  intros HT H0 H1 Hp Hpi Hpj Hij Hji Fpi Fpj Fij Fji Hsteps.
  destruct (dtilde_cell_accurate T p n i j pi pj tij tji)
    as (dtilde & x & Hrun & Hx & _ & Fx & Hlo & Hhi); try done.
  exists dtilde, x. do 3 (split; [done|]).
  pose proof (nonneg_finite_value _ Fpi) as Ppi.
  pose proof (nonneg_finite_value _ Fpj) as Ppj.
  pose proof (nonneg_finite_value _ Fij) as Pij.
  pose proof (nonneg_finite_value _ Fji) as Pji.
  assert (0 < b64_value pi + b64_value pj)%Q as PP.
  { destruct Hsteps as (_ & _ & _ & Hd & _).
    pose proof (pos_finite_pos _ (pos_normal_finite _ Hd)) as Pd.
    destruct (SFadd_fine pi pj Fpi Fpj (or_introl Hd)) as [[Hd1 _] _].
    cbn [cadd binary64_cell] in Pd. unfold ulp53 in Hd1. lra. }
  destruct (spec_weighted_mean_between (b64_value pi) (b64_value pj)
              (b64_value tij) (b64_value tji) Ppi Ppj PP) as [Hmin Hmax].
  set (w := spec_weighted_mean (b64_value pi) (b64_value pj)
              (b64_value tij) (b64_value tji)) in *.
  assert (0 <= Qmin (b64_value tij) (b64_value tji))%Q as Plo.
  { apply Q.min_glb; done. }
  split.
  - unfold tolerance in *. split.
    + eapply Qle_trans; [|exact Hlo].
      apply Qmult_le_compat_r; [exact Hmin|lra].
    + eapply Qle_trans; [exact Hhi|].
      apply Qmult_le_compat_r; [exact Hmax|lra].
  - intros <-.
    assert (0 < b64_value pi)%Q as Ppi' by lra.
    pose proof (spec_weighted_mean_equal (b64_value pi) (b64_value tij)
                  (b64_value tji) Ppi') as Heq.
    fold w in Heq. rewrite <- Heq. by split.
Qed.

Lemma C10_dtilde_between_witness :
  ∃ dtilde x,
    compute_dtilde_matrix (T_tenth binary64) (p_three binary64) = Ok dtilde ∧
    cell dtilde 0 1 = Some x ∧
    nonneg_finite x ∧
    (Qmin (b64_value (b64_of_Q (1 # 10))) (b64_value (b64_of_Q (1 # 10)))
       * (1 - tolerance) <= b64_value x
     <= Qmax (b64_value (b64_of_Q (1 # 10))) (b64_value (b64_of_Q (1 # 10)))
          * (1 + tolerance))%Q ∧
    ((b64_value (b64_of_Q (1 # 10)) + b64_value (b64_of_Q (1 # 10))) / 2
       * (1 - tolerance) <= b64_value x
     <= (b64_value (b64_of_Q (1 # 10)) + b64_value (b64_of_Q (1 # 10))) / 2
          * (1 + tolerance))%Q.
Proof.
  destruct (C10_dtilde_between (T_tenth binary64) (p_three binary64) 2 0 1
              (b64_of_Z 3) (b64_of_Z 3) (b64_of_Q (1 # 10)) (b64_of_Q (1 # 10)))
    as (dtilde & x & Hrun & Hx & Fx & Hbetween & Hmean);
    [ by_compute | reflexivity | reflexivity | reflexivity
    | by vm_compute | by vm_compute | by vm_compute | by vm_compute
    | exact I | exact I | exact I | exact I
    | repeat split; left; by vm_compute | ].
  exists dtilde, x. do 3 (split; [assumption|]).
  split; [exact Hbetween|exact (Hmean eq_refl)].
Defined.

(** C10 as stated fails in double precision: with T[0,1] = T[1,0] = 0.1
    and populations 3 and 3, the cell d̃[0,1] is the double above 0.1, so it
    exceeds the maximum of the two costs, and it is not their mean. *)
Lemma C10_counterexample :
  cell (T_tenth binary64) 0 1 = Some (b64_of_Q (1 # 10)) ∧
  cell (T_tenth binary64) 1 0 = Some (b64_of_Q (1 # 10)) ∧
  p_three binary64 = [b64_of_Z 3; b64_of_Z 3] ∧
  ∃ v,
    (dtilde ← compute_dtilde_matrix (T_tenth binary64) (p_three binary64);
     getitem dtilde 0 1) = Ok v ∧
    SFltb (b64_of_Q (1 # 10)) v = true ∧
    v ≠ SFdiv 53 1024
          (SFadd 53 1024 (b64_of_Q (1 # 10)) (b64_of_Q (1 # 10))) (b64_of_Z 2).
Proof.
  do 3 (split; [by_compute|]).
  eexists. split; [by vm_compute|]. split; by_compute.
Qed.
(** * Further properties of the code *)


(** ** The two passes *)

Section more_passes.
Context {C : Type} `{!Cell C}.
Implicit Types (T D Dt : ndarray C) (p : list C).

(** Every value the second pass reads is in the matrix, or the read raises
    [IndexError]. *)
Lemma d_entry_outcome Dt p i j :
  i < length p → j < length p →
  (∃ x, d_entry Dt p i j = Ok x) ∨ d_entry Dt p i j = Raise IndexError.
Proof.
  intros Hi Hj. unfold d_entry.
  destruct (lookup_lt_is_Some_2 p i Hi) as [pi Hpi].
  destruct (lookup_lt_is_Some_2 p j Hj) as [pj Hpj].
  rewrite (getitem1_ok _ _ _ Hpi), (getitem1_ok _ _ _ Hpj). cbn [mbind res_bind].
  unfold getitem.
  destruct (eq0 pi), (eq0 pj); cbn [andb]; [by eauto| | |];
    destruct (cell Dt i j), (cell Dt j i); cbn [mbind res_bind]; eauto.
Qed.

End more_passes.

(** ** More on the two passes *)

(** X1.  On an n×n travel matrix and a population vector of length n, the
    matrix d̃ of [compute_dtilde_matrix] is already symmetric:
    d̃[i,j] and d̃[j,i] hold the same value, whether the travel matrix is
    symmetric or not.  In every model of the cells. *)
Theorem X1_dtilde_symmetric {C : Type} `{!Cell C} `{!CellLaws C}
    (T : ndarray C) (p : list C) (n : nat) :
  wf T → shape0 T = n → shape1 T = n → length p = n →
  ∃ dtilde,
    compute_dtilde_matrix T p = Ok dtilde ∧
    shape0 dtilde = n ∧ shape1 dtilde = n ∧ symmetric dtilde.
Proof.
  intros HT H0 H1 Hp.
  destruct (compute_dtilde_matrix_ok T p n HT H0 H1 Hp)
    as (D & Hrun & Hwf & Hs0 & Hs1 & Hcell).
  exists D. do 3 (split; [done|]).
  apply (square_symmetric D n); try done.
  intros i j Hi Hj.
  destruct (square_reads T p n i j HT H0 H1 Hp Hi Hj)
    as (pi & pj & tij & tji & Hpi & Hpj & Hij & Hji).
  rewrite (Hcell _ _ _ _ _ _ Hpi Hpj Hij Hji), (Hcell _ _ _ _ _ _ Hpj Hpi Hji Hij).
  by rewrite dtilde_formula_sym.
Qed.

Lemma X1_dtilde_symmetric_witness :
  ∃ dtilde,
    compute_dtilde_matrix (T_ex binary64) (p_ex binary64) = Ok dtilde ∧
    shape0 dtilde = 3 ∧ shape1 dtilde = 3 ∧ symmetric dtilde.
Proof.
  apply (X1_dtilde_symmetric (T_ex binary64) (p_ex binary64) 3);
    [by_compute | reflexivity..].
Defined.

(** X2.  [compute_d_matrix] symmetrizes on its own: on every n×n matrix,
    symmetric or not, and every population vector of length n, its result d
    satisfies d[i,j] = d[j,i].  In every model of the cells. *)
Theorem X2_d_matrix_symmetrizes {C : Type} `{!Cell C} `{!CellLaws C}
    (dtilde : ndarray C) (p : list C) (n : nat) :
  wf dtilde → shape0 dtilde = n → shape1 dtilde = n → length p = n →
  ∃ d,
    compute_d_matrix dtilde p = Ok d ∧
    shape0 d = n ∧ shape1 d = n ∧ symmetric d.
Proof.
  intros HD H0 H1 Hp.
  destruct (compute_d_matrix_ok dtilde p n HD H0 H1 Hp)
    as (d & Hrun & Hwf & Hs0 & Hs1 & Hcell).
  exists d. do 3 (split; [done|]).
  apply (square_symmetric d n); try done.
  intros i j Hi Hj.
  destruct (square_reads dtilde p n i j HD H0 H1 Hp Hi Hj)
    as (pi & pj & dij & dji & Hpi & Hpj & Hij & Hji).
  rewrite (Hcell _ _ _ _ _ _ Hpi Hpj Hij Hji), (Hcell _ _ _ _ _ _ Hpj Hpi Hji Hij).
  by rewrite d_formula_sym.
Qed.

Lemma X2_d_matrix_symmetrizes_witness :
  ∃ d,
    compute_d_matrix (T_ex binary64) (p_ex binary64) = Ok d ∧
    shape0 d = 3 ∧ shape1 d = 3 ∧ symmetric d.
Proof.
  apply (X2_d_matrix_symmetrizes (T_ex binary64) (p_ex binary64) 3);
    [by_compute | reflexivity..].
Defined.

(** X3.  The second pass against the first, in double precision.  Where
    p[i] or p[j] is zero, d[i,j] is the double d̃[i,j] itself.  Where both
    are positive and d̃[i,j] is zero or positive, when no step of the second
    quotient overflows or underflows, d[i,j] is d̃[i,j] up to a relative
    error of 2^-49 (it need not be the same double). *)
Theorem X3_second_pass_accurate (T dtilde : ndarray binary64)
    (p : list binary64) (n i j : nat) (pi pj x : binary64) :
  wf T → shape0 T = n → shape1 T = n → length p = n →
  compute_dtilde_matrix T p = Ok dtilde →
  p !! i = Some pi → p !! j = Some pj →
  cell dtilde i j = Some x →
  ∃ d y,
    compute_d_matrix dtilde p = Ok d ∧
    cell d i j = Some y ∧
    (eq0 pi = true ∨ eq0 pj = true → y = x) ∧
    (pos_finite pi → pos_finite pj → nonneg_finite x →
     normal_steps pi pj x x →
     nonneg_finite y ∧
     (b64_value x * (1 - tolerance) <= b64_value y
      <= b64_value x * (1 + tolerance))%Q).
Proof.
  intros HT H0 H1 Hp Hrun Hpi Hpj Hx.
  destruct (two_passes_ok T p n HT H0 H1 Hp) as (dtilde' & d & Hr1 & Hr2 & Hcell).
  assert (dtilde' = dtilde) as -> by congruence.
  assert (i < n) as Hi by (rewrite <- Hp; by eapply lookup_lt_Some).
  assert (j < n) as Hj by (rewrite <- Hp; by eapply lookup_lt_Some).
  destruct (square_reads T p n i j HT H0 H1 Hp Hi Hj)
    as (pi' & pj' & tij & tji & Hpi' & Hpj' & Hij & Hji).
  assert (pi' = pi) as -> by congruence.
  assert (pj' = pj) as -> by congruence.
  destruct (Hcell _ _ _ _ _ _ Hpi Hpj Hij Hji) as (Hx' & _ & Hd).
  cbv zeta in Hx', Hd.
  assert (unnan (dtilde_formula pi pj tij tji) = x) as Hq by congruence.
  rewrite Hq in Hd.
  exists d, (d_formula pi pj x x). do 2 (split; [done|]). split.
  - intros Hzero. unfold d_formula.
    destruct (eq0 pi) eqn:Ei, (eq0 pj) eqn:Ej; cbn [andb]; try done.
    + rewrite <- Hq. symmetry. by apply dtilde_formula_zero_pop.
    + by destruct Hzero.
  - intros Fpi Fpj Fx Hsteps.
    assert (d_formula pi pj x x = dtilde_formula pi pj x x) as ->.
    { unfold d_formula, dtilde_formula.
      destruct pi as [| | |[] mi ei]; try done.
      by destruct pj as [| | |[] mj ej]. }
    destruct (dtilde_formula_accurate pi pj x x) as [Fy [Hlo Hhi]];
      try done; try by apply pos_finite_nonneg.
    split; [done|].
    pose proof (pos_finite_pos _ Fpi). pose proof (pos_finite_pos _ Fpj).
    pose proof (spec_weighted_mean_same (b64_value pi) (b64_value pj)
                  (b64_value x) ltac:(lra)) as Heq.
    rewrite Heq in Hlo, Hhi. by split.
Qed.

Lemma X3_second_pass_accurate_witness :
  ∃ d y,
    compute_d_matrix (dtilde_ex binary64) (p_ex binary64) = Ok d ∧
    cell d 1 2 = Some y ∧
    nonneg_finite y ∧
    (b64_value (b64_of_Q (7 # 3)) * (1 - tolerance) <= b64_value y
     <= b64_value (b64_of_Q (7 # 3)) * (1 + tolerance))%Q.
Proof.
  destruct (X3_second_pass_accurate (T_ex binary64) (dtilde_ex binary64)
              (p_ex binary64) 3 1 2 (b64_of_Z 10) (b64_of_Z 20)
              (b64_of_Q (7 # 3)))
    as (d & y & Hrun & Hy & _ & Hacc);
    [ by_compute | reflexivity | reflexivity | reflexivity
    | by vm_compute | by vm_compute | by vm_compute | by vm_compute | ].
  destruct Hacc as [Fy Hb]; [exact I | exact I | exact I | |].
  { repeat split; left; by vm_compute. }
  exists d, y. split; [exact Hrun|]. split; [exact Hy|].
  split; [exact Fy|exact Hb].
Defined.

(** X4.  The diagonal, in double precision, for a population p[i] and a
    cost T[i,i] that are zero or positive.  A zero T[i,i] gives a zero
    d̃[i,i], whatever p[i] is.  When no step of the quotient overflows or
    underflows, d̃[i,i] is T[i,i] up to a relative error of 2^-49 (it need
    not be the same double). *)
Theorem X4_diagonal_kept (T : ndarray binary64) (p : list binary64)
    (n i : nat) (pi t : binary64) :
  wf T → shape0 T = n → shape1 T = n → length p = n →
  p !! i = Some pi → cell T i i = Some t →
  nonneg_finite pi → nonneg_finite t →
  ∃ dtilde x,
    compute_dtilde_matrix T p = Ok dtilde ∧
    cell dtilde i i = Some x ∧
    (eq0 t = true → eq0 x = true) ∧
    (normal_steps pi pi t t →
     nonneg_finite x ∧
     (b64_value t * (1 - tolerance) <= b64_value x
      <= b64_value t * (1 + tolerance))%Q).
Proof.
  intros HT H0 H1 Hp Hpi Hii Fpi Ft.
  destruct (compute_dtilde_matrix_ok T p n HT H0 H1 Hp)
    as (dtilde & Hrun & _ & _ & _ & Hcell).
  pose proof (Hcell _ _ _ _ _ _ Hpi Hpi Hii Hii) as Hx.
  exists dtilde, (unnan (dtilde_formula pi pi t t)).
  do 2 (split; [done|]). split.
  - intros Hz. by apply dtilde_formula_zero_costs.
  - intros Hsteps.
    destruct (dtilde_formula_accurate pi pi t t Fpi Fpi Ft Ft Hsteps)
      as [Fq [Hlo Hhi]].
    rewrite unnan_id by (by apply nonneg_finite_not_nan).
    split; [done|].
    assert (0 < b64_value pi + b64_value pi)%Q as PP.
    { destruct Hsteps as (_ & _ & _ & Hd & _).
      pose proof (pos_finite_pos _ (pos_normal_finite _ Hd)) as Pd.
      destruct (SFadd_fine pi pi Fpi Fpi (or_introl Hd)) as [[Hd1 _] _].
      cbn [cadd binary64_cell] in Pd. unfold ulp53 in Hd1. lra. }
    pose proof (spec_weighted_mean_same (b64_value pi) (b64_value pi)
                  (b64_value t) PP) as Heq.
    rewrite Heq in Hlo, Hhi. by split.
Qed.

Lemma X4_diagonal_kept_witness :
  (∃ dtilde x,
     compute_dtilde_matrix (T_ex binary64) (p_ex binary64) = Ok dtilde ∧
     cell dtilde 1 1 = Some x ∧ eq0 x = true) ∧
  (∃ dtilde x,
     compute_dtilde_matrix (T_self binary64) (p_self binary64) = Ok dtilde ∧
     cell dtilde 0 0 = Some x ∧
     nonneg_finite x ∧
     (b64_value (b64_of_Q (1 # 10)) * (1 - tolerance) <= b64_value x
      <= b64_value (b64_of_Q (1 # 10)) * (1 + tolerance))%Q).
Proof.
  split.
  - destruct (X4_diagonal_kept (T_ex binary64) (p_ex binary64) 3 1
                (b64_of_Z 10) (b64_of_Z 0))
      as (dtilde & x & Hrun & Hx & Hzero & _);
      [ by_compute | reflexivity | reflexivity | reflexivity
      | by vm_compute | by vm_compute | exact I | exact I | ].
    exists dtilde, x. split; [exact Hrun|]. split; [exact Hx|].
    by apply Hzero.
  - destruct (X4_diagonal_kept (T_self binary64) (p_self binary64) 1 0
                (b64_of_Z 3) (b64_of_Q (1 # 10)))
      as (dtilde & x & Hrun & Hx & _ & Hacc);
      [ by_compute | reflexivity | reflexivity | reflexivity
      | by vm_compute | by vm_compute | exact I | exact I | ].
    destruct Hacc as [Fx Hb].
    { repeat split; left; by vm_compute. }
    exists dtilde, x. split; [exact Hrun|]. split; [exact Hx|].
    split; [exact Fx|exact Hb].
Defined.

(** X5.  [compute_dtilde_matrix] makes no check of its own: the sizes are
    settled by numpy broadcasting.  On an n×n matrix it returns for a
    population vector of length n, of length 1, or when n = 1, and raises
    the [ValueError] of numpy for every other length. *)
Theorem X5_dtilde_broadcast {C : Type} `{!Cell C} (T : ndarray C)
    (p : list C) (n : nat) :
  shape0 T = n → shape1 T = n →
  (length p = n ∨ length p = 1 ∨ n = 1 →
     ∃ dtilde, compute_dtilde_matrix T p = Ok dtilde) ∧
  (length p ≠ n → length p ≠ 1 → n ≠ 1 →
     compute_dtilde_matrix T p
     = Raise (ValueError "operands could not be broadcast together")).
Proof.
  intros H0 H1.
  unfold compute_dtilde_matrix, np_mul, np_add, np_div, broadcast; simpl.
  rewrite H0, H1. split.
  - intros [Hm|[Hm| ->]]; rewrite ?Hm;
      repeat (rewrite ?bdim_same, ?bdim_one_l, ?bdim_one_r; simpl);
      by eexists.
  - intros Hne Hm1 Hn1.
    assert (bdim (length p) n
            = Raise (ValueError "operands could not be broadcast together"))
      as ->; [|done].
    unfold bdim.
    destruct (Nat.eqb_spec (length p) n); [done|].
    destruct (Nat.eqb_spec (length p) 1); [done|].
    by destruct (Nat.eqb_spec n 1).
Qed.

Lemma X5_dtilde_broadcast_witness :
  (∃ dtilde, compute_dtilde_matrix (T_ex binary64) (p_ex binary64) = Ok dtilde) ∧
  compute_dtilde_matrix (T_ex binary64) (p_nan binary64)
  = Raise (ValueError "operands could not be broadcast together").
Proof.
  split.
  - apply (proj1 (X5_dtilde_broadcast (T_ex binary64) (p_ex binary64) 3
                    eq_refl eq_refl)).
    by left.
  - apply (proj2 (X5_dtilde_broadcast (T_ex binary64) (p_nan binary64) 3
                    eq_refl eq_refl)); simpl; lia.
Defined.

(** X6.  A population vector of length 1 is taken as one population for
    every tract: on an n×n matrix, [compute_dtilde_matrix] returns the n×n
    matrix of the quotients (q·T[i,j] + q·T[j,i]) / (q + q), with [nan]
    replaced by 0. *)
Theorem X6_dtilde_single_population {C : Type} `{!Cell C} (T : ndarray C)
    (q : C) (n : nat) :
  wf T → shape0 T = n → shape1 T = n →
  ∃ dtilde,
    compute_dtilde_matrix T [q] = Ok dtilde ∧
    shape0 dtilde = n ∧ shape1 dtilde = n ∧
    ∀ i j tij tji,
      cell T i j = Some tij → cell T j i = Some tji →
      cell dtilde i j = Some (unnan ((q ⊗ tij ⊕ q ⊗ tji) ⊘ (q ⊕ q))).
Proof.
  intros HT H0 H1.
  unfold compute_dtilde_matrix, np_mul, np_add, np_div, broadcast; simpl.
  rewrite H0, H1.
  repeat (rewrite ?bdim_same, ?bdim_one_l, ?bdim_one_r; simpl).
  eexists; split; [reflexivity|].
  split; [done|]. split; [done|].
  intros i j tij tji Hij Hji.
  destruct (cell_lt _ _ _ _ HT Hij) as [Hi Hj]. rewrite H0 in Hi. rewrite H1 in Hj.
  rewrite cell_nan_to_zero, cell_tabulate by done; simpl.
  repeat (rewrite ?(bidx_lt n i), ?(bidx_lt n j), ?bidx_one by done;
          rewrite ?peek_tabulate by (done || lia)).
  rewrite (peek_cell _ _ _ _ Hij).
  unfold transpose. rewrite peek_tabulate by (rewrite ?H0, ?H1; done).
  rewrite (peek_cell _ _ _ _ Hji).
  done.
Qed.

Lemma X6_dtilde_single_population_witness :
  ∃ dtilde,
    compute_dtilde_matrix (T_ex binary64) [ofZ 5] = Ok dtilde ∧
    shape0 dtilde = 3 ∧ shape1 dtilde = 3 ∧
    ∀ i j tij tji,
      cell (T_ex binary64) i j = Some tij → cell (T_ex binary64) j i = Some tji →
      cell dtilde i j
      = Some (unnan ((ofZ 5 ⊗ tij ⊕ ofZ 5 ⊗ tji) ⊘ (ofZ 5 ⊕ ofZ 5))).
Proof.
  apply (X6_dtilde_single_population (T_ex binary64) (ofZ 5) 3);
    [by_compute | reflexivity..].
Defined.

(** X7.  When every population is 0, [compute_d_matrix] returns the n×n
    zero matrix, n the length of the population vector, and never reads the
    matrix it is given: any array will do, of any shape. *)
Theorem X7_d_zero_populations {C : Type} `{!Cell C} (dtilde : ndarray C)
    (p : list C) :
  Forall (λ x, eq0 x = true) p →
  compute_d_matrix dtilde p = Ok (np_zeros (length p) (length p)).
Proof.
  intros Hz. unfold compute_d_matrix. set (n := length p).
  destruct (for_each_total (λ d : ndarray C, d = np_zeros n n) (seq 0 n)
    (λ i d_matrix, for_each (seq 0 n) (λ j d_matrix,
       popi ← getitem1 p i;
       popj ← getitem1 p j;
       if eq0 popi && eq0 popj then setitem d_matrix i j czero
       else if eq0 popi then x ← getitem dtilde j i; setitem d_matrix i j x
       else if eq0 popj then x ← getitem dtilde i j; setitem d_matrix i j x
       else
         dij ← getitem dtilde i j;
         dji ← getitem dtilde j i;
         setitem d_matrix i j ((popi ⊗ dij ⊕ popj ⊗ dji) ⊘ (popi ⊕ popj)))
       d_matrix) (np_zeros n n)) as (d & Hd & ->); [done| |exact Hd].
  intros i d Hi%elem_of_seq ->.
  apply (for_each_total (λ d : ndarray C, d = np_zeros n n)); [done|].
  intros j d Hj%elem_of_seq ->.
  destruct (lookup_lt_is_Some_2 p i) as [pi Hpi]; [unfold n in Hi; lia|].
  destruct (lookup_lt_is_Some_2 p j) as [pj Hpj]; [unfold n in Hj; lia|].
  rewrite (getitem1_ok _ _ _ Hpi), (getitem1_ok _ _ _ Hpj). cbn [mbind res_bind].
  rewrite Forall_lookup in Hz.
  rewrite (Hz _ _ Hpi), (Hz _ _ Hpj). cbn [andb].
  exists (np_zeros n n). split; [|done].
  apply setitem_np_full_same; lia.
Qed.

Lemma X7_d_zero_populations_witness :
  compute_d_matrix (T_nan binary64) [czero; czero; czero] = Ok (np_zeros 3 3).
Proof.
  apply (X7_d_zero_populations (T_nan binary64) [czero; czero; czero]).
  by repeat constructor.
Defined.

(** X8.  [compute_d_matrix] sizes its loops by the population vector alone:
    on an m×m matrix with m smaller than the length of the vector, and a
    population that is not 0, it raises [IndexError] and returns no
    matrix. *)
Theorem X8_d_index_error {C : Type} `{!Cell C} (dtilde : ndarray C)
    (p : list C) (m k : nat) (pk : C) :
  wf dtilde → shape0 dtilde = m → shape1 dtilde = m → m < length p →
  p !! k = Some pk → eq0 pk = false →
  compute_d_matrix dtilde p = Raise IndexError.
Proof.
  intros HDt H0 H1 Hm Hk Hnz. unfold compute_d_matrix. set (n := length p).
  assert (k < n) as Hkn by (by eapply lookup_lt_Some).
  rewrite (for_each_ext _ _
    (λ i d_matrix, for_each (seq 0 n)
       (λ j d_matrix, x ← d_entry dtilde p i j; setitem d_matrix i j x) d_matrix)).
  2:{ intros i d _. apply for_each_ext. intros j d' _. apply d_round. }
  rewrite (for_each_nested (seq 0 n) (λ _, seq 0 n)
             (λ i j d_matrix, x ← d_entry dtilde p i j; setitem d_matrix i j x)).
  apply (for_each_raise (λ d : ndarray C, shape0 d = n ∧ shape1 d = n)); [done| |].
  - intros [i j] d [Hi Hj]%elem_of_grid [Hd0 Hd1]; simpl.
    destruct (d_entry_outcome dtilde p i j Hi Hj) as [[x ->]| ->]; [|by right].
    left. simpl.
    destruct (setitem_ok d i j x) as [d' Hd']; [lia..|].
    exists d'. split; [done|].
    apply setitem_shape in Hd' as [? ?]. split; congruence.
  - exists (k, n - 1). split; [apply elem_of_grid; lia|].
    intros d; simpl.
    assert (d_entry dtilde p k (n - 1) = Raise IndexError) as ->; [|done].
    destruct (lookup_lt_is_Some_2 p (n - 1)) as [pj Hpj]; [unfold n; lia|].
    unfold d_entry.
    rewrite (getitem1_ok _ _ _ Hk), (getitem1_ok _ _ _ Hpj). cbn [mbind res_bind].
    rewrite Hnz. cbn [andb]. unfold getitem.
    rewrite (cell_None_outside dtilde k (n - 1)) by (done || lia).
    by destruct (eq0 pj).
Qed.

Lemma X8_d_index_error_witness :
  compute_d_matrix (T_two binary64) (p_ex binary64) = Raise IndexError.
Proof.
  apply (X8_d_index_error (T_two binary64) (p_ex binary64) 2 1 (ofZ 10));
    [by_compute | reflexivity | reflexivity | simpl; lia | reflexivity
    | reflexivity].
Defined.

(** ** Saving and loading *)

Section more_files.
Context {C : Type} `{!Cell C}.

Lemma make_DataFrame_ok (matrix : ndarray C) (ids : list string) :
  shape0 matrix = length ids → shape1 matrix = length ids →
  make_DataFrame matrix ids ids = Ok (MkDataFrame ids ids matrix).
Proof.
  intros H0 H1. unfold make_DataFrame. by rewrite H0, H1, Nat.eqb_refl.
Qed.

Lemma make_DataFrame_inv (matrix : ndarray C) (ids : list string) table :
  make_DataFrame matrix ids ids = Ok table →
  table = MkDataFrame ids ids matrix ∧
  shape0 matrix = length ids ∧ shape1 matrix = length ids.
Proof.
  unfold make_DataFrame.
  destruct (Nat.eqb_spec (shape0 matrix) (length ids)); [|done].
  destruct (Nat.eqb_spec (shape1 matrix) (length ids)); [|done].
  by intros [= <-].
Qed.

Lemma length_population_column (df : list (tract_row C)) :
  length (population_column df) = length df.
Proof. unfold population_column. by rewrite length_fmap. Qed.

Lemma length_id_column (df : list (tract_row C)) :
  length (id_column df) = length df.
Proof. unfold id_column. by rewrite length_fmap. Qed.

(** [process_files] either raises before it writes, or writes the four
    files of the two matrices. *)
Lemma process_files_outcome (travel_type base_name : string)
    (df : list (tract_row C)) (T : ndarray C) :
  (∃ e, process_files travel_type base_name df T = ([], Raise e)) ∨
  (∃ dtilde d,
     compute_dtilde_matrix T (population_column df) = Ok dtilde ∧
     compute_d_matrix dtilde (population_column df) = Ok d ∧
     shape0 dtilde = length df ∧ shape1 dtilde = length df ∧
     shape0 d = length df ∧ shape1 d = length df ∧
     process_files travel_type base_name df T
     = (saved_matrices base_name travel_type (id_column df) dtilde d, Ok ())).
Proof.
  unfold process_files.
  destruct (shape0 T =? length (population_column df)); simpl; [|by eauto].
  destruct (compute_dtilde_matrix T (population_column df)) as [dtilde|e] eqn:H1;
    [|by eauto].
  destruct (compute_d_matrix dtilde (population_column df)) as [d|e] eqn:H2;
    [|by eauto].
  apply compute_d_matrix_shape in H2 as Hd. destruct Hd as [Hd0 Hd1].
  rewrite length_population_column in Hd0, Hd1.
  unfold save_labeled.
  destruct (make_DataFrame dtilde (id_column df) (id_column df)) as [t1|e] eqn:Ht1;
    [|by eauto].
  apply make_DataFrame_inv in Ht1 as (-> & Hs0 & Hs1).
  rewrite length_id_column in Hs0, Hs1.
  rewrite make_DataFrame_ok by (by rewrite length_id_column).
  right. exists dtilde, d. by repeat split.
Qed.

End more_files.

(** X9.  On an n×n travel matrix and a tract table of n rows,
    [process_files] returns normally and writes four files, in this order:
    [<base>_dtilde_<type>.csv] and [.npy] with the matrix d̃ of the first
    pass, then [<base>_d_<type>.csv] and [.npy] with the matrix d of the
    second; the CSV files carry the tract identifiers as row and column
    labels. *)
Theorem X9_process_files_saves {C : Type} `{!Cell C}
    (travel_type base_name : string) (df : list (tract_row C))
    (T : ndarray C) (n : nat) :
  wf T → shape0 T = n → shape1 T = n → length df = n →
  ∃ dtilde d,
    compute_dtilde_matrix T (population_column df) = Ok dtilde ∧
    compute_d_matrix dtilde (population_column df) = Ok d ∧
    process_files travel_type base_name df T
    = ([ SavedFile ((base_name +:+ "_" +:+ "dtilde" +:+ "_" +:+ travel_type) +:+ ".csv")
           (CsvFile (MkDataFrame (id_column df) (id_column df) dtilde));
         SavedFile ((base_name +:+ "_" +:+ "dtilde" +:+ "_" +:+ travel_type) +:+ ".npy")
           (NpyFile dtilde);
         SavedFile ((base_name +:+ "_" +:+ "d" +:+ "_" +:+ travel_type) +:+ ".csv")
           (CsvFile (MkDataFrame (id_column df) (id_column df) d));
         SavedFile ((base_name +:+ "_" +:+ "d" +:+ "_" +:+ travel_type) +:+ ".npy")
           (NpyFile d) ],
       Ok ()).
Proof.
  intros HT H0 H1 Hn.
  destruct (compute_dtilde_matrix_ok T (population_column df) n HT H0 H1)
    as (dtilde & Hr1 & Hwf & Hs0 & Hs1 & _).
  { by rewrite length_population_column. }
  destruct (compute_d_matrix_ok dtilde (population_column df) n Hwf Hs0 Hs1)
    as (d & Hr2 & _ & Hd0 & Hd1 & _).
  { by rewrite length_population_column. }
  exists dtilde, d. do 2 (split; [done|]).
  unfold process_files.
  rewrite length_population_column, H0, Hn, Nat.eqb_refl. simpl.
  rewrite Hr1, Hr2. simpl. unfold save_labeled.
  rewrite !make_DataFrame_ok by (rewrite length_id_column; congruence).
  done.
Qed.

Lemma X9_process_files_saves_witness :
  ∃ dtilde d,
    compute_dtilde_matrix (T_ex binary64) (population_column (df_ex binary64))
    = Ok dtilde ∧
    compute_d_matrix dtilde (population_column (df_ex binary64)) = Ok d ∧
    process_files "walk" "AtlantaGA" (df_ex binary64) (T_ex binary64)
    = ([ SavedFile "AtlantaGA_dtilde_walk.csv"
           (CsvFile (MkDataFrame (id_column (df_ex binary64))
                       (id_column (df_ex binary64)) dtilde));
         SavedFile "AtlantaGA_dtilde_walk.npy" (NpyFile dtilde);
         SavedFile "AtlantaGA_d_walk.csv"
           (CsvFile (MkDataFrame (id_column (df_ex binary64))
                       (id_column (df_ex binary64)) d));
         SavedFile "AtlantaGA_d_walk.npy" (NpyFile d) ],
       Ok ()).
Proof.
  apply (X9_process_files_saves "walk" "AtlantaGA" (df_ex binary64)
           (T_ex binary64) 3); [by_compute | reflexivity..].
Defined.

(** X10.  [process_files] writes all four files or none: on every table and
    every array, it either returns normally with four files written, or
    raises with nothing written. *)
Theorem X10_process_files_all_or_nothing {C : Type} `{!Cell C}
    (travel_type base_name : string) (df : list (tract_row C))
    (T : ndarray C) :
  (∃ written, process_files travel_type base_name df T = (written, Ok ()) ∧
              length written = 4) ∨
  (∃ e, process_files travel_type base_name df T = ([], Raise e)).
Proof.
  destruct (process_files_outcome travel_type base_name df T)
    as [[e He]|(dtilde & d & _ & _ & _ & _ & _ & _ & Hp)].
  - right. by exists e.
  - left. eexists. split; [exact Hp|done].
Qed.

(** X11.  What [process_files] saves can be loaded back: every [.npy] file
    it writes is accepted by [load_labeled_matrix] with the same tract
    table, and the labeled matrix that comes back is the one written to the
    CSV file of the same name. *)
Theorem X11_saved_matrix_reloads {C : Type} `{!Cell C}
    (travel_type base_name : string) (df : list (tract_row C))
    (T : ndarray C) (written : list (saved_file C)) (name : string)
    (matrix : ndarray C) :
  process_files travel_type base_name df T = (written, Ok ()) →
  SavedFile name (NpyFile matrix) ∈ written →
  ∃ stem table,
    name = stem +:+ ".npy" ∧
    load_labeled_matrix matrix df = Ok table ∧
    SavedFile (stem +:+ ".csv") (CsvFile table) ∈ written.
Proof.
  intros Hp Hin.
  destruct (process_files_outcome travel_type base_name df T)
    as [[e He]|(dtilde & d & _ & _ & Hs0 & Hs1 & Hd0 & Hd1 & Hp')];
    [congruence|].
  rewrite Hp in Hp'. injection Hp' as ->.
  unfold saved_matrices in Hin.
  assert (∀ M : ndarray C, shape0 M = length df → shape1 M = length df →
          load_labeled_matrix M df
          = Ok (MkDataFrame (id_column df) (id_column df) M)) as Hload.
  { intros M H0 H1. unfold load_labeled_matrix.
    rewrite length_id_column, H0, Nat.eqb_refl. simpl.
    apply make_DataFrame_ok; by rewrite length_id_column. }
  repeat (apply elem_of_cons in Hin as [Hin|Hin]); try done.
  - injection Hin as -> ->.
    eexists _, _. split; [done|]. split; [by apply Hload|].
    unfold saved_matrices. apply list_elem_of_here.
  - injection Hin as -> ->.
    eexists _, _. split; [done|]. split; [by apply Hload|].
    unfold saved_matrices. do 2 apply list_elem_of_further. apply list_elem_of_here.
  - by apply elem_of_nil in Hin.
Qed.

Lemma X11_saved_matrix_reloads_witness :
  ∃ stem table,
    "AtlantaGA_d_drive.npy" = stem +:+ ".npy" ∧
    load_labeled_matrix (d_ex binary64) (df_ex binary64) = Ok table ∧
    SavedFile (stem +:+ ".csv") (CsvFile table)
    ∈ (process_files "drive" "AtlantaGA" (df_ex binary64) (T_ex binary64)).1.
Proof.
  apply (X11_saved_matrix_reloads "drive" "AtlantaGA" (df_ex binary64)
           (T_ex binary64) _ "AtlantaGA_d_drive.npy" (d_ex binary64));
    [by vm_compute | by_compute].
Defined.

(** ** The raw matrices once more *)

Section more_raw.
Context {C : Type} `{!Cell C}.

Lemma drive_time_inv (Gd : graph C) (nodes : list nat) i j (y : C) :
  _drive_time Gd nodes (i, j) = Ok y →
  ∃ s t, nodes !! i = Some s ∧ nodes !! j = Some t ∧ Gd s t = Some y.
Proof.
  unfold _drive_time, getitem1, shortest_path_length.
  destruct (nodes !! i) as [s|]; cbn [mbind res_bind]; [|done].
  destruct (nodes !! j) as [t|]; cbn [mbind res_bind]; [|done].
  destruct (Gd s t) as [d|] eqn:Hd; [|done].
  intros [= <-]. by exists s, t.
Qed.

(** The storing loop of a pairwise segment comes to its end: every result
    is there and every store is inside the matrix. *)
Lemma store_loop_total {Y} (pairs : list (nat * nat)) (results : list Y)
    (n : nat) (store : nat → nat → Y → ndarray C → res (ndarray C)) :
  length results = length pairs →
  (∀ i j, (i, j) ∈ pairs → i < n ∧ j < n) →
  (∀ i j y (A : ndarray C), i < n → j < n → shape0 A = n → shape1 A = n →
     ∃ A', store i j y A = Ok A' ∧ shape0 A' = n ∧ shape1 A' = n) →
  ∃ A, for_each (enumerate pairs) (λ '(idx, (i, j)) A,
         x ← getitem1 results idx; store i j x A) (np_zeros n n) = Ok A.
Proof.
  intros Hlen Hin Hstore.
  destruct (for_each_total (λ A : ndarray C, shape0 A = n ∧ shape1 A = n)
              (enumerate pairs)
              (λ '(idx, (i, j)) A, x ← getitem1 results idx; store i j x A)
              (np_zeros n n)) as (A & HA & _); [done| |by exists A].
  intros [idx [i j]] A Hx%elem_of_enumerate [H0 H1].
  destruct (lookup_lt_is_Some_2 results idx) as [y Hy].
  { rewrite Hlen. by eapply lookup_lt_Some. }
  rewrite (getitem1_ok _ _ _ Hy). cbn [mbind res_bind].
  apply list_elem_of_lookup_2, Hin in Hx as [Hi Hj].
  by apply Hstore.
Qed.

(** When every ordered pair of distinct points is connected, the drive
    segment of the pairwise strategy returns a matrix. *)
Lemma compute_matrices_drive_total (Gd : graph C) (nodes : list nat) :
  (∀ i j s t, i ≠ j → nodes !! i = Some s → nodes !! j = Some t →
     is_Some (Gd s t)) →
  ∃ D, compute_matrices_drive Gd nodes = Ok D.
Proof.
  intros Hreach. unfold compute_matrices_drive. set (n := length nodes).
  destruct (map_res_total (_drive_time Gd nodes) (pairs_drive n))
    as [drive_results Hres].
  { intros [i j] (Hi & Hj & Hne)%elem_of_pairs_drive.
    destruct (lookup_lt_is_Some_2 nodes i Hi) as [s Hs].
    destruct (lookup_lt_is_Some_2 nodes j Hj) as [t Ht].
    destruct (Hreach i j s t Hne Hs Ht) as [d Hd].
    exists d. unfold _drive_time.
    rewrite (getitem1_ok _ _ _ Hs), (getitem1_ok _ _ _ Ht); simpl.
    unfold shortest_path_length. by rewrite Hd. }
  rewrite Hres. cbn [mbind res_bind].
  apply (store_loop_total (pairs_drive n) drive_results n
           (λ i j x D, setitem D i j x)).
  - by eapply map_res_length.
  - intros i j (? & ? & _)%elem_of_pairs_drive. done.
  - intros i j y A Hi Hj H0 H1.
    destruct (setitem_ok A i j y) as [A' HA']; [lia..|].
    exists A'. split; [done|].
    apply setitem_shape in HA' as [? ?]. split; congruence.
Qed.

(** The cells of the matrix the drive segment returns. *)
Lemma compute_matrices_drive_cells (Gd : graph C) (nodes : list nat)
    (D : ndarray C) :
  compute_matrices_drive Gd nodes = Ok D →
  wf D ∧ shape0 D = length nodes ∧ shape1 D = length nodes ∧
  (∀ i, i < length nodes → cell D i i = Some czero) ∧
  (∀ i j s t, i ≠ j → nodes !! i = Some s → nodes !! j = Some t →
     ∃ d, Gd s t = Some d ∧ cell D i j = Some d).
Proof.
  unfold compute_matrices_drive. set (n := length nodes). intros H.
  destruct (map_res _ _) as [drive_results|e] eqn:Hres; simpl in H; [|done].
  pose proof (map_res_Ok_lookup _ _ _ Hres) as Hlook.
  rewrite (for_each_ext _ _
    (λ x D, v ← getitem1 drive_results x.1; setitem D x.2.1 x.2.2 v)) in H.
  2:{ by intros [idx [i j]] A _. }
  destruct (write_loop_spec
              (λ x : nat * (nat * nat), x.2)
              (λ x, getitem1 drive_results x.1)
              (λ ab, default cnan
                       (s ← nodes !! ab.1; t ← nodes !! ab.2; Gd s t))
              (enumerate (pairs_drive n)) (np_zeros n n))
    as (D' & HD' & Hwf & Hs0 & Hs1 & Hcell).
  { apply wf_np_full. }
  { intros [idx [i j]] Hx%elem_of_enumerate.
    destruct (Hlook _ _ Hx) as (y & Hy & Hdt).
    apply drive_time_inv in Hdt as (s & t & Hs & Ht & Hd).
    apply list_elem_of_lookup_2, elem_of_pairs_drive in Hx as (Hi & Hj & _).
    simpl. do 2 (split; [done|]).
    by rewrite (getitem1_ok _ _ _ Hy), Hs, Ht; simpl; rewrite Hd. }
  rewrite HD' in H. injection H as <-.
  split; [done|]. do 2 (split; [done|]). split.
  - intros i Hi. rewrite Hcell, decide_False.
    + by apply cell_np_full.
    + intros ([idx [a b]] & [= -> ->] & Hx%elem_of_enumerate)%list_elem_of_fmap.
      apply list_elem_of_lookup_2, elem_of_pairs_drive in Hx as (_ & _ & Hne).
      done.
  - intros i j s t Hne Hs Ht.
    assert (i < n) as Hi by (by eapply lookup_lt_Some).
    assert (j < n) as Hj by (by eapply lookup_lt_Some).
    destruct (list_elem_of_lookup_1 (pairs_drive n) (i, j)) as [idx Hidx].
    { by apply elem_of_pairs_drive. }
    destruct (Hlook _ _ Hidx) as (y & Hy & Hdt).
    apply drive_time_inv in Hdt as (s' & t' & Hs' & Ht' & Hd).
    assert (s' = s) as -> by congruence. assert (t' = t) as -> by congruence.
    exists y. split; [done|].
    rewrite Hcell, decide_True; simpl.
    + by rewrite Hs, Ht; simpl; rewrite Hd.
    + apply list_elem_of_fmap. exists (idx, (i, j)). split; [done|].
      by apply elem_of_enumerate.
Qed.

End more_raw.

Section more_walk.
Context {C : Type} `{!Cell C} `{!CellLaws C}.

Lemma walk_time_outcome (Gw : graph C) (nodes : list nat) i j :
  (i, j) ∈ pairs_walk (length nodes) →
  (∃ d, _walk_time Gw nodes (i, j) = Ok d) ∨
  _walk_time Gw nodes (i, j) = Raise NetworkXNoPath.
Proof.
  intros (Hi & Hj)%elem_of_pairs_walk.
  destruct (lookup_lt_is_Some_2 nodes i) as [s Hs]; [lia|].
  destruct (lookup_lt_is_Some_2 nodes j Hj) as [t Ht].
  unfold _walk_time. rewrite (getitem1_ok _ _ _ Hs), (getitem1_ok _ _ _ Ht); simpl.
  unfold shortest_path_length. destruct (Gw s t); simpl; [|by right].
  unfold py_div, walk_speed. rewrite eq0_walk_speed. eauto.
Qed.

(** One pair whose second point cannot be reached from the first, and the
    walk segment raises. *)
Lemma compute_matrices_walk_unreachable (Gw : graph C) (nodes : list nat)
    i j src tgt :
  nodes !! i = Some src → nodes !! j = Some tgt → i < j →
  Gw src tgt = None →
  compute_matrices_walk Gw nodes = Raise NetworkXNoPath.
Proof.
  intros Hi Hj Hlt Hno. unfold compute_matrices_walk.
  rewrite (map_res_raise _ _ NetworkXNoPath (i, j)); [done| | |].
  - apply elem_of_pairs_walk. split; [done|by eapply lookup_lt_Some].
  - unfold _walk_time. rewrite (getitem1_ok _ _ _ Hi), (getitem1_ok _ _ _ Hj); simpl.
    unfold shortest_path_length. by rewrite Hno.
  - intros [a b] Hab. by apply walk_time_outcome.
Qed.

(** When every point can reach every later point, the walk segment
    returns a matrix. *)
Lemma compute_matrices_walk_total (Gw : graph C) (nodes : list nat) :
  (∀ i j s t, i < j → nodes !! i = Some s → nodes !! j = Some t →
     is_Some (Gw s t)) →
  ∃ W, compute_matrices_walk Gw nodes = Ok W.
Proof.
  intros Hreach. unfold compute_matrices_walk. set (n := length nodes).
  destruct (map_res_total (_walk_time Gw nodes) (pairs_walk n))
    as [walk_results Hres].
  { intros [i j] Hin.
    destruct (walk_time_outcome Gw nodes i j Hin) as [H|H]; [done|].
    apply elem_of_pairs_walk in Hin as [Hlt Hj].
    destruct (lookup_lt_is_Some_2 nodes i) as [s Hs]; [unfold n in Hj; lia|].
    destruct (lookup_lt_is_Some_2 nodes j Hj) as [t Ht].
    destruct (Hreach i j s t Hlt Hs Ht) as [d Hd].
    unfold _walk_time in H.
    rewrite (getitem1_ok _ _ _ Hs), (getitem1_ok _ _ _ Ht) in H; simpl in H.
    unfold shortest_path_length in H. rewrite Hd in H. simpl in H.
    unfold py_div, walk_speed in H. by rewrite eq0_walk_speed in H. }
  rewrite Hres. cbn [mbind res_bind].
  apply (store_loop_total (pairs_walk n) walk_results n
           (λ i j x W, W ← setitem W i j x; setitem W j i x)).
  - by eapply map_res_length.
  - intros i j [? ?]%elem_of_pairs_walk. lia.
  - intros i j y A Hi Hj H0 H1.
    destruct (setitem_ok A i j y) as [A1 HA1]; [lia..|].
    rewrite HA1. cbn [mbind res_bind].
    apply setitem_shape in HA1 as [? ?].
    destruct (setitem_ok A1 j i y) as [A2 HA2]; [lia..|].
    exists A2. split; [done|].
    apply setitem_shape in HA2 as [? ?]. split; congruence.
Qed.

End more_walk.

(** X12.  The drive segment of the pairwise strategy returns a matrix
    exactly when every ordered pair of distinct points is connected in the
    drive network.  The matrix is then n×n, its diagonal is 0 (no query is
    made for a point and itself), and D[i,j] is the length of the shortest
    path from point i to point j. *)
Theorem X12_pairwise_drive_matrix {C : Type} `{!Cell C} (Gd : graph C)
    (nodes : list nat) :
  ((∃ D, compute_matrices_drive Gd nodes = Ok D) ↔
   (∀ i j s t, i ≠ j → nodes !! i = Some s → nodes !! j = Some t →
      is_Some (Gd s t))) ∧
  (∀ D, compute_matrices_drive Gd nodes = Ok D →
     shape0 D = length nodes ∧ shape1 D = length nodes ∧
     (∀ i, i < length nodes → cell D i i = Some czero) ∧
     (∀ i j s t, i ≠ j → nodes !! i = Some s → nodes !! j = Some t →
        ∃ d, Gd s t = Some d ∧ cell D i j = Some d)).
Proof.
  split; [split|].
  - intros [D HD] i j s t Hne Hs Ht.
    destruct (Gd s t) as [d|] eqn:Hd; [done|].
    by rewrite (compute_matrices_drive_unreachable Gd nodes i j s t) in HD.
  - apply compute_matrices_drive_total.
  - intros D HD.
    by destruct (compute_matrices_drive_cells Gd nodes D HD) as (_ & ? & ? & ? & ?).
Qed.

Lemma X12_pairwise_drive_matrix_witness :
  ∃ D, compute_matrices_drive (G_line binary64) [0; 1; 2] = Ok D ∧
       cell D 1 1 = Some czero ∧
       ∃ d, G_line binary64 2 0 = Some d ∧ cell D 2 0 = Some d.
Proof.
  eexists. split; [by vm_compute|].
  edestruct (proj2 (X12_pairwise_drive_matrix (G_line binary64) [0; 1; 2]))
    as (_ & _ & Hdiag & Hcell); [by vm_compute|].
  split.
  - apply Hdiag. simpl. lia.
  - apply (Hcell 2 0 2 0); [lia | reflexivity | reflexivity].
Defined.

(** X13.  The walk segment of the pairwise strategy asks one question per
    pair, from the point of smaller index to the other: it returns a
    matrix exactly when every point can reach every point after it in the
    list, and whether the way back exists is never looked at. *)
Theorem X13_pairwise_walk_returns {C : Type} `{!Cell C} `{!CellLaws C}
    (Gw : graph C) (nodes : list nat) :
  (∃ W, compute_matrices_walk Gw nodes = Ok W) ↔
  (∀ i j s t, i < j → nodes !! i = Some s → nodes !! j = Some t →
     is_Some (Gw s t)).
Proof.
  split.
  - intros [W HW] i j s t Hlt Hs Ht.
    destruct (Gw s t) as [d|] eqn:Hd; [done|].
    by rewrite (compute_matrices_walk_unreachable Gw nodes i j s t) in HW.
  - apply compute_matrices_walk_total.
Qed.

Lemma X13_pairwise_walk_returns_witness :
  ∃ W, compute_matrices_walk (G_oneway binary64) [0; 1] = Ok W.
Proof.
  apply (proj2 (X13_pairwise_walk_returns (G_oneway binary64) [0; 1])).
  intros i j s t Hlt Hs Ht.
  destruct i as [|[|i]], j as [|[|j]]; try done; try lia.
  injection Hs as <-. injection Ht as <-. by eexists.
Defined.

(** X14.  [compute_matrices] saves the drive matrix before it starts on the
    walk matrix: when the drive segment succeeds and some point cannot be
    reached on foot from a point before it in the list, the call raises
    [NetworkXNoPath] with the drive file written and no walk file. *)
Theorem X14_pairwise_partial_output {C : Type} `{!Cell C} `{!CellLaws C}
    (Gd Gw : graph C) (nodes_drive nodes_walk : list nat)
    (file_name_city file_name_state today : string) (D : ndarray C)
    (i j src tgt : nat) :
  compute_matrices_drive Gd nodes_drive = Ok D →
  nodes_walk !! i = Some src → nodes_walk !! j = Some tgt → i < j →
  Gw src tgt = None →
  compute_matrices Gd Gw nodes_drive nodes_walk
    file_name_city file_name_state today true true
  = ([SavedFile
        ("drive_time_" +:+ (file_name_city +:+ "_" +:+ file_name_state +:+ "_" +:+ today)
         +:+ ".npy") (NpyFile D)],
     Raise NetworkXNoPath).
Proof.
  intros HD Hi Hj Hlt Hno. unfold compute_matrices.
  rewrite HD. simpl.
  by rewrite (compute_matrices_walk_unreachable Gw nodes_walk i j src tgt).
Qed.

Lemma X14_pairwise_partial_output_witness :
  ∃ D, compute_matrices (G_line binary64) (λ s t, G_oneway binary64 t s)
         [0; 1] [0; 1] "Fulton" "GA" "2025-06-08" true true
       = ([SavedFile "drive_time_Fulton_GA_2025-06-08.npy" (NpyFile D)],
          Raise NetworkXNoPath).
Proof.
  eexists.
  apply (X14_pairwise_partial_output (G_line binary64)
           (λ s t, G_oneway binary64 t s) [0; 1] [0; 1]
           "Fulton" "GA" "2025-06-08" _ 0 1 0 1);
    [by vm_compute | reflexivity | reflexivity | lia | reflexivity].
Defined.

(** X15.  The per-source module never raises on a network: with at least
    one point, [compute_matrices_dijkstra] returns normally whatever the
    two networks are, unreachable pairs included, and writes the files it
    was asked for, [<city><state>_drive_<date>.npy] then
    [<city><state>_walk_<date>.npy]. *)
Theorem X15_dijkstra_always_returns {C : Type} `{!Cell C} `{!CellLaws C}
    (n : nat) (Gd Gw : graph C) (nodes_drive nodes_walk : list nat)
    (city state today : string) (do_drive do_walk : bool) :
  n ≠ 0 →
  ∃ D W,
    compute_full_drive_matrix Gd nodes_drive = Ok D ∧
    compute_full_walk_matrix Gw nodes_walk walk_speed = Ok W ∧
    compute_matrices_dijkstra n Gd Gw nodes_drive nodes_walk city state today
      do_drive do_walk
    = ((if do_drive
        then [SavedFile (city +:+ state +:+ "_drive_" +:+ today +:+ ".npy") (NpyFile D)]
        else []) ++
       (if do_walk
        then [SavedFile (city +:+ state +:+ "_walk_" +:+ today +:+ ".npy") (NpyFile W)]
        else []),
       Ok ())%list.
Proof.
  intros Hn.
  destruct (compute_full_drive_matrix_ok Gd nodes_drive) as (D & HD & _).
  destruct (compute_full_walk_matrix_symmetric Gw nodes_walk walk_speed
              eq0_walk_speed) as (W & HW & _).
  exists D, W. do 2 (split; [done|]).
  unfold compute_matrices_dijkstra.
  destruct (Nat.eqb_spec n 0); [done|].
  rewrite HD, HW. by destruct do_drive, do_walk.
Qed.

Lemma X15_dijkstra_always_returns_witness :
  ∃ D W,
    compute_full_drive_matrix (G_oneway binary64) [0; 1] = Ok D ∧
    compute_full_walk_matrix (G_oneway binary64) [0; 1] walk_speed = Ok W ∧
    compute_matrices_dijkstra 2 (G_oneway binary64) (G_oneway binary64)
      [0; 1] [0; 1] "Atlanta" "GA" "2025-06-14" true true
    = ([SavedFile "AtlantaGA_drive_2025-06-14.npy" (NpyFile D);
        SavedFile "AtlantaGA_walk_2025-06-14.npy" (NpyFile W)], Ok ()).
Proof.
  apply (X15_dijkstra_always_returns 2 (G_oneway binary64) (G_oneway binary64)
           [0; 1] [0; 1] "Atlanta" "GA" "2025-06-14" true true).
  lia.
Defined.

(** X16.  Where the pairwise strategy returns a drive matrix, the
    per-source strategy returns the same travel times: the two matrices
    agree in every cell off the diagonal. *)
Theorem X16_drive_strategies_agree {C : Type} `{!Cell C} (Gd : graph C)
    (nodes : list nat) (D : ndarray C) :
  compute_matrices_drive Gd nodes = Ok D →
  ∃ D', compute_full_drive_matrix Gd nodes = Ok D' ∧
        ∀ i j, i < length nodes → j < length nodes → i ≠ j →
          cell D' i j = cell D i j.
Proof.
  intros HD.
  destruct (compute_matrices_drive_cells Gd nodes D HD) as (_ & _ & _ & _ & Hcell).
  destruct (compute_full_drive_matrix_ok Gd nodes) as (D' & HD' & _ & _ & _ & Hcell').
  exists D'. split; [done|].
  intros i j Hi Hj Hne.
  destruct (lookup_lt_is_Some_2 nodes i Hi) as [s Hs].
  destruct (lookup_lt_is_Some_2 nodes j Hj) as [t Ht].
  destruct (Hcell i j s t Hne Hs Ht) as (d & Hd & ->).
  by rewrite (Hcell' i j s t Hs Ht), Hd.
Qed.

Lemma X16_drive_strategies_agree_witness :
  ∃ D D',
    compute_matrices_drive (G_line binary64) [0; 1; 2] = Ok D ∧
    compute_full_drive_matrix (G_line binary64) [0; 1; 2] = Ok D' ∧
    ∀ i j, i < 3 → j < 3 → i ≠ j → cell D' i j = cell D i j.
Proof.
  assert (∃ D, compute_matrices_drive (G_line binary64) [0; 1; 2] = Ok D)
    as [D HD] by (eexists; by vm_compute).
  destruct (X16_drive_strategies_agree (G_line binary64) [0; 1; 2] D HD)
    as (D' & HD' & Hcell).
  by exists D, D'.
Defined.

(** X17.  In [compute_full_walk_matrix] a later store overwrites an earlier
    one.  For a speed that is not 0 the call returns an n×n matrix W where,
    for two points a and b, W[a,b] and W[b,a] both hold the length of the
    path from the point of larger index to the point of smaller index,
    divided by the speed; when there is no such path, the length of the
    path the other way round, divided by the speed; and [nan] when there is
    neither. *)
Theorem X17_full_walk_cells {C : Type} `{!Cell C} (G : graph C)
    (nodes : list nat) (speed_mps : C) :
  eq0 speed_mps = false →
  ∃ W, compute_full_walk_matrix G nodes speed_mps = Ok W ∧
       shape0 W = length nodes ∧ shape1 W = length nodes ∧
       ∀ a b, a < length nodes → b < length nodes →
         cell W a b
         = Some (default
                   (default cnan (walk_leg G nodes speed_mps (a `min` b) (a `max` b)))
                   (walk_leg G nodes speed_mps (a `max` b) (a `min` b))).
Proof.
  intros Hspeed.
  destruct (compute_full_walk_matrix_cells G nodes speed_mps Hspeed)
    as (W & HW & _ & H0 & H1 & Hcell).
  exists W. by do 3 (split; [done|]).
Qed.

Lemma X17_full_walk_cells_witness :
  ∃ W, compute_full_walk_matrix (G_oneway binary64) [0; 1] walk_speed = Ok W ∧
       shape0 W = 2 ∧ shape1 W = 2 ∧
       ∀ a b, a < 2 → b < 2 →
         cell W a b
         = Some (default
                   (default cnan
                      (walk_leg (G_oneway binary64) [0; 1] walk_speed
                         (a `min` b) (a `max` b)))
                   (walk_leg (G_oneway binary64) [0; 1] walk_speed
                      (a `max` b) (a `min` b))).
Proof.
  apply (X17_full_walk_cells (G_oneway binary64) [0; 1] walk_speed).
  reflexivity.
Defined.

(** X18.  On a walk network whose path lengths are the same in both
    directions, the two strategies give the same walking times: where the
    pairwise strategy returns a matrix, the matrix of the per-source
    strategy agrees with it in every cell off the diagonal. *)
Theorem X18_walk_strategies_agree {C : Type} `{!Cell C} `{!CellLaws C}
    (Gw : graph C) (nodes : list nat) (W : ndarray C) :
  (∀ s t, Gw s t = Gw t s) →
  compute_matrices_walk Gw nodes = Ok W →
  ∃ W', compute_full_walk_matrix Gw nodes walk_speed = Ok W' ∧
        ∀ i j, i < length nodes → j < length nodes → i ≠ j →
          cell W' i j = cell W i j.
Proof.
  intros Hsym HW.
  pose proof (compute_matrices_walk_cells Gw nodes W HW) as Hcell.
  destruct (compute_full_walk_matrix_cells Gw nodes walk_speed eq0_walk_speed)
    as (W' & HW' & _ & _ & _ & Hcell').
  exists W'. split; [done|].
  assert (∀ i j, i < j → j < length nodes →
            cell W' i j = cell W i j ∧ cell W' j i = cell W j i) as Hlt.
  { intros i j Hij Hj.
    destruct (lookup_lt_is_Some_2 nodes i) as [s Hs]; [lia|].
    destruct (lookup_lt_is_Some_2 nodes j Hj) as [t Ht].
    destruct (Hcell i j s t Hij Hs Ht) as (d & Hd & -> & ->).
    rewrite !Hcell' by lia. unfold full_walk_cell.
    rewrite (Nat.min_l i j), (Nat.max_r i j), (Nat.min_r j i), (Nat.max_l j i) by lia.
    assert (walk_leg Gw nodes walk_speed j i = Some (d ⊘ walk_speed)) as ->; [|done].
    unfold walk_leg. rewrite Hs, Ht; simpl. by rewrite (Hsym t s), Hd. }
  intros i j Hi Hj Hne.
  destruct (Nat.lt_total i j) as [Hlt'|[->|Hgt]]; [|done|].
  - by destruct (Hlt i j Hlt' Hj) as [? _].
  - by destruct (Hlt j i Hgt Hi) as [_ ?].
Qed.

Lemma X18_walk_strategies_agree_witness :
  ∃ W W',
    compute_matrices_walk (G_line binary64) [0; 1; 2] = Ok W ∧
    compute_full_walk_matrix (G_line binary64) [0; 1; 2] walk_speed = Ok W' ∧
    ∀ i j, i < 3 → j < 3 → i ≠ j → cell W' i j = cell W i j.
Proof.
  assert (∃ W, compute_matrices_walk (G_line binary64) [0; 1; 2] = Ok W)
    as [W HW] by (eexists; by vm_compute).
  assert (∀ s t, G_line binary64 s t = G_line binary64 t s) as Hsym.
  { intros s t. unfold G_line. f_equal. f_equal. f_equal. f_equal. lia. }
  destruct (X18_walk_strategies_agree (G_line binary64) [0; 1; 2] W Hsym HW)
    as (W' & HW' & Hcell).
  exists W, W'. split; [exact HW|]. split; [exact HW'|exact Hcell].
Defined.

(** ** The batch *)

Local Open Scope list_scope.

Lemma for_each_io_app {X St} (xs ys : list X) (body : X → St → St * res unit)
    (s : St) :
  for_each_io (xs ++ ys) body s
  = match for_each_io xs body s with
    | (s', Ok _) => for_each_io ys body s'
    | (s', Raise e) => (s', Raise e)
    end.
Proof.
  revert s. induction xs as [|x xs IH]; intros s; simpl; [done|].
  destruct (body x s) as [s1 [[]|e]]; [apply IH|done].
Qed.

(** A loop whose rounds only add to a log does the same from any log. *)
Lemma for_each_io_shift {X A B} (xs : list X)
    (body : X → list A * list B → (list A * list B) * res unit) :
  (∀ x log, body x log
            = ((log.1 ++ (body x ([], [])).1.1, log.2 ++ (body x ([], [])).1.2),
               (body x ([], [])).2)) →
  ∀ log, for_each_io xs body log
         = ((log.1 ++ (for_each_io xs body ([], [])).1.1,
             log.2 ++ (for_each_io xs body ([], [])).1.2),
            (for_each_io xs body ([], [])).2).
Proof.
  intros Hb. induction xs as [|x xs IH]; intros [w m]; simpl.
  { by rewrite !app_nil_r. }
  rewrite (Hb x (w, m)). simpl.
  destruct (body x ([], [])) as [[w1 m1] [[]|e]]; simpl; [|done].
  rewrite (IH (w ++ w1, m ++ m1)), (IH (w1, m1)). simpl.
  by rewrite !app_assoc.
Qed.

Lemma bind_nil_elem {A B} (f : A → list B) (l : list A) :
  (∀ x, x ∈ l → f x = []) → l ≫= f = [].
Proof.
  induction l as [|x l IH]; intros H; [done|].
  rewrite bind_cons, H, IH; [done| |apply list_elem_of_here].
  intros y Hy. apply H. by apply list_elem_of_further.
Qed.

Lemma bind_ext_elem {A B} (f g : A → list B) (l : list A) :
  (∀ x, x ∈ l → f x = g x) → l ≫= f = l ≫= g.
Proof.
  induction l as [|x l IH]; intros H; [done|].
  rewrite !bind_cons, H, IH; [done| |apply list_elem_of_here].
  intros y Hy. apply H. by apply list_elem_of_further.
Qed.

Lemma folder_lookup_None {X} (name : string) (folder : list (string * X)) :
  name ∉ folder.*1 → folder_lookup name folder = None.
Proof.
  induction folder as [|[name' x] folder IH]; simpl; [done|].
  intros Hn. apply not_elem_of_cons in Hn as [Hne Hn].
  rewrite decide_False by done. by apply IH.
Qed.

Section more_batch.
Context {C : Type} `{!Cell C}.
Implicit Types (input_folder : list (string * list (tract_row C)))
               (travel_folder : list (string * ndarray C)).

Lemma process_files_ok (travel_type base_name : string)
    (df : list (tract_row C)) (T : ndarray C) :
  wf T → shape0 T = length df → shape1 T = length df →
  ∃ dtilde d,
    process_files travel_type base_name df T
    = (saved_matrices base_name travel_type (id_column df) dtilde d, Ok ()).
Proof.
  intros HT H0 H1.
  destruct (compute_dtilde_matrix_ok T (population_column df) (length df) HT H0 H1)
    as (dtilde & Hr1 & Hwf & Hs0 & Hs1 & _).
  { by rewrite length_population_column. }
  destruct (compute_d_matrix_ok dtilde (population_column df) (length df)
              Hwf Hs0 Hs1) as (d & Hr2 & _ & Hd0 & Hd1 & _).
  { by rewrite length_population_column. }
  exists dtilde, d. unfold process_files.
  rewrite length_population_column, H0, Nat.eqb_refl. simpl.
  rewrite Hr1, Hr2. simpl. unfold save_labeled.
  by rewrite !make_DataFrame_ok by (by rewrite length_id_column).
Qed.

Lemma batch_round_shift travel_folder csv_file ttype
    (log : list (saved_file C) * list string) :
  batch_round travel_folder csv_file ttype log
  = ((log.1 ++ (batch_round travel_folder csv_file ttype ([], [])).1.1,
      log.2 ++ (batch_round travel_folder csv_file ttype ([], [])).1.2),
     (batch_round travel_folder csv_file ttype ([], [])).2).
Proof.
  unfold batch_round.
  destruct (folder_lookup _ travel_folder) as [M|]; simpl.
  - destruct (process_files _ _ _ M) as [written outcome]. simpl.
    by rewrite app_nil_r.
  - by rewrite app_nil_r.
Qed.

Lemma batch_inner_shift travel_folder csv_file (travel_types : list string)
    (log : list (saved_file C) * list string) :
  for_each_io travel_types (batch_round travel_folder csv_file) log
  = ((log.1 ++ (for_each_io travel_types
                  (batch_round travel_folder csv_file) ([], [])).1.1,
      log.2 ++ (for_each_io travel_types
                  (batch_round travel_folder csv_file) ([], [])).1.2),
     (for_each_io travel_types (batch_round travel_folder csv_file) ([], [])).2).
Proof. apply for_each_io_shift. intros tt l. apply batch_round_shift. Qed.

(** The rounds of one tract file when every matrix found fits its table. *)
Lemma batch_inner_ok travel_folder (csv_file : string * list (tract_row C))
    (travel_types : list string) :
  (∀ tt M, tt ∈ travel_types →
     folder_lookup (travel_file_of csv_file.1 tt) travel_folder = Some M →
     wf M ∧ shape0 M = length csv_file.2 ∧ shape1 M = length csv_file.2) →
  ∃ written,
    for_each_io travel_types (batch_round travel_folder csv_file) ([], [])
    = ((written,
        tt ← travel_types;
        match folder_lookup (travel_file_of csv_file.1 tt) travel_folder with
        | Some _ => []
        | None => [travel_file_of csv_file.1 tt]
        end), Ok ()) ∧
    file_name <$> written
    = (tt ← travel_types;
       match folder_lookup (travel_file_of csv_file.1 tt) travel_folder with
       | Some _ => output_names (base_name_of csv_file.1) tt
       | None => []
       end).
Proof.
  induction travel_types as [|tt tts IH]; intros Hgood; simpl.
  { by exists []. }
  destruct IH as (w' & Hw' & Hnames').
  { intros tt' M Htt'. apply Hgood. by apply list_elem_of_further. }
  unfold batch_round at 1.
  change (str_replace csv_file.1 "_tract_data.csv" "")
    with (base_name_of csv_file.1).
  fold (travel_file_of csv_file.1 tt).
  destruct (folder_lookup (travel_file_of csv_file.1 tt) travel_folder)
    as [M|] eqn:HM.
  - destruct (Hgood tt M) as (HwfM & H0 & H1); [apply list_elem_of_here|done|].
    destruct (process_files_ok tt (base_name_of csv_file.1) csv_file.2 M HwfM H0 H1)
      as (dtilde & d & Hp).
    rewrite Hp. simpl.
    rewrite batch_inner_shift, Hw'. simpl.
    eexists. split; [reflexivity|].
    rewrite !fmap_cons, Hnames'. done.
  - simpl. rewrite batch_inner_shift, Hw'. simpl.
    exists w'. done.
Qed.

Lemma batch_outer_shift travel_folder (travel_types : list string)
    (csv_files : list (string * list (tract_row C)))
    (log : list (saved_file C) * list string) :
  for_each_io csv_files (λ csv_file log,
    for_each_io travel_types (batch_round travel_folder csv_file) log) log
  = ((log.1 ++ (for_each_io csv_files (λ csv_file log,
                  for_each_io travel_types (batch_round travel_folder csv_file) log)
                  ([], [])).1.1,
      log.2 ++ (for_each_io csv_files (λ csv_file log,
                  for_each_io travel_types (batch_round travel_folder csv_file) log)
                  ([], [])).1.2),
     (for_each_io csv_files (λ csv_file log,
        for_each_io travel_types (batch_round travel_folder csv_file) log)
        ([], [])).2).
Proof.
  apply (for_each_io_shift csv_files (λ csv_file log,
    for_each_io travel_types (batch_round travel_folder csv_file) log)).
  intros csv l. apply batch_inner_shift.
Qed.

Lemma batch_outer_ok travel_folder (travel_types : list string)
    (csv_files : list (string * list (tract_row C))) :
  (∀ csv tt M, csv ∈ csv_files → tt ∈ travel_types →
     folder_lookup (travel_file_of csv.1 tt) travel_folder = Some M →
     wf M ∧ shape0 M = length csv.2 ∧ shape1 M = length csv.2) →
  ∃ written,
    for_each_io csv_files (λ csv_file log,
      for_each_io travel_types (batch_round travel_folder csv_file) log) ([], [])
    = ((written,
        csv ← csv_files; tt ← travel_types;
        match folder_lookup (travel_file_of csv.1 tt) travel_folder with
        | Some _ => []
        | None => [travel_file_of csv.1 tt]
        end), Ok ()) ∧
    file_name <$> written
    = (csv ← csv_files; tt ← travel_types;
       match folder_lookup (travel_file_of csv.1 tt) travel_folder with
       | Some _ => output_names (base_name_of csv.1) tt
       | None => []
       end).
Proof.
  induction csv_files as [|csv csvs IH]; intros Hgood; simpl.
  { by exists []. }
  destruct IH as (w' & Hw' & Hnames').
  { intros csv' tt M Hcsv'. apply Hgood. by apply list_elem_of_further. }
  destruct (batch_inner_ok travel_folder csv travel_types) as (w & Hw & Hnames).
  { intros tt M. apply Hgood. apply list_elem_of_here. }
  rewrite Hw. rewrite batch_outer_shift, Hw'. simpl.
  exists (w ++ w'). split; [done|].
  by rewrite fmap_app, Hnames, Hnames'.
Qed.

Lemma batch_process_all_unfold input_folder travel_folder
    (travel_types : list string) :
  batch_process_all input_folder travel_folder (Types travel_types)
  = for_each_io (glob_tract_data input_folder) (λ csv_file log,
      for_each_io travel_types (batch_round travel_folder csv_file) log) ([], []).
Proof. reflexivity. Qed.

(** When no travel file is there, every round reports one. *)
Lemma batch_finds_nothing input_folder travel_folder (travel_types : list string) :
  (∀ csv tt, csv ∈ glob_tract_data input_folder → tt ∈ travel_types →
     folder_lookup (travel_file_of csv.1 tt) travel_folder = None) →
  batch_process_all input_folder travel_folder (Types travel_types)
  = (([], csv ← glob_tract_data input_folder; tt ← travel_types;
          [travel_file_of csv.1 tt]), Ok ()).
Proof.
  intros Hnone.
  destruct (batch_outer_ok travel_folder travel_types
              (glob_tract_data input_folder)) as (w & Hw & Hnames).
  { intros csv tt M Hcsv Htt HM. by rewrite Hnone in HM. }
  rewrite batch_process_all_unfold, Hw.
  assert (w = []) as ->.
  { apply fmap_nil_inv with (f := file_name). rewrite Hnames.
    apply bind_nil_elem. intros csv Hcsv.
    apply bind_nil_elem. intros tt Htt. by rewrite Hnone. }
  do 2 f_equal.
  apply bind_ext_elem. intros csv Hcsv.
  apply bind_ext_elem. intros tt Htt. by rewrite Hnone.
Qed.

(** The names of the files either raw-matrix function writes. *)
Lemma compute_matrices_dijkstra_names (n : nat) (Gd Gw : graph C)
    (nodes_drive nodes_walk : list nat) (city state today : string)
    (do_drive do_walk : bool) name :
  name ∈ (npy_files (compute_matrices_dijkstra n Gd Gw nodes_drive nodes_walk
                       city state today do_drive do_walk).1).*1 →
  name = city +:+ state +:+ "_drive_" +:+ today +:+ ".npy" ∨
  name = city +:+ state +:+ "_walk_" +:+ today +:+ ".npy".
Proof.
  unfold compute_matrices_dijkstra.
  destruct (n =? 0); simpl; [by intros ?%elem_of_nil|].
  destruct do_drive, do_walk;
    destruct (compute_full_drive_matrix Gd nodes_drive),
             (compute_full_walk_matrix Gw nodes_walk walk_speed); simpl;
    intros Hin;
    repeat (apply elem_of_cons in Hin as [->|Hin]); eauto;
    by apply elem_of_nil in Hin.
Qed.

Lemma compute_matrices_names (Gd Gw : graph C)
    (nodes_drive nodes_walk : list nat)
    (file_name_city file_name_state today : string)
    (do_drive do_walk : bool) name :
  name ∈ (npy_files (compute_matrices Gd Gw nodes_drive nodes_walk
                       file_name_city file_name_state today do_drive do_walk).1).*1 →
  name = "drive_time_"
         +:+ (file_name_city +:+ "_" +:+ file_name_state +:+ "_" +:+ today)
         +:+ ".npy" ∨
  name = "walk_time_"
         +:+ (file_name_city +:+ "_" +:+ file_name_state +:+ "_" +:+ today)
         +:+ ".npy".
Proof.
  unfold compute_matrices.
  destruct do_drive, do_walk;
    destruct (compute_matrices_drive Gd nodes_drive),
             (compute_matrices_walk Gw nodes_walk); simpl;
    intros Hin;
    repeat (apply elem_of_cons in Hin as [->|Hin]); eauto;
    by apply elem_of_nil in Hin.
Qed.

End more_batch.

(** *** File names *)

Lemma list_ascii_app (s1 s2 : string) :
  String.list_ascii_of_string (s1 +:+ s2)
  = String.list_ascii_of_string s1 ++ String.list_ascii_of_string s2.
Proof. induction s1 as [|c s1 IH]; simpl; [done|]. by rewrite IH. Qed.

Lemma digit_not_letter (k : nat) :
  digit k ≠ Ascii.ascii_of_nat 101 ∧ digit k ≠ Ascii.ascii_of_nat 107.
Proof.
  unfold digit. pose proof (Nat.mod_upper_bound k 10) as Hk.
  destruct (k mod 10) as [|[|[|[|[|[|[|[|[|[|r]]]]]]]]]];
    try (by split); lia.
Qed.

(** The name the batch looks up for the travel types drive and walk is
    never a name that ends in a date: before the extension the one has a
    letter and the other a digit. *)
Lemma travel_file_not_dated (csv_name tt name : string)
    (pre : list Ascii.ascii) (year month day : nat) :
  tt ∈ ["drive"; "walk"] →
  String.list_ascii_of_string name
  = pre ++ String.list_ascii_of_string (isoformat year month day +:+ ".npy") →
  travel_file_of csv_name tt ≠ name.
Proof.
  intros Htt Hname Heq. rewrite <- Heq in Hname.
  unfold travel_file_of, isoformat in Hname.
  destruct (digit_not_letter day) as [He Hk].
  apply (f_equal reverse) in Hname.
  apply (f_equal (λ l, l !! 4)) in Hname.
  repeat (apply elem_of_cons in Htt as [->|Htt]); [..|by apply elem_of_nil in Htt];
    repeat (progress (rewrite ?list_ascii_app in Hname; simpl in Hname));
    rewrite !reverse_app in Hname; simpl in Hname;
    injection Hname as Hname;
    first [exact (He (eq_sym Hname)) | exact (Hk (eq_sym Hname))].
Qed.

(** X19.  When every travel matrix the batch finds is square and has as
    many rows as the tract table it goes with, [batch_process_all] returns
    normally.  It goes through the tract files in the order of the folder
    and, for each, through the travel types in the order given: where
    [<base>_<type>.npy] is there it writes the four files of
    [process_files], where it is not it reports the name and goes on. *)
Theorem X19_batch_writes_and_skips {C : Type} `{!Cell C}
    (input_folder : list (string * list (tract_row C)))
    (travel_folder : list (string * ndarray C)) (travel_types : list string) :
  (∀ csv tt M, csv ∈ glob_tract_data input_folder → tt ∈ travel_types →
     folder_lookup (travel_file_of csv.1 tt) travel_folder = Some M →
     wf M ∧ shape0 M = length csv.2 ∧ shape1 M = length csv.2) →
  ∃ written,
    batch_process_all input_folder travel_folder (Types travel_types)
    = ((written,
        csv ← glob_tract_data input_folder; tt ← travel_types;
        match folder_lookup (travel_file_of csv.1 tt) travel_folder with
        | Some _ => []
        | None => [travel_file_of csv.1 tt]
        end), Ok ()) ∧
    file_name <$> written
    = (csv ← glob_tract_data input_folder; tt ← travel_types;
       match folder_lookup (travel_file_of csv.1 tt) travel_folder with
       | Some _ => output_names (base_name_of csv.1) tt
       | None => []
       end).
Proof.
  intros Hgood. rewrite batch_process_all_unfold.
  by apply batch_outer_ok.
Qed.

Lemma X19_batch_writes_and_skips_witness :
  ∃ written,
    batch_process_all (tract_folder_ex binary64) (travel_folder_ex binary64)
      (Types ["drive"; "walk"])
    = ((written, ["AtlantaGA_walk.npy"; "AustinTX_drive.npy"; "AustinTX_walk.npy"]),
       Ok ()) ∧
    file_name <$> written
    = ["AtlantaGA_dtilde_drive.csv"; "AtlantaGA_dtilde_drive.npy";
       "AtlantaGA_d_drive.csv"; "AtlantaGA_d_drive.npy"].
Proof.
  apply (X19_batch_writes_and_skips (tract_folder_ex binary64)
           (travel_folder_ex binary64) ["drive"; "walk"]).
  intros csv tt M Hcsv Htt HM.
  change (glob_tract_data (tract_folder_ex binary64))
    with [("AtlantaGA_tract_data.csv", df_ex binary64);
          ("AustinTX_tract_data.csv", df_short binary64)] in Hcsv.
  repeat (apply elem_of_cons in Hcsv as [->|Hcsv]);
    [..|by apply elem_of_nil in Hcsv];
    (repeat (apply elem_of_cons in Htt as [->|Htt]);
     [..|by apply elem_of_nil in Htt]);
    vm_compute in HM; try discriminate HM.
  injection HM as <-. repeat split; repeat constructor.
Defined.

(** X20.  [batch_process_all] has no handler: the first exception ends the
    batch.  If it raises on a folder, it raises the same on that folder
    with more files after it, with the same files written, and none of the
    further files is processed; if it returns normally, the batch on the
    longer folder goes on with the further files as a batch of their
    own. *)
Theorem X20_batch_stops_at_first_error {C : Type} `{!Cell C}
    (folder1 folder2 : list (string * list (tract_row C)))
    (travel_folder : list (string * ndarray C)) (travel_types : list string) :
  (∀ log e,
     batch_process_all folder1 travel_folder (Types travel_types) = (log, Raise e) →
     batch_process_all (folder1 ++ folder2) travel_folder (Types travel_types)
     = (log, Raise e)) ∧
  (∀ written missing,
     batch_process_all folder1 travel_folder (Types travel_types)
     = ((written, missing), Ok ()) →
     batch_process_all (folder1 ++ folder2) travel_folder (Types travel_types)
     = ((written
         ++ (batch_process_all folder2 travel_folder (Types travel_types)).1.1,
         missing
         ++ (batch_process_all folder2 travel_folder (Types travel_types)).1.2),
        (batch_process_all folder2 travel_folder (Types travel_types)).2)).
Proof.
  split.
  - intros log e H. rewrite batch_process_all_unfold in *.
    unfold glob_tract_data. rewrite filter_app.
    rewrite for_each_io_app. fold (glob_tract_data folder1).
    by rewrite H.
  - intros written missing H. rewrite !batch_process_all_unfold in *.
    unfold glob_tract_data at 1. rewrite filter_app.
    rewrite for_each_io_app.
    fold (glob_tract_data folder1). fold (glob_tract_data folder2).
    rewrite H. by rewrite batch_outer_shift.
Qed.

Lemma X20_batch_stops_at_first_error_witness :
  batch_process_all
    ([("AtlantaGA_tract_data.csv", df_ex binary64)]
     ++ [("notes.txt", []); ("AustinTX_tract_data.csv", df_short binary64)])
    (travel_folder_bad binary64) (Types ["drive"; "walk"])
  = (([], []), Raise (ValueError
      "Mismatch: travel matrix size does not match number of population entries.")).
Proof.
  apply (proj1 (X20_batch_stops_at_first_error
                  [("AtlantaGA_tract_data.csv", df_ex binary64)]
                  [("notes.txt", []); ("AustinTX_tract_data.csv", df_short binary64)]
                  (travel_folder_bad binary64) ["drive"; "walk"])).
  by vm_compute.
Defined.

(** X21.  The raw matrices [compute_matrices_dijkstra] saves are never found
    by [batch_process_all] with the travel types drive and walk: it saves
    [<city><state>_drive_<date>.npy] and [<city><state>_walk_<date>.npy],
    the batch looks for [<base>_drive.npy] and [<base>_walk.npy].  On a
    travel folder that holds what one call has saved, for whatever city,
    state and date, the batch writes nothing and reports every travel file
    as missing. *)
Theorem X21_batch_misses_dijkstra_output {C : Type} `{!Cell C}
    (input_folder : list (string * list (tract_row C)))
    (n : nat) (Gd Gw : graph C) (nodes_drive nodes_walk : list nat)
    (city state : string) (year month day : nat) (do_drive do_walk : bool) :
  batch_process_all input_folder
    (npy_files (compute_matrices_dijkstra n Gd Gw nodes_drive nodes_walk
                  city state (isoformat year month day) do_drive do_walk).1)
    (Types ["drive"; "walk"])
  = (([], csv ← glob_tract_data input_folder; tt ← ["drive"; "walk"];
          [travel_file_of csv.1 tt]), Ok ()).
Proof.
  apply batch_finds_nothing. intros csv tt Hcsv Htt.
  apply folder_lookup_None. intros Hin.
  apply compute_matrices_dijkstra_names in Hin as [Hin|Hin]; revert Hin.
  - apply (travel_file_not_dated _ _ _
             (String.list_ascii_of_string city
              ++ String.list_ascii_of_string state
              ++ String.list_ascii_of_string "_drive_") year month day Htt).
    rewrite (list_ascii_app city), (list_ascii_app state),
      (list_ascii_app "_drive_").
    by rewrite <- !app_assoc.
  - apply (travel_file_not_dated _ _ _
             (String.list_ascii_of_string city
              ++ String.list_ascii_of_string state
              ++ String.list_ascii_of_string "_walk_") year month day Htt).
    rewrite (list_ascii_app city), (list_ascii_app state),
      (list_ascii_app "_walk_").
    by rewrite <- !app_assoc.
Qed.

(** X22.  The same holds for the pairwise module: the files [compute_matrices]
    saves, [drive_time_<city>_<state>_<date>.npy] and
    [walk_time_<city>_<state>_<date>.npy], are never found by
    [batch_process_all] with the travel types drive and walk. *)
Theorem X22_batch_misses_pairwise_output {C : Type} `{!Cell C}
    (input_folder : list (string * list (tract_row C)))
    (Gd Gw : graph C) (nodes_drive nodes_walk : list nat)
    (file_name_city file_name_state : string) (year month day : nat)
    (do_drive do_walk : bool) :
  batch_process_all input_folder
    (npy_files (compute_matrices Gd Gw nodes_drive nodes_walk
                  file_name_city file_name_state (isoformat year month day)
                  do_drive do_walk).1)
    (Types ["drive"; "walk"])
  = (([], csv ← glob_tract_data input_folder; tt ← ["drive"; "walk"];
          [travel_file_of csv.1 tt]), Ok ()).
Proof.
  apply batch_finds_nothing. intros csv tt Hcsv Htt.
  apply folder_lookup_None. intros Hin.
  apply compute_matrices_names in Hin as [Hin|Hin]; revert Hin.
  - apply (travel_file_not_dated _ _ _
             (String.list_ascii_of_string "drive_time_"
              ++ String.list_ascii_of_string file_name_city
              ++ String.list_ascii_of_string "_"
              ++ String.list_ascii_of_string file_name_state
              ++ String.list_ascii_of_string "_") year month day Htt).
    rewrite !list_ascii_app. by rewrite <- !app_assoc.
  - apply (travel_file_not_dated _ _ _
             (String.list_ascii_of_string "walk_time_"
              ++ String.list_ascii_of_string file_name_city
              ++ String.list_ascii_of_string "_"
              ++ String.list_ascii_of_string file_name_state
              ++ String.list_ascii_of_string "_") year month day Htt).
    rewrite !list_ascii_app. by rewrite <- !app_assoc.
Qed.

(** ** A few more *)

Section more_returns.
Context {C : Type} `{!Cell C}.

Lemma compute_matrices_drive_returns (Gd : graph C) (nodes : list nat) :
  (∃ D, compute_matrices_drive Gd nodes = Ok D) ↔
  (∀ i j s t, i ≠ j → nodes !! i = Some s → nodes !! j = Some t →
     is_Some (Gd s t)).
Proof.
  split.
  - intros [D HD] i j s t Hne Hs Ht.
    destruct (Gd s t) as [d|] eqn:Hd; [done|].
    by rewrite (compute_matrices_drive_unreachable Gd nodes i j s t) in HD.
  - apply compute_matrices_drive_total.
Qed.

Lemma compute_matrices_walk_returns `{!CellLaws C} (Gw : graph C)
    (nodes : list nat) :
  (∃ W, compute_matrices_walk Gw nodes = Ok W) ↔
  (∀ i j s t, i < j → nodes !! i = Some s → nodes !! j = Some t →
     is_Some (Gw s t)).
Proof.
  split.
  - intros [W HW] i j s t Hlt Hs Ht.
    destruct (Gw s t) as [d|] eqn:Hd; [done|].
    by rewrite (compute_matrices_walk_unreachable Gw nodes i j s t) in HW.
  - apply compute_matrices_walk_total.
Qed.

End more_returns.

(** X23.  A tract whose population field is missing, does not parse as a
    number or is [nan] counts as a tract of population 0: on an n×n matrix
    and a table of n rows [process_files] saves matrices in which the row
    of that tract in d is the column of that tract in d̃, and its diagonal
    cell is 0.  In every model of the cells. *)
Theorem X23_missing_population_counts_as_zero {C : Type} `{!Cell C}
    `{!CellLaws C} (travel_type base_name : string) (df : list (tract_row C))
    (T : ndarray C) (n k : nat) (row : tract_row C) :
  wf T → shape0 T = n → shape1 T = n → length df = n →
  df !! k = Some row →
  from_option isnan true (B01003_001E row) = true →
  ∃ dtilde d,
    process_files travel_type base_name df T
    = (saved_matrices base_name travel_type (id_column df) dtilde d, Ok ()) ∧
    (∀ j, j < n → j ≠ k →
       ∃ x, cell d k j = Some x ∧ cell dtilde j k = Some x) ∧
    cell d k k = Some czero.
Proof.
  intros HT H0 H1 Hn Hk Hfield.
  assert (length (population_column df) = n) as Hp
    by (by rewrite length_population_column).
  assert (population_column df !! k = Some czero) as Hpk.
  { unfold population_column. rewrite list_lookup_fmap, Hk. simpl. f_equal.
    unfold fillna0, to_numeric_coerce.
    destruct (B01003_001E row) as [x|]; simpl in *.
    - by apply unnan_nan.
    - apply unnan_nan, isnan_cnan. }
  assert (k < n) as Hkn by (rewrite <- Hn; by eapply lookup_lt_Some).
  destruct (two_passes_ok T (population_column df) n HT H0 H1 Hp)
    as (dtilde & d & Hr1 & Hr2 & Hcell).
  exists dtilde, d. split; [|split].
  - pose proof (compute_dtilde_matrix_ok T (population_column df) n HT H0 H1 Hp)
      as (D & HD & _ & Hs0 & Hs1 & _).
    assert (D = dtilde) as -> by congruence.
    apply compute_d_matrix_shape in Hr2 as Hd. destruct Hd as [Hd0 Hd1].
    unfold process_files.
    rewrite Hp, H0, Nat.eqb_refl. simpl.
    rewrite Hr1, Hr2. simpl. unfold save_labeled.
    by rewrite !make_DataFrame_ok by (rewrite length_id_column; congruence).
  - intros j Hj _.
    destruct (square_reads T (population_column df) n k j HT H0 H1 Hp Hkn Hj)
      as (? & pj & tkj & tjk & _ & Hpj & Hkj & Hjk).
    destruct (Hcell _ _ _ _ _ _ Hpk Hpj Hkj Hjk) as (_ & Hx & Hd).
    rewrite Hx, Hd. cbv zeta. rewrite d_formula_zero_l by apply eq0_czero.
    destruct (eq0 pj) eqn:Hzj; [|by eexists].
    rewrite dtilde_formula_zero_pop by (done || apply eq0_czero). by eexists.
  - destruct (square_reads T (population_column df) n k k HT H0 H1 Hp Hkn Hkn)
      as (? & ? & tkk & ? & _ & _ & Hkk & _).
    destruct (Hcell _ _ _ _ _ _ Hpk Hpk Hkk Hkk) as (_ & _ & Hd).
    rewrite Hd. cbv zeta. by rewrite d_formula_zero_l, eq0_czero by apply eq0_czero.
Qed.

Lemma X23_missing_population_counts_as_zero_witness :
  ∃ dtilde d,
    process_files "drive" "AustinTX" (df_short binary64) (T_two binary64)
    = (saved_matrices "AustinTX" "drive" (id_column (df_short binary64)) dtilde d,
       Ok ()) ∧
    (∀ j, j < 2 → j ≠ 1 →
       ∃ x, cell d 1 j = Some x ∧ cell dtilde j 1 = Some x) ∧
    cell d 1 1 = Some czero.
Proof.
  apply (X23_missing_population_counts_as_zero "drive" "AustinTX"
           (df_short binary64) (T_two binary64) 2 1
           (TractRow "13121000200" None));
    [by_compute | reflexivity..].
Defined.

(** X24.  [compute_full_drive_matrix] always returns.  Its matrix is n×n
    for n points, and for every pair, a point and itself included, D[i,j]
    is the length of the shortest path from point i to point j when there
    is one and [nan] when there is none. *)
Theorem X24_full_drive_cells {C : Type} `{!Cell C} (G : graph C)
    (nodes : list nat) :
  ∃ D, compute_full_drive_matrix G nodes = Ok D ∧
       shape0 D = length nodes ∧ shape1 D = length nodes ∧
       ∀ i j src tgt,
         nodes !! i = Some src → nodes !! j = Some tgt →
         cell D i j = Some (match G src tgt with Some d => d | None => cnan end).
Proof.
  destruct (compute_full_drive_matrix_ok G nodes) as (D & HD & _ & H0 & H1 & Hcell).
  exists D. do 3 (split; [done|]).
  intros i j src tgt Hi Hj. rewrite (Hcell i j src tgt Hi Hj).
  by destruct (G src tgt).
Qed.

(** X25.  [compute_matrices] returns normally exactly when the networks
    answer every query it makes: with [do_drive], every ordered pair of
    distinct points is connected in the drive network; with [do_walk],
    every point can reach on foot every point after it in the list. *)
Theorem X25_pairwise_call_returns {C : Type} `{!Cell C} `{!CellLaws C}
    (Gd Gw : graph C) (nodes_drive nodes_walk : list nat)
    (file_name_city file_name_state today : string) (do_drive do_walk : bool) :
  (compute_matrices Gd Gw nodes_drive nodes_walk
     file_name_city file_name_state today do_drive do_walk).2 = Ok () ↔
  (do_drive = true →
     ∀ i j s t, i ≠ j → nodes_drive !! i = Some s → nodes_drive !! j = Some t →
       is_Some (Gd s t)) ∧
  (do_walk = true →
     ∀ i j s t, i < j → nodes_walk !! i = Some s → nodes_walk !! j = Some t →
       is_Some (Gw s t)).
Proof.
  rewrite <- compute_matrices_drive_returns, <- compute_matrices_walk_returns.
  unfold compute_matrices.
  destruct do_drive, do_walk;
    destruct (compute_matrices_drive Gd nodes_drive) as [D|e1],
             (compute_matrices_walk Gw nodes_walk) as [W|e2]; simpl;
    split; try done; try (intros [H1 H2]);
    try (by split; [intros _; eauto|intros _; eauto]);
    try (by split; intros; eauto);
    try (by destruct H1 as [? ?]); try (by destruct H2 as [? ?]).
Qed.

Lemma X25_pairwise_call_returns_witness :
  (compute_matrices (G_line binary64) (G_oneway binary64) [0; 1] [0; 1]
     "Fulton" "GA" "2025-06-08" false true).2 = Ok ().
Proof.
  apply (proj2 (X25_pairwise_call_returns (G_line binary64) (G_oneway binary64)
                  [0; 1] [0; 1] "Fulton" "GA" "2025-06-08" false true)).
  split; [done|]. intros _ i j s t Hlt Hs Ht.
  destruct i as [|[|i]], j as [|[|j]]; try done; try lia.
  injection Hs as <-. injection Ht as <-. by eexists.
Defined.

(** X26.  The size check of [process_files] looks at the rows only.  A
    matrix with the right number n of rows and another number m of columns
    passes it, and the first pass then fails in numpy: for m ≠ 1 and n ≠ 1
    the call raises the broadcasting [ValueError] and writes nothing. *)
Theorem X26_process_files_not_square {C : Type} `{!Cell C}
    (travel_type base_name : string) (df : list (tract_row C))
    (T : ndarray C) (n m : nat) :
  shape0 T = n → shape1 T = m → length df = n →
  m ≠ n → m ≠ 1 → n ≠ 1 →
  process_files travel_type base_name df T
  = ([], Raise (ValueError "operands could not be broadcast together")).
Proof.
  intros H0 H1 Hn Hmn Hm1 Hn1. unfold process_files.
  rewrite length_population_column, H0, Hn, Nat.eqb_refl. simpl.
  assert (compute_dtilde_matrix T (population_column df)
          = Raise (ValueError "operands could not be broadcast together"))
    as ->; [|done].
  unfold compute_dtilde_matrix, np_mul, np_add, np_div, broadcast; simpl.
  rewrite length_population_column, H0, H1, Hn.
  repeat (rewrite ?bdim_same, ?bdim_one_l, ?bdim_one_r; simpl).
  assert (bdim n m = Raise (ValueError "operands could not be broadcast together"))
    as ->; [|done].
  unfold bdim.
  destruct (Nat.eqb_spec n m); [lia|].
  destruct (Nat.eqb_spec n 1); [lia|].
  by destruct (Nat.eqb_spec m 1).
Qed.

Lemma X26_process_files_not_square_witness :
  process_files "drive" "AtlantaGA" (df_ex binary64)
    (NdArray 3 2 [ [ofZ 0; ofZ 4]; [ofZ 5; ofZ 0]; [ofZ 7; ofZ 2] ])
  = ([], Raise (ValueError "operands could not be broadcast together")).
Proof.
  apply (X26_process_files_not_square "drive" "AtlantaGA" (df_ex binary64)
           (NdArray 3 2 [ [ofZ 0; ofZ 4]; [ofZ 5; ofZ 0]; [ofZ 7; ofZ 2] ]) 3 2);
    [reflexivity | reflexivity | reflexivity | lia | lia | lia].
Defined.
